(** * A shallow embedding of the calculator's expression engine

    The engine of [script.js] is a pipeline
    [tokenize] -> [toRPN] (shunting-yard) -> [evalRPN], wrapped by
    [internalEvaluateExpression] and exposed to other scripts through
    the bridge [window.evaluateExpression].

    JavaScript numbers are IEEE-754 binary64 values: they are embedded
    as Rocq's primitive floats, whose operations are the IEEE ones.
    Strings are sequences of UTF-16 code units.  A thrown [Error] is
    the [Err] branch of a result type; each constructor of [error]
    stands for one [throw] of the source. *)

From Stdlib Require Import ZArith NArith List Bool String Ascii Lia.
From Stdlib Require Import Floats.
From Stdlib Require Uint63.
Import ListNotations.

Local Open Scope Z_scope.

(** ** Strings of the source language *)

(** A UTF-16 code unit. *)
Definition char := Z.

(** A JavaScript string. *)
Definition jsstring := list char.

Fixpoint js (s : string) : jsstring :=
  match s with
  | EmptyString => []
  | String c r => Z.of_N (N_of_ascii c) :: js r
  end.

Definition code (c : ascii) : char := Z.of_N (N_of_ascii c).

(** ** Thrown errors *)

Inductive error : Type :=
  (* tokenize *)
  | InvalidNumber                       (* 'Invalid number' *)
  | UnexpectedCharacter (ch : char)     (* 'Unexpected character: ' + ch *)
  (* toRPN *)
  | MisplacedComma                      (* 'Misplaced comma or parentheses' *)
  | MismatchedParentheses               (* 'Mismatched parentheses' *)
  | UnknownTokenType (ty : string)      (* 'Unknown token type: ' + t.type *)
  (* factorial *)
  | InvalidFactorial                    (* 'Invalid factorial' *)
  | FactorialRequiresInteger            (* 'Factorial requires integer' *)
  | ResultTooLarge                      (* 'Result too large' *)
  (* trigOp *)
  | InvalidTrigArg                      (* 'Invalid trig arg' *)
  | UnknownTrig                         (* 'Unknown trig' *)
  (* evalRPN *)
  | InvalidBinaryOperation              (* 'Invalid binary operation' *)
  | MathError                           (* 'Math error' *)
  | InvalidPostfixOperation             (* 'Invalid postfix operation' *)
  | InvalidUnary                        (* 'Invalid unary' *)
  | InvalidFunctionArg                  (* 'Invalid function arg' *)
  | UnknownFunction (name : string)     (* 'Unknown function: ' + name *)
  | UnhandledRPNToken                   (* 'Unhandled RPN token: ' + ... *)
  | InvalidExpression                   (* 'Invalid expression' *)
  | ResultNotFinite                     (* 'Result not finite' *)
  (* Not a thrown error: a loop of the model reached its iteration
     bound.  [tokenize_terminates] and [factorial_terminates] show
     that no run produces it. *)
  | OutOfFuel.

Inductive result (A : Type) : Type :=
  | Ok (a : A)
  | Err (e : error).

Arguments Ok {A} a.
Arguments Err {A} e.

Definition bind {A B : Type} (r : result A) (k : A -> result B) : result B :=
  match r with
  | Ok a => k a
  | Err e => Err e
  end.

Notation "x <- r ;; k" := (bind r (fun x => k))
  (at level 61, r at next level, right associativity).

Definition is_ok {A : Type} (r : result A) : bool :=
  match r with Ok _ => true | Err _ => false end.

(** The pipeline stage an error belongs to: the function that throws it
    ([tokenize], [toRPN], or [evalRPN] and its helpers). *)
Inductive stage : Type := LexError | ParseError | EvalError.

Definition stage_of (e : error) : option stage :=
  match e with
  | InvalidNumber | UnexpectedCharacter _ => Some LexError
  | MisplacedComma | MismatchedParentheses | UnknownTokenType _ =>
      Some ParseError
  | OutOfFuel => None
  | _ => Some EvalError
  end.

(** ** Numbers *)

Local Open Scope float_scope.

(** [Number.isFinite]. *)
Definition Number_isFinite (x : float) : bool := is_finite x.

(** A natural number below 2^53 as a float (exact). *)
Definition float_of_Z (z : Z) : float := of_uint63 (Uint63.of_Z z).

(** [Math.floor]: the greatest integer not above [x]; NaN, the
    infinities and the zeros are returned unchanged. *)
Definition Math_floor (x : float) : float :=
  match Prim2SF x with
  | S754_finite s m e =>
      if (0 <=? e)%Z then x
      else
        let q := Z.shiftr (Zpos m) (- e) in
        if (Z.shiftl q (- e) =? Zpos m)%Z then x
        else if s then - float_of_Z (q + 1) else float_of_Z q
  | _ => x
  end.

(** [parseFloat] on the literals the tokenizer hands over (digits
    with at most one '.'): the decimal value [D / 10^k], correctly
    rounded to nearest-even.  The quotient is computed with more than
    [prec + 2] bits and a sticky bit, then rounded once. *)
Definition decimal_to_float (D : Z) (k : Z) : float :=
  if (D <=? 0)%Z then zero
  else
    let P := (10 ^ k)%Z in
    let s := Z.max 0 (64 + Z.log2 P - Z.log2 D)%Z in
    let n := Z.shiftl D s in
    let q := (n / P)%Z in
    let sticky := if (n mod P =? 0)%Z then 0%Z else 1%Z in
    SF2Prim (binary_normalize prec emax (2 * q + sticky)%Z (- s - 1)%Z false).

Definition isDigit (c : char) : bool := ((48 <=? c) && (c <=? 57))%Z.

Definition isAlpha (c : char) : bool :=
  (((97 <=? c) && (c <=? 122)) || ((65 <=? c) && (c <=? 90)))%Z.

(** [/\s/]: the white space and line terminator code units. *)
Definition isWhitespace (c : char) : bool :=
  (((9 <=? c) && (c <=? 13)) || (c =? 32) || (c =? 160) || (c =? 5760)
   || ((8192 <=? c) && (c <=? 8202)) || (c =? 8232) || (c =? 8233)
   || (c =? 8239) || (c =? 8287) || (c =? 12288) || (c =? 65279))%Z.

Definition dot : char := 46%Z.

Fixpoint digits_value (acc : Z) (s : jsstring) : Z :=
  match s with
  | [] => acc
  | c :: r => if isDigit c then digits_value (10 * acc + (c - 48))%Z r
              else digits_value acc r
  end.

Fixpoint frac_digits (seen : bool) (s : jsstring) : Z :=
  match s with
  | [] => 0%Z
  | c :: r =>
      if (c =? dot)%Z then frac_digits true r
      else if seen && isDigit c then (1 + frac_digits seen r)%Z
      else frac_digits seen r
  end.

Definition parseFloat (numStr : jsstring) : float :=
  decimal_to_float (digits_value 0 numStr) (frac_digits false numStr).

(** ** The host's [Math] object

    ECMAScript leaves the transcendental functions and [Math.pow]
    implementation-approximated, so they are parameters of the model;
    [Math.log10] may be absent (the source tests for it). *)
Record MathLib : Type := {
  Math_sin : float -> float;
  Math_cos : float -> float;
  Math_tan : float -> float;
  Math_log : float -> float;
  Math_log10 : option (float -> float);
  Math_pow : float -> float -> float
}.

Definition Math_PI : float := 0x1.921fb54442d18p+1.
Definition Math_E : float := 0x1.5bf0a8b145769p+1.
Definition Math_LN10 : float := 0x1.26bb1bbb55516p+1.
Definition Math_sqrt (x : float) : float := PrimFloat.sqrt x.

(** ** Factorial (integer only) *)

(** The loop [for (let i = 2; i <= n; i++) r *= i]; [None] when the
    fuel runs out before the loop condition fails. *)
Fixpoint factorial_loop (fuel : nat) (i n r : float) : option float :=
  match fuel with
  | O => None
  | S fuel' =>
      if i <=? n then factorial_loop fuel' (i + 1) n (r * i)
      else Some r
  end.

Definition factorial_fuel : nat := 200.

Definition factorial (n : float) : result float :=
  if negb (Number_isFinite n) || (n <? 0) then Err InvalidFactorial
  else if negb (Math_floor n =? n) then Err FactorialRequiresInteger
  else if 170 <? n then Err ResultTooLarge
  else match factorial_loop factorial_fuel 2 n 1 with
       | Some r => Ok r
       | None => Err OutOfFuel
       end.

(** ** Tokens *)

(** The symbols of [type: 'op'] tokens: [+ - * / ^]. *)
Inductive binop : Type := Add | Sub | Mul | Div | Pow.

(** The symbols of [type: 'postfix'] tokens: [!] and [%]. *)
Inductive postfix : Type := Bang | Percent.

(** The objects [{ type, value }] of the source, one constructor per
    [type].  ['func'] tokens are made by [toRPN] only, with value
    ['u-']. *)
Inductive token : Type :=
  | TNumber (value : float)
  | TName (value : string)
  | TLParen
  | TRParen
  | TComma
  | TPostfix (value : postfix)
  | TOp (value : binop)
  | TFunc (value : string).

Definition binop_eqb (a b : binop) : bool :=
  match a, b with
  | Add, Add | Sub, Sub | Mul, Mul | Div, Div | Pow, Pow => true
  | _, _ => false
  end.

(** ** Tokenizer *)

Local Open Scope Z_scope.

(** The maximal prefix of [s] whose code units satisfy [p], and what
    follows it: the scan [while (j < s.length && p(s[j])) j++]. *)
Fixpoint span (p : char -> bool) (s : jsstring) : jsstring * jsstring :=
  match s with
  | [] => ([], [])
  | c :: r =>
      if p c then let (run, rest) := span p r in (c :: run, rest)
      else ([], s)
  end.

Definition count_dots (s : jsstring) : nat :=
  List.length (filter (fun c => c =? dot) s).

(** [toLowerCase] on a name (only ASCII letters and digits occur). *)
Definition lower (c : char) : char :=
  if (65 <=? c) && (c <=? 90) then c + 32 else c.

Fixpoint name_of (s : jsstring) : string :=
  match s with
  | [] => EmptyString
  | c :: r => String (ascii_of_N (Z.to_N (lower c))) (name_of r)
  end.

Definition op_of_char (ch : char) : option binop :=
  if ch =? 43 then Some Add          (* + *)
  else if ch =? 45 then Some Sub     (* - *)
  else if ch =? 42 then Some Mul     (* * *)
  else if ch =? 47 then Some Div     (* / *)
  else if ch =? 94 then Some Pow     (* ^ *)
  else None.

Fixpoint tokenize_loop (fuel : nat) (s : jsstring) (tokens : list token)
  : result (list token) :=
  match s with
  | [] => Ok tokens
  | ch :: rest =>
      match fuel with
      | O => Err OutOfFuel
      | S fuel' =>
          if isWhitespace ch then tokenize_loop fuel' rest tokens
          else if isDigit ch
                  || ((ch =? dot)
                      && match rest with c :: _ => isDigit c | [] => false end)
          then
            (* number (supports decimals) *)
            let (run, rest') := span (fun c => isDigit c || (c =? dot)) rest in
            let numStr := ch :: run in
            if (1 <? count_dots numStr)%nat then Err InvalidNumber
            else tokenize_loop fuel' rest'
                   (tokens ++ [TNumber (parseFloat numStr)])
          else if isAlpha ch then
            (* identifier (function names) *)
            let (run, rest') := span (fun c => isAlpha c || isDigit c) rest in
            tokenize_loop fuel' rest' (tokens ++ [TName (name_of (ch :: run))])
          else if ch =? 40 then tokenize_loop fuel' rest (tokens ++ [TLParen])
          else if ch =? 41 then tokenize_loop fuel' rest (tokens ++ [TRParen])
          else if ch =? 44 then tokenize_loop fuel' rest (tokens ++ [TComma])
          else if ch =? 33 then
            tokenize_loop fuel' rest (tokens ++ [TPostfix Bang])
          else if ch =? 37 then
            tokenize_loop fuel' rest (tokens ++ [TPostfix Percent])
          else
            match op_of_char ch with
            | Some o => tokenize_loop fuel' rest (tokens ++ [TOp o])
            | None =>
                (* Unicode variants: U+00F7, U+00D7, U+2212, U+2014 *)
                if ch =? 247 then tokenize_loop fuel' rest (tokens ++ [TOp Div])
                else if ch =? 215 then
                  tokenize_loop fuel' rest (tokens ++ [TOp Mul])
                else if (ch =? 8722) || (ch =? 8212) then
                  tokenize_loop fuel' rest (tokens ++ [TOp Sub])
                else Err (UnexpectedCharacter ch)
            end
      end
  end.

Definition tokenize (s : jsstring) : result (list token) :=
  tokenize_loop (List.length s) s [].

(** ** The engine, over a host [Math] and the DEG/RAD flag *)

Section Engine.

Variable Math : MathLib.

(** The closure variable [useDegrees] that [trigOp] reads. *)
Variable useDegrees : bool.

Local Open Scope float_scope.

(** *** Trig wrapper to respect DEG/RAD *)

Definition trigOp (name : string) (x : float) : result float :=
  let v := x in
  if negb (Number_isFinite v) then Err InvalidTrigArg
  else
    let v := if useDegrees then v * Math_PI / 180 else v in
    if String.eqb name "sin" then Ok (Math_sin Math v)
    else if String.eqb name "cos" then Ok (Math_cos Math v)
    else if String.eqb name "tan" then Ok (Math_tan Math v)
    else if String.eqb name "csc" then Ok (1 / Math_sin Math v)
    else if String.eqb name "sec" then Ok (1 / Math_cos Math v)
    else if String.eqb name "cot" then Ok (1 / Math_tan Math v)
    else Err UnknownTrig.

(** *** Shunting-yard -> RPN *)

Inductive associativity : Type := L | R.

Record opinfo : Type := {
  prec : Z;
  assoc : associativity;
  fn : float -> float -> float
}.

Definition OPS (o : binop) : opinfo :=
  match o with
  | Add => {| prec := 2; assoc := L; fn := fun a b => a + b |}
  | Sub => {| prec := 2; assoc := L; fn := fun a b => a - b |}
  | Mul => {| prec := 3; assoc := L; fn := fun a b => a * b |}
  | Div => {| prec := 3; assoc := L; fn := fun a b => a / b |}
  | Pow => {| prec := 4; assoc := R; fn := fun a b => Math_pow Math a b |}
  end.

Definition is_L (a : associativity) : bool :=
  match a with L => true | R => false end.

Definition is_R (a : associativity) : bool :=
  match a with L => false | R => true end.

(** The test that pops the operator [o2] on top of the stack when the
    operator [o1] arrives. *)
Definition pops (o1 o2 : binop) : bool :=
  let p1 := prec (OPS o1) in
  let p2 := prec (OPS o2) in
  (is_L (assoc (OPS o1)) && (p1 <=? p2)%Z)
  || (is_R (assoc (OPS o1)) && (p1 <? p2)%Z).

Definition isUnary (value : binop) (prevToken : option token) : bool :=
  binop_eqb value Sub
  && match prevToken with
     | None => true
     | Some (TOp _) | Some TLParen | Some TComma => true
     | Some _ => false
     end.

(** Working state of [toRPN]: the output queue (in order) and the
    operator stack (top first). *)
Record rpn_state : Type := {
  output : list token;
  stack : list token
}.

(** [while (stack.length && top.type !== 'lparen') output.push(stack.pop())] *)
Fixpoint pop_to_lparen (stk out : list token) : rpn_state :=
  match stk with
  | [] => {| output := out; stack := [] |}
  | TLParen :: _ => {| output := out; stack := stk |}
  | top :: rest => pop_to_lparen rest (out ++ [top])
  end.

(** The loop of the binary-operator branch. *)
Fixpoint pop_ops (o1 : binop) (stk out : list token) : rpn_state :=
  match stk with
  | TOp o2 :: rest =>
      if pops o1 o2 then pop_ops o1 rest (out ++ [TOp o2])
      else {| output := out; stack := stk |}
  | _ => {| output := out; stack := stk |}
  end.

(** One iteration of the [for] loop of [toRPN]. *)
Definition toRPN_step (prevToken : option token) (t : token) (s : rpn_state)
  : result rpn_state :=
  match t with
  | TNumber _ => Ok {| output := output s ++ [t]; stack := stack s |}
  | TName value =>
      if String.eqb value "pi" then
        Ok {| output := output s ++ [TNumber Math_PI]; stack := stack s |}
      else if String.eqb value "e" then
        Ok {| output := output s ++ [TNumber Math_E]; stack := stack s |}
      else Ok {| output := output s; stack := t :: stack s |}
  | TComma =>
      let s' := pop_to_lparen (stack s) (output s) in
      match stack s' with
      | [] => Err MisplacedComma
      | _ :: _ => Ok s'
      end
  | TOp value =>
      if isUnary value prevToken then
        Ok {| output := output s; stack := TFunc "u-" :: stack s |}
      else
        let s' := pop_ops value (stack s) (output s) in
        Ok {| output := output s'; stack := t :: stack s' |}
  | TLParen => Ok {| output := output s; stack := t :: stack s |}
  | TRParen =>
      let s' := pop_to_lparen (stack s) (output s) in
      match stack s' with
      | [] => Err MismatchedParentheses
      | _ :: stk =>
          (* if function name on top, pop it to output *)
          match stk with
          | (TName _ as top) :: stk' | (TFunc _ as top) :: stk' =>
              Ok {| output := output s' ++ [top]; stack := stk' |}
          | _ => Ok {| output := output s'; stack := stk |}
          end
      end
  | TPostfix _ => Ok {| output := output s ++ [t]; stack := stack s |}
  | TFunc _ => Err (UnknownTokenType "func")
  end.

Fixpoint toRPN_loop (tokens : list token) (prevToken : option token)
  (s : rpn_state) : result rpn_state :=
  match tokens with
  | [] => Ok s
  | t :: rest =>
      s' <- toRPN_step prevToken t s ;;
      toRPN_loop rest (Some t) s'
  end.

(** The final [while (stack.length)] loop. *)
Fixpoint drain (stk out : list token) : result (list token) :=
  match stk with
  | [] => Ok out
  | top :: rest =>
      match top with
      | TLParen | TRParen => Err MismatchedParentheses
      | _ => drain rest (out ++ [top])
      end
  end.

Definition toRPN (tokens : list token) : result (list token) :=
  s <- toRPN_loop tokens None {| output := []; stack := [] |} ;;
  drain (stack s) (output s).

(** *** RPN evaluator *)

Definition is_trig (name : string) : bool :=
  existsb (String.eqb name) ["sin"; "cos"; "tan"; "sec"; "csc"; "cot"]%string.

(** One iteration of the loop of [evalRPN] on the numeric stack [st]
    (top first). *)
Definition evalRPN_step (t : token) (st : list float) : result (list float) :=
  match t with
  | TNumber value => Ok (value :: st)
  | TOp value =>
      match st with
      | b :: a :: st' =>
          let res := fn (OPS value) a b in
          if negb (Number_isFinite res) then Err MathError
          else Ok (res :: st')
      | _ => Err InvalidBinaryOperation
      end
  | TPostfix value =>
      match st with
      | [] => Err InvalidPostfixOperation
      | a :: st' =>
          match value with
          | Bang => r <- factorial a ;; Ok (r :: st')
          | Percent => Ok (a / 100 :: st')
          end
      end
  | TName name | TFunc name =>
      if String.eqb name "u-" then
        match st with
        | [] => Err InvalidUnary
        | a :: st' => Ok (- a :: st')
        end
      else if is_trig name then
        match st with
        | [] => Err InvalidFunctionArg
        | a :: st' => v <- trigOp name a ;; Ok (v :: st')
        end
      else if String.eqb name "ln" then
        match st with
        | [] => Err InvalidFunctionArg
        | a :: st' => Ok (Math_log Math a :: st')
        end
      else if String.eqb name "log" then
        match st with
        | [] => Err InvalidFunctionArg
        | a :: st' =>
            match Math_log10 Math with
            | Some log10 => Ok (log10 a :: st')
            | None => Ok (Math_log Math a / Math_LN10 :: st')
            end
        end
      else if String.eqb name "sqrt" then
        match st with
        | [] => Err InvalidFunctionArg
        | a :: st' => Ok (Math_sqrt a :: st')
        end
      else Err (UnknownFunction name)
  | TLParen | TRParen | TComma => Err UnhandledRPNToken
  end.

Fixpoint evalRPN_loop (rpn : list token) (st : list float)
  : result (list float) :=
  match rpn with
  | [] => Ok st
  | t :: rest => st' <- evalRPN_step t st ;; evalRPN_loop rest st'
  end.

Definition evalRPN (rpn : list token) : result float :=
  st <- evalRPN_loop rpn [] ;;
  match st with
  | [final] =>
      if negb (Number_isFinite final) then Err ResultNotFinite else Ok final
  | _ => Err InvalidExpression
  end.

(** *** Evaluate expression (tokenize -> RPN -> eval) *)

Local Open Scope Z_scope.

(** The three [replace] calls on Unicode operators, then the removal
    of all white space. *)
Definition normalize (str : jsstring) : jsstring :=
  filter (fun c => negb (isWhitespace c))
    (map (fun c => if c =? 247 then 47
                   else if c =? 215 then 42
                   else if c =? 8722 then 45
                   else c) str).

Definition internalEvaluateExpression (str : jsstring) : result float :=
  let normalized := normalize str in
  tokens <- tokenize normalized ;;
  rpn <- toRPN tokens ;;
  evalRPN rpn.

End Engine.

(** ** The AI evaluator bridge

    The last statements of [script.js] run at the top level, after the
    immediately-invoked arrow function that holds the engine.  Their
    behaviour rests on scoping: a function declared in the body of the
    arrow function is bound in that body only.  The model keeps the
    global object [window] (whose properties are also the global
    identifiers) and, separately, the bindings local to a function
    body. *)

Module Bridge.

(** What a call returns to the bridge: a number, a string, or
    [undefined]. *)
Inductive prim : Type :=
  | PUndefined
  | PNumber (x : float)
  | PString (s : string).

Inductive exn : Type :=
  | TypeError           (* calling a value that is not a function *)
  | ReferenceError      (* reading an identifier that is not bound *)
  | RangeError          (* maximum call stack size exceeded *)
  | Thrown (e : error). (* an [Error] thrown by the engine *)

Inductive completion : Type :=
  | Normal (v : prim)
  | Throw (x : exn).

(** Function values: the two functions of [script.js] that the bridge
    code can reach, or a function installed by another script. *)
Inductive closure : Type :=
  | InternalEvaluateExpression
  | EvaluateExpression
  | Host (g : jsstring -> completion).

Inductive value : Type :=
  | VPrim (v : prim)
  | VFunction (c : closure).

(** Bindings, innermost first. *)
Definition bindings := list (string * value).

Fixpoint lookup (id : string) (b : bindings) : option value :=
  match b with
  | [] => None
  | (k, v) :: r => if String.eqb k id then Some v else lookup id r
  end.

(** [window.p]: a property read; [undefined] when absent. *)
Definition get (window : bindings) (p : string) : value :=
  match lookup p window with
  | Some v => v
  | None => VPrim PUndefined
  end.

(** [window.p = v]. *)
Definition set (window : bindings) (p : string) (v : value) : bindings :=
  (p, v) :: window.

(** An identifier read in code whose enclosing function bodies bind
    [locals]: the local bindings first, then the global object;
    [None] (a ReferenceError, or ['undefined'] under [typeof]) when
    neither binds it. *)
Definition resolve (locals window : bindings) (id : string)
  : option value :=
  match lookup id locals with
  | Some v => Some v
  | None => lookup id window
  end.

Definition is_function (v : value) : bool :=
  match v with VFunction _ => true | VPrim _ => false end.

(** [typeof id === 'function']; [typeof] of an unbound identifier
    does not throw. *)
Definition typeof_is_function (locals window : bindings) (id : string)
  : bool :=
  match resolve locals window id with
  | Some v => is_function v
  | None => false
  end.

Section Script.

Variable Math : MathLib.
Variable useDegrees : bool.

(** The declarations in the body of the arrow function that the bridge
    code names. *)
Definition iife_locals : bindings :=
  [("internalEvaluateExpression"%string,
    VFunction InternalEvaluateExpression)].

(** [f(arg)] with room for [depth] nested calls on the call stack.
    The body of [window.evaluateExpression] is the [EvaluateExpression]
    case; it is declared at the top level, so no function body
    encloses it and its [locals] are empty. *)
Fixpoint call (depth : nat) (window : bindings) (f : value) (arg : jsstring)
  : completion :=
  match f with
  | VPrim _ => Throw TypeError
  | VFunction c =>
      match depth with
      | O => Throw RangeError
      | S depth' =>
          match c with
          | InternalEvaluateExpression =>
              match internalEvaluateExpression Math useDegrees arg with
              | Ok x => Normal (PNumber x)
              | Err e => Throw (Thrown e)
              end
          | Host g => g arg
          | EvaluateExpression =>
              let locals : bindings := [] in
              match call depth' window (get window "_internalEvaluate") arg with
              | Normal v => Normal v
              | Throw _ =>
                  (* if internal not set, try fallback name *)
                  match
                    match
                      resolve locals window "internalEvaluateExpression"
                    with
                    | Some g => call depth' window g arg
                    | None => Throw ReferenceError
                    end
                  with
                  | Normal v => Normal v
                  | Throw _ => Normal (PString "Error")
                  end
              end
          end
      end
  end.

(** The shim, run by code whose enclosing function bodies bind
    [locals]. *)
Definition shim (locals window : bindings) : bindings :=
  if negb (is_function (get window "_internalEvaluate")) then
    if typeof_is_function locals window "internalEvaluateExpression" then
      match resolve locals window "internalEvaluateExpression" with
      | Some f => set window "_internalEvaluate" f
      | None => window
      end
    else window
  else window.

(** The top-level statements of [script.js] up to the shim, in order.
    The arrow function comes first: it assigns no property of
    [window] and creates no global, and its declarations
    ([iife_locals]) are gone when it returns. *)
Definition load_script (window : bindings) : bindings :=
  let window := set window "evaluateExpression" (VFunction EvaluateExpression) in
  shim [] window.

(** A call of [window.evaluateExpression(expr)] from another script. *)
Definition evaluateExpression (depth : nat) (window : bindings)
  (expr : jsstring) : completion :=
  call depth window (get window "evaluateExpression") expr.

End Script.

End Bridge.

(** ** Reference notions the engine is compared with *)

(** *** Arithmetic expressions and their standard grouping *)

(** An arithmetic expression over numeric literals and the five binary
    operators, as a tree. *)
Inductive expr : Type :=
  | Num (v : float)
  | Bin (o : binop) (l r : expr).

(** The expression written without parentheses. *)
Fixpoint infix (e : expr) : list token :=
  match e with
  | Num v => [TNumber v]
  | Bin o l r => infix l ++ TOp o :: infix r
  end.

(** The expression in postfix order. *)
Fixpoint postorder (e : expr) : list token :=
  match e with
  | Num v => [TNumber v]
  | Bin o l r => postorder l ++ postorder r ++ [TOp o]
  end.

(** Precedence levels 2, 2, 3, 3, 4 for [+ - * / ^]. *)
Definition precedence (o : binop) : Z :=
  match o with
  | Add | Sub => 2
  | Mul | Div => 3
  | Pow => 4
  end.

(** [^] is right-associative, the others left-associative. *)
Definition right_assoc (o : binop) : bool :=
  match o with Pow => true | _ => false end.

(** An operation [c] may stand unparenthesised as the left operand of
    [o] when it binds tighter, or as tight and [o] groups to the
    left. *)
Definition left_operand_ok (o c : binop) : bool :=
  (precedence o <? precedence c)
  || ((precedence c =? precedence o) && negb (right_assoc o)).

(** Symmetrically for the right operand. *)
Definition right_operand_ok (o c : binop) : bool :=
  (precedence o <? precedence c)
  || ((precedence c =? precedence o) && right_assoc o).

Definition operand_ok (ok : binop -> binop -> bool) (o : binop) (e : expr)
  : bool :=
  match e with
  | Num _ => true
  | Bin c _ _ => ok o c
  end.

(** [grouped e]: the tree [e] is the reading that precedence and
    associativity give to its parenthesis-free text [infix e]. *)
Fixpoint grouped (e : expr) : bool :=
  match e with
  | Num _ => true
  | Bin o l r =>
      operand_ok left_operand_ok o l && operand_ok right_operand_ok o r
      && grouped l && grouped r
  end.

(** Reading [e op v] where [e] is already read: the new operator goes
    down the right spine past the operators it binds tighter than. *)
Fixpoint extend (e : expr) (o : binop) (v : float) : expr :=
  match e with
  | Num _ => Bin o e (Num v)
  | Bin c l r =>
      if right_operand_ok c o then Bin c l (extend r o v)
      else Bin o e (Num v)
  end.

(** The standard reading of [first op1 v1 op2 v2 ...]. *)
Fixpoint read (e : expr) (rest : list (binop * float)) : expr :=
  match rest with
  | [] => e
  | (o, v) :: rest' => read (extend e o v) rest'
  end.

Fixpoint flat (rest : list (binop * float)) : list token :=
  match rest with
  | [] => []
  | (o, v) :: rest' => TOp o :: TNumber v :: flat rest'
  end.

(** *** Arithmetic expressions as text, and their standard value *)

(** The code units of a string of decimal digits. *)
Fixpoint digits_text (u : Decimal.uint) : jsstring :=
  match u with
  | Decimal.Nil => []
  | Decimal.D0 u' => 48 :: digits_text u'
  | Decimal.D1 u' => 49 :: digits_text u'
  | Decimal.D2 u' => 50 :: digits_text u'
  | Decimal.D3 u' => 51 :: digits_text u'
  | Decimal.D4 u' => 52 :: digits_text u'
  | Decimal.D5 u' => 53 :: digits_text u'
  | Decimal.D6 u' => 54 :: digits_text u'
  | Decimal.D7 u' => 55 :: digits_text u'
  | Decimal.D8 u' => 56 :: digits_text u'
  | Decimal.D9 u' => 57 :: digits_text u'
  end.

(** A numeric literal: the digits before the point and, when there is
    a point, the digits after it. *)
Record literal : Type := {
  whole : Decimal.uint;
  fraction : option Decimal.uint
}.

Definition literal_text (l : literal) : jsstring :=
  digits_text (whole l)
  ++ match fraction l with
     | None => []
     | Some f => 46 :: digits_text f
     end.

(** A literal starts with a digit, or with a point followed by a
    digit. *)
Definition well_written (l : literal) : bool :=
  match whole l, fraction l with
  | Decimal.Nil, None => false
  | Decimal.Nil, Some Decimal.Nil => false
  | _, _ => true
  end.

(** The literal denotes [numerator / 10 ^ scale]. *)
Definition scale (l : literal) : Z :=
  match fraction l with
  | None => 0
  | Some f => Z.of_nat (Decimal.nb_digits f)
  end.

Definition numerator (l : literal) : Z :=
  Z.of_uint (whole l) * 10 ^ scale l
  + match fraction l with
    | None => 0
    | Some f => Z.of_uint f
    end.

(** The double nearest to [numerator / 10 ^ scale], for a literal of
    at most four digits: the two integers are doubles and the
    division rounds once. *)
Definition short (l : literal) : bool :=
  (numerator l <? 10000) && (scale l <=? 4).

Definition literal_value (l : literal) : float :=
  (float_of_Z (numerator l) / float_of_Z (10 ^ scale l))%float.

Definition op_char (o : binop) : char :=
  match o with
  | Add => 43
  | Sub => 45
  | Mul => 42
  | Div => 47
  | Pow => 94
  end.

(** The text [first op1 lit1 op2 lit2 ...]. *)
Definition written (first : literal) (rest : list (binop * literal))
  : jsstring :=
  literal_text first
  ++ flat_map (fun p => op_char (fst p) :: literal_text (snd p)) rest.

(** The five arithmetic operations on doubles; the power is the
    host's. *)
Definition arith (Math : MathLib) (o : binop) (a b : float) : float :=
  match o with
  | Add => (a + b)%float
  | Sub => (a - b)%float
  | Mul => (a * b)%float
  | Div => (a / b)%float
  | Pow => Math_pow Math a b
  end.

Fixpoint standard_value (Math : MathLib) (e : expr) : float :=
  match e with
  | Num v => v
  | Bin o l r => arith Math o (standard_value Math l) (standard_value Math r)
  end.

(** Every operation of the tree has a finite result. *)
Fixpoint operations_finite (Math : MathLib) (e : expr) : bool :=
  match e with
  | Num _ => true
  | Bin o l r =>
      operations_finite Math l && operations_finite Math r
      && is_finite (standard_value Math e)
  end.

(** Standard evaluation of a tree: its value, when every operation
    and the value itself are finite. *)
Definition standard_result (Math : MathLib) (e : expr) : result float :=
  if operations_finite Math e then
    if is_finite (standard_value Math e) then Ok (standard_value Math e)
    else Err ResultNotFinite
  else Err MathError.

(** *** Parenthesis and comma discipline *)

(** [parens_ok depth tokens]: reading [tokens] with [depth]
    parentheses open, every [)] closes an open [(], every [,] occurs
    inside an open [(], and none is left open at the end. *)
Fixpoint parens_ok (depth : nat) (tokens : list token) : bool :=
  match tokens with
  | [] => Nat.eqb depth 0
  | TLParen :: rest => parens_ok (S depth) rest
  | TRParen :: rest =>
      match depth with
      | O => false
      | S depth' => parens_ok depth' rest
      end
  | TComma :: rest =>
      match depth with
      | O => false
      | S _ => parens_ok depth rest
      end
  | _ :: rest => parens_ok depth rest
  end.

Definition is_func (t : token) : bool :=
  match t with TFunc _ => true | _ => false end.

(** *** A host [Math] for concrete runs

    Exact on the arguments where the language fixes the result or
    where it is an integer power computed by repeated multiplication;
    NaN elsewhere. *)

Fixpoint pow_nat (a : float) (n : nat) : float :=
  match n with
  | O => 1%float
  | S n' => (a * pow_nat a n')%float
  end.

Definition small_nat (b : float) : option nat :=
  find (fun n => (float_of_Z (Z.of_nat n) =? b)%float) (seq 0 64).

Definition StubMath : MathLib := {|
  Math_sin := fun x => if (x =? 0)%float then x else nan;
  Math_cos := fun x => if (x =? 0)%float then 1%float else nan;
  Math_tan := fun x => if (x =? 0)%float then x else nan;
  Math_log := fun x =>
    if (x =? 0)%float then neg_infinity
    else if (x =? 1)%float then 0%float else nan;
  Math_log10 := Some (fun x =>
    if (x =? 0)%float then neg_infinity
    else if (x =? 1)%float then 0%float else nan);
  Math_pow := fun a b =>
    match small_nat b with
    | Some n => pow_nat a n
    | None => nan
    end
|}.

(** *** Expressions with parentheses, calls and postfix operators *)

(** Expressions as the user writes them: literals, the constants
    [pi] and [e], binary operations, parenthesised expressions,
    calls [f(t)] and postfix operators. *)
Inductive term : Type :=
  | Lit (v : float)
  | Pi
  | Euler
  | Op (o : binop) (l r : term)
  | Paren (t : term)
  | Call (f : string) (t : term)
  | Post (t : term) (p : postfix).

(** The tokens of the written expression. *)
Fixpoint text (t : term) : list token :=
  match t with
  | Lit v => [TNumber v]
  | Pi => [TName "pi"]
  | Euler => [TName "e"]
  | Op o l r => text l ++ TOp o :: text r
  | Paren t' => TLParen :: text t' ++ [TRParen]
  | Call f t' => TName f :: TLParen :: text t' ++ [TRParen]
  | Post t' p => text t' ++ [TPostfix p]
  end.

(** The expression in postfix order. *)
Fixpoint postfix_form (t : term) : list token :=
  match t with
  | Lit v => [TNumber v]
  | Pi => [TNumber Math_PI]
  | Euler => [TNumber Math_E]
  | Op o l r => postfix_form l ++ postfix_form r ++ [TOp o]
  | Paren t' => postfix_form t'
  | Call f t' => postfix_form t' ++ [TName f]
  | Post t' p => postfix_form t' ++ [TPostfix p]
  end.

Definition is_operation (t : term) : bool :=
  match t with Op _ _ _ => true | _ => false end.

Definition term_operand_ok (ok : binop -> binop -> bool) (o : binop)
  (t : term) : bool :=
  match t with
  | Op c _ _ => ok o c
  | _ => true
  end.

(** [well_formed t]: [t] is the reading of its text.  The operands of
    a binary operation need no parentheses beyond those written; the
    name of a call is not a constant; a postfix operator follows a
    literal, a constant, a parenthesis, a call or another postfix
    operator. *)
Fixpoint well_formed (t : term) : bool :=
  match t with
  | Lit _ | Pi | Euler => true
  | Op o l r =>
      term_operand_ok left_operand_ok o l
      && term_operand_ok right_operand_ok o r
      && well_formed l && well_formed r
  | Paren t' => well_formed t'
  | Call f t' =>
      negb (String.eqb f "pi" || String.eqb f "e") && well_formed t'
  | Post t' _ => negb (is_operation t') && well_formed t'
  end.

Section TermValue.

Variable Math : MathLib.
Variable deg : bool.

(** The function a name stands for in the evaluator. *)
Definition apply_function (name : string) (a : float) : result float :=
  if String.eqb name "u-" then Ok (- a)%float
  else if is_trig name then trigOp Math deg name a
  else if String.eqb name "ln" then Ok (Math_log Math a)
  else if String.eqb name "log" then
    match Math_log10 Math with
    | Some log10 => Ok (log10 a)
    | None => Ok (Math_log Math a / Math_LN10)%float
    end
  else if String.eqb name "sqrt" then Ok (Math_sqrt a)
  else Err (UnknownFunction name).

(** The value of a term, innermost operations first and left operand
    before right operand. *)
Fixpoint term_value (t : term) : result float :=
  match t with
  | Lit v => Ok v
  | Pi => Ok Math_PI
  | Euler => Ok Math_E
  | Op o l r =>
      a <- term_value l ;;
      b <- term_value r ;;
      let res := fn (OPS Math o) a b in
      if negb (Number_isFinite res) then Err MathError else Ok res
  | Paren t' => term_value t'
  | Call f t' => a <- term_value t' ;; apply_function f a
  | Post t' Bang => a <- term_value t' ;; factorial a
  | Post t' Percent => a <- term_value t' ;; Ok (a / 100)%float
  end.

End TermValue.

(** ** The page around the engine

    The input handling of [script.js], with the document reduced to
    what the handlers read and write: the text of the two display
    elements, and the index of the focused button. *)

(** [escapeHtml]: three global replacements, in this order. *)
Definition replace_all (c : char) (by_ : jsstring) (s : jsstring) : jsstring :=
  flat_map (fun x => if x =? c then by_ else [x]) s.

Definition escapeHtml (str : jsstring) : jsstring :=
  replace_all 62 (js "&gt;")
    (replace_all 60 (js "&lt;")
       (replace_all 38 (js "&amp;") str)).

(** [focusDir]: the index of the button that receives the focus, if
    any.  [length] is [btnGrid.length] and [idx] the result of
    [btnGrid.indexOf(document.activeElement)]. *)
Definition focusDir (length idx : Z) (key : string) : option Z :=
  let exists_at (i : Z) := (0 <=? i) && (i <? length) in
  let cols := 4 in
  if idx =? -1 then (if exists_at 0 then Some 0 else None)
  else
    let t := idx in
    let t := if String.eqb key "ArrowLeft" then Z.max 0 (idx - 1) else t in
    let t := if String.eqb key "ArrowRight"
             then Z.min (length - 1) (idx + 1) else t in
    let t := if String.eqb key "ArrowUp" then Z.max 0 (idx - cols) else t in
    let t := if String.eqb key "ArrowDown"
             then Z.min (length - 1) (idx + cols) else t in
    if exists_at t then Some t else None.

Module UI.

(** One record of the history list. *)
Record entry : Type := {
  entry_expr : jsstring;
  entry_result : jsstring;
  entry_ts : Z
}.

(** The state the handlers share: the variables [expr], [locked],
    [useDegrees] and [history] of the enclosing function, and the
    text content of the elements [#display] and [#expression]. *)
Record state : Type := {
  expr : jsstring;
  locked : bool;
  useDegrees : bool;
  history : list entry;
  displayText : jsstring;
  exprText : jsstring
}.

(** The argument object of [handleInput]; a missing field is
    [undefined]. *)
Record input : Type := {
  action : option string;
  val : option jsstring;
  fnName : option jsstring
}.

Definition action_is (i : input) (name : string) : bool :=
  match action i with
  | Some a => String.eqb a name
  | None => false
  end.

Fixpoint starts_with (needle hay : jsstring) : bool :=
  match needle, hay with
  | [], _ => true
  | _ :: _, [] => false
  | a :: n, b :: h => (a =? b) && starts_with n h
  end.

(** [hay.includes(needle)]. *)
Fixpoint includes (hay needle : jsstring) : bool :=
  starts_with needle hay
  || match hay with
     | [] => false
     | _ :: h => includes h needle
     end.

(** [s.slice(-1)]: the last code unit as a string, or the empty
    string. *)
Fixpoint slice_last (s : jsstring) : jsstring :=
  match s with
  | [] => []
  | [c] => [c]
  | _ :: r => slice_last r
  end.

Definition render (s : state) : state :=
  {| expr := expr s; locked := locked s; useDegrees := useDegrees s;
     history := history s;
     displayText := match expr s with [] => js "0" | _ => expr s end;
     exprText := expr s |}.

Definition with_expr (s : state) (e : jsstring) : state :=
  {| expr := e; locked := locked s; useDegrees := useDegrees s;
     history := history s; displayText := displayText s;
     exprText := exprText s |}.

Section Handlers.

Variable Math : MathLib.

(** The text shown for a result:
    [(Number.isInteger(res) ? res : +res.toPrecision(12)).toString()],
    a conversion of the host. *)
Variable format : float -> jsstring.

(** [handleInput]; [now] is the value of [Date.now()]. *)
Definition handleInput (now : Z) (i : input) (s : state) : state :=
  if locked s && negb (action_is i "clear") then s
  else if action_is i "clear" then
    render {| expr := []; locked := false; useDegrees := useDegrees s;
              history := history s; displayText := displayText s;
              exprText := exprText s |}
  else if action_is i "back" then
    render (with_expr s (removelast (expr s)))
  else if action_is i "equals" then
    match expr s with
    | [] => s
    | _ :: _ =>
        match internalEvaluateExpression Math (useDegrees s) (expr s) with
        | Ok res =>
            let raw := expr s in
            let display := format res in
            let history' :=
              firstn 200
                ({| entry_expr := raw; entry_result := display;
                    entry_ts := now |} :: history s) in
            render {| expr := display; locked := false;
                      useDegrees := useDegrees s; history := history';
                      displayText := displayText s;
                      exprText := exprText s |}
        | Err _ =>
            {| expr := expr s; locked := true; useDegrees := useDegrees s;
               history := history s; displayText := js "Error";
               exprText := exprText s |}
        end
    end
  else
    match fnName i with
    | Some (c :: f) => render (with_expr s (expr s ++ c :: f))
    | _ =>
        match val i with
        | Some v =>
            let last := slice_last (expr s) in
            let ops := js "+-*/^" in
            if includes ops last && includes ops v then
              render (with_expr s (removelast (expr s) ++ v))
            else render (with_expr s (expr s ++ v))
        | None => s
        end
    end.

(** A run of the handler over a sequence of events. *)
Fixpoint handleInputs (events : list (Z * input)) (s : state) : state :=
  match events with
  | [] => s
  | (now, i) :: rest => handleInputs rest (handleInput now i s)
  end.

End Handlers.

(** The click handler of a history item showing [h]:
    [expr = h.result; render()]. *)
Definition historyClick (h : entry) (s : state) : state :=
  render (with_expr s (entry_result h)).

(** The state after the initial [render()], with the history [h]
    read from storage. *)
Definition initial (h : list entry) : state :=
  render {| expr := []; locked := false; useDegrees := true; history := h;
            displayText := []; exprText := [] |}.

End UI.

(** * Properties *)

(** ** Basic facts about the loops *)

Lemma bind_ok {A B : Type} (r : result A) (k : A -> result B) (b : B) :
  bind r k = Ok b -> exists a, r = Ok a /\ k a = Ok b.
Proof.
  destruct r as [a|e]; simpl; intros H; [exists a; auto | discriminate].
Qed.


Lemma last_shift {A : Type} (l : list A) :
  forall a d : A, last (a :: l) d = last l a.
Proof.
  induction l as [|b l IH]; intros a d; [reflexivity|].
  change (last (b :: l) d = last (b :: l) a).
  rewrite !IH. reflexivity.
Qed.

Lemma toRPN_loop_app (Math : MathLib) (pre post : list token) :
  forall prev s,
    toRPN_loop Math (pre ++ post) prev s =
    bind (toRPN_loop Math pre prev s)
         (toRPN_loop Math post (last (map Some pre) prev)).
Proof.
  induction pre as [|t pre IH]; intros prev s; [reflexivity|].
  cbn [app toRPN_loop].
  destruct (toRPN_step Math prev t s) as [s'|e]; cbn [bind]; [|reflexivity].
  rewrite IH.
  replace (last (map Some pre) (Some t)) with (last (map Some (t :: pre)) prev);
    [reflexivity|].
  apply (last_shift (map Some pre)).
Qed.

(** ** Character classes *)

Lemma normalize_app (a b : jsstring) :
  normalize (a ++ b) = normalize a ++ normalize b.
Proof.
  unfold normalize. rewrite map_app, filter_app. reflexivity.
Qed.

Lemma isAlpha_range (c : char) : isAlpha c = true -> 65 <= c <= 122.
Proof.
  unfold isAlpha. intros H.
  apply orb_prop in H as [H|H]; apply andb_prop in H as [H1 H2];
    apply Z.leb_le in H1, H2; lia.
Qed.

Lemma isDigit_range (c : char) : isDigit c = true -> 48 <= c <= 57.
Proof.
  unfold isDigit. intros H. apply andb_prop in H as [H1 H2].
  apply Z.leb_le in H1, H2. lia.
Qed.

Lemma isWhitespace_mid (c : char) : 33 <= c <= 159 -> isWhitespace c = false.
Proof.
  intros Hc. unfold isWhitespace.
  assert (H1 : (c <=? 13) = false) by (apply Z.leb_gt; lia).
  assert (H2 : (c =? 32) = false) by (apply Z.eqb_neq; lia).
  assert (H3 : (c =? 160) = false) by (apply Z.eqb_neq; lia).
  assert (H4 : (c =? 5760) = false) by (apply Z.eqb_neq; lia).
  assert (H5 : (8192 <=? c) = false) by (apply Z.leb_gt; lia).
  assert (H6 : (c =? 8232) = false) by (apply Z.eqb_neq; lia).
  assert (H7 : (c =? 8233) = false) by (apply Z.eqb_neq; lia).
  assert (H8 : (c =? 8239) = false) by (apply Z.eqb_neq; lia).
  assert (H9 : (c =? 8287) = false) by (apply Z.eqb_neq; lia).
  assert (H10 : (c =? 12288) = false) by (apply Z.eqb_neq; lia).
  assert (H11 : (c =? 65279) = false) by (apply Z.eqb_neq; lia).
  rewrite H1, H2, H3, H4, H5, H6, H7, H8, H9, H10, H11.
  rewrite andb_false_r. reflexivity.
Qed.

Lemma alpha_is_nothing_else (c : char) :
  isAlpha c = true ->
  isWhitespace c = false /\ isDigit c = false /\ (c =? dot) = false.
Proof.
  intros H. pose proof (isAlpha_range c H) as Hr.
  split; [apply isWhitespace_mid; lia|]. split.
  - destruct (isDigit c) eqn:Hd; [|reflexivity].
    apply isDigit_range in Hd. lia.
  - apply Z.eqb_neq. unfold dot. lia.
Qed.

Lemma lower_cases (c : char) :
  (65 <= c <= 90 /\ lower c = c + 32) \/ (~ 65 <= c <= 90 /\ lower c = c).
Proof.
  unfold lower.
  destruct (Z.leb_spec 65 c), (Z.leb_spec c 90); cbn [andb]; lia.
Qed.

(** ** Unary minus (C1) *)

(** C1. A [-] is read as unary negation exactly when it is the first
    token or follows a binary operator, a left parenthesis or a comma;
    it is then pushed as the function ['u-'].  With that rule
    ["3*-2"] evaluates to [-6] and ["3-(-2)"] to [5], but ["-5+3"]
    evaluates to [-8], not [-2]: the marker stays on the stack below
    the [+] and is emitted last, so the postfix form is [5 3 + u-]. *)
Theorem unary_minus_disambiguation (Math : MathLib) (deg : bool) :
  (forall (o : binop) (prev : option token),
      isUnary o prev = true <->
      o = Sub /\
      (prev = None \/ (exists o', prev = Some (TOp o'))
       \/ prev = Some TLParen \/ prev = Some TComma))
  /\ (forall (o : binop) (prev : option token) (s : rpn_state),
      isUnary o prev = true ->
      toRPN_step Math prev (TOp o) s =
      Ok {| output := output s; stack := TFunc "u-" :: stack s |})
  /\ (forall (a : float) (st : list float),
      evalRPN_step Math deg (TFunc "u-") (a :: st) = Ok ((- a)%float :: st))
  /\ bind (tokenize (js "-5+3")) (toRPN Math)
     = Ok [TNumber 5; TNumber 3; TOp Add; TFunc "u-"]
  /\ internalEvaluateExpression Math deg (js "-5+3") = Ok (-8)%float
  /\ internalEvaluateExpression Math deg (js "3*-2") = Ok (-6)%float
  /\ internalEvaluateExpression Math deg (js "3-(-2)") = Ok 5%float.
Proof.
  split; [|split; [|split]].
  - intros o prev; split.
    + unfold isUnary. intros H. apply andb_prop in H as [Ho Hp].
      split; [destruct o; simpl in Ho; congruence|].
      destruct prev as [[ | | | | | |o'| ]|]; try discriminate; eauto 6.
    + intros [-> [->|[[o' ->]|[->| ->]]]]; reflexivity.
  - intros o prev s H. unfold toRPN_step. rewrite H. reflexivity.
  - intros a st. reflexivity.
  - repeat split; vm_compute; reflexivity.
Qed.

Lemma unary_minus_disambiguation_witness :
  isUnary Sub None = true /\
  toRPN_step StubMath None (TOp Sub) {| output := []; stack := [] |} =
  Ok {| output := []; stack := [TFunc "u-"] |}.
Proof.
  split; [reflexivity|].
  apply (proj1 (proj2 (unary_minus_disambiguation StubMath true))).
  reflexivity.
Defined.

(** ** Postfix operators (C8) *)

(** C8. A postfix-operator token is appended to the output where it
    occurs and never touches the operator stack; after [a o b] it is
    therefore applied to [b] alone, whatever the binary operator [o],
    and ["3+4!"] evaluates to [3 + 24 = 27]. *)
Theorem postfix_emitted_in_place (Math : MathLib) (deg : bool) :
  (forall (p : postfix) (prev : option token) (s : rpn_state),
      toRPN_step Math prev (TPostfix p) s =
      Ok {| output := output s ++ [TPostfix p]; stack := stack s |})
  /\ (forall (a b : float) (o : binop) (p : postfix),
      toRPN Math [TNumber a; TOp o; TNumber b; TPostfix p] =
      Ok [TNumber a; TNumber b; TPostfix p; TOp o])
  /\ bind (tokenize (js "3+4!")) (toRPN Math)
     = Ok [TNumber 3; TNumber 4; TPostfix Bang; TOp Add]
  /\ internalEvaluateExpression Math deg (js "3+4!") = Ok 27%float.
Proof.
  split; [|split; [|split]].
  - reflexivity.
  - intros a b o p. destruct o; reflexivity.
  - vm_compute; reflexivity.
  - vm_compute; reflexivity.
Qed.

(** ** Final stack (C9) *)

(** C9. [evalRPN] returns a value only when the stack left by the
    token loop holds exactly one value, and returns that value; with
    any other number of values left it throws 'Invalid expression'.
    Conversely, when exactly one value is left and it is finite, that
    value is returned; when it is not finite 'Result not finite' is
    thrown; and an error of the token loop is the error of
    [evalRPN]. *)
Theorem evalRPN_final_stack (Math : MathLib) (deg : bool) (rpn : list token) :
  (forall v : float,
      evalRPN Math deg rpn = Ok v ->
      evalRPN_loop Math deg rpn [] = Ok [v])
  /\ (forall st : list float,
      evalRPN_loop Math deg rpn [] = Ok st ->
      List.length st <> 1%nat ->
      evalRPN Math deg rpn = Err InvalidExpression)
  /\ (forall v : float,
      evalRPN_loop Math deg rpn [] = Ok [v] ->
      Number_isFinite v = true ->
      evalRPN Math deg rpn = Ok v)
  /\ (forall v : float,
      evalRPN_loop Math deg rpn [] = Ok [v] ->
      Number_isFinite v = false ->
      evalRPN Math deg rpn = Err ResultNotFinite)
  /\ (forall e : error,
      evalRPN_loop Math deg rpn [] = Err e ->
      evalRPN Math deg rpn = Err e).
Proof.
  unfold evalRPN. split; [|split; [|split; [|split]]].
  - intros v H.
    destruct (evalRPN_loop Math deg rpn []) as [st|e]; simpl in H;
      [|discriminate].
    destruct st as [|x [|y st]]; try discriminate.
    destruct (negb (Number_isFinite x)); [discriminate|].
    congruence.
  - intros st -> Hlen. simpl.
    destruct st as [|x [|y st]]; try reflexivity.
    simpl in Hlen. congruence.
  - intros v -> Hfin. cbn [bind]. rewrite Hfin. reflexivity.
  - intros v -> Hfin. cbn [bind]. rewrite Hfin. reflexivity.
  - intros e ->. reflexivity.
Qed.

Lemma evalRPN_final_stack_witness :
  evalRPN_loop StubMath true [TNumber 2; TNumber 3; TOp Add] [] = Ok [5%float]
  /\ evalRPN StubMath true [TNumber 2; TNumber 3] = Err InvalidExpression
  /\ evalRPN StubMath true [TNumber 2; TNumber 3; TOp Add] = Ok 5%float.
Proof.
  split; [|split].
  - apply (proj1 (evalRPN_final_stack StubMath true
                    [TNumber 2; TNumber 3; TOp Add]) 5%float).
    vm_compute; reflexivity.
  - apply (proj1 (proj2 (evalRPN_final_stack StubMath true
                           [TNumber 2; TNumber 3]))
             [3%float; 2%float]).
    + vm_compute; reflexivity.
    + simpl; lia.
  - apply (proj1 (proj2 (proj2 (evalRPN_final_stack StubMath true
                                  [TNumber 2; TNumber 3; TOp Add])))
             5%float).
    + vm_compute; reflexivity.
    + vm_compute; reflexivity.
Defined.

(** ** Trigonometry and the DEG/RAD flag (C6) *)




(** A trig step whose argument is not finite throws. *)
Lemma trig_step_non_finite (Math : MathLib) (deg : bool) (name : string)
  (a : float) (st : list float) :
  is_trig name = true ->
  Number_isFinite a = false ->
  evalRPN_step Math deg (TName name) (a :: st) = Err InvalidTrigArg.
Proof.
  intros Ht Hfin. unfold evalRPN_step.
  destruct (String.eqb name "u-") eqn:Hu.
  - apply String.eqb_eq in Hu. subst name. discriminate.
  - rewrite Ht. unfold trigOp. rewrite Hfin. reflexivity.
Qed.

(** ** The bridge (C3) *)

Module BridgeFacts.
Import Bridge.


Lemma call_not_function (Math : MathLib) (deg : bool) (depth : nat)
  (window : bindings) (f : value) (expr : jsstring) :
  is_function f = false ->
  call Math deg depth window f expr = Throw TypeError.
Proof.
  destruct f; [destruct depth; reflexivity | discriminate].
Qed.

(** C3. Loaded into a page where no other script has bound
    [_internalEvaluate] or [internalEvaluateExpression] to a function,
    [script.js] leaves [window._internalEvaluate] unbound: the shim
    runs at the top level, where the engine's
    [internalEvaluateExpression] is not in scope (run with the arrow
    function's declarations in scope, the same shim would bind it).
    Then [window.evaluateExpression(expr)] returns normally with the
    string "Error" for every [expr], never a number: the call of
    [window._internalEvaluate] throws, and so does the fallback. *)
Theorem evaluateExpression_always_Error
  (Math : MathLib) (deg : bool) (window : bindings)
  (depth : nat) (expr : jsstring) :
  is_function (get window "_internalEvaluate") = false ->
  typeof_is_function [] window "internalEvaluateExpression" = false ->
  let loaded := load_script window in
  get loaded "_internalEvaluate" = get window "_internalEvaluate"
  /\ get (shim iife_locals
            (set window "evaluateExpression" (VFunction EvaluateExpression)))
         "_internalEvaluate"
     = VFunction InternalEvaluateExpression
  /\ evaluateExpression Math deg (S depth) loaded expr
     = Normal (PString "Error").
Proof.
  intros Hint Hfb loaded.
  assert (Hloaded : loaded =
            set window "evaluateExpression" (VFunction EvaluateExpression)).
  { subst loaded. unfold load_script, shim.
    change (get (set window "evaluateExpression" (VFunction EvaluateExpression))
              "_internalEvaluate") with (get window "_internalEvaluate").
    rewrite Hint. cbn [negb].
    change (typeof_is_function []
              (set window "evaluateExpression" (VFunction EvaluateExpression))
              "internalEvaluateExpression")
      with (typeof_is_function [] window "internalEvaluateExpression").
    rewrite Hfb. reflexivity. }
  split; [rewrite Hloaded; reflexivity|].
  split.
  { unfold shim.
    change (get (set window "evaluateExpression" (VFunction EvaluateExpression))
              "_internalEvaluate") with (get window "_internalEvaluate").
    rewrite Hint. reflexivity. }
  rewrite Hloaded. unfold evaluateExpression.
  change (get (set window "evaluateExpression" (VFunction EvaluateExpression))
            "evaluateExpression") with (VFunction EvaluateExpression).
  cbn [call].
  change (get (set window "evaluateExpression" (VFunction EvaluateExpression))
            "_internalEvaluate") with (get window "_internalEvaluate").
  rewrite (call_not_function _ _ _ _ _ _ Hint).
  change (resolve []
            (set window "evaluateExpression" (VFunction EvaluateExpression))
            "internalEvaluateExpression")
    with (lookup "internalEvaluateExpression" window).
  unfold typeof_is_function in Hfb.
  change (resolve [] window "internalEvaluateExpression")
    with (lookup "internalEvaluateExpression" window) in Hfb.
  destruct (lookup "internalEvaluateExpression" window) as [g|];
    [|reflexivity].
  rewrite (call_not_function _ _ _ _ _ _ Hfb). reflexivity.
Qed.

Lemma evaluateExpression_always_Error_witness :
  evaluateExpression StubMath true 1 (load_script []) (js "2+3")
  = Normal (PString "Error").
Proof.
  apply (proj2 (proj2 (evaluateExpression_always_Error StubMath true []
                         0 (js "2+3") eq_refl eq_refl))).
Defined.

End BridgeFacts.

(** ** Parentheses and commas (C10) *)

Section Parens.

Variable Math : MathLib.

(** Number of left parentheses on the operator stack. *)
Fixpoint lparens (stk : list token) : nat :=
  match stk with
  | [] => O
  | TLParen :: rest => S (lparens rest)
  | _ :: rest => lparens rest
  end.

Definition is_rparen (t : token) : bool :=
  match t with TRParen => true | _ => false end.

(** No right parenthesis is ever on the stack. *)
Definition clean (stk : list token) : Prop :=
  forallb (fun t => negb (is_rparen t)) stk = true.

Lemma clean_cons (t : token) (stk : list token) :
  is_rparen t = false -> clean stk -> clean (t :: stk).
Proof.
  unfold clean. intros Ht H. simpl. rewrite Ht, H. reflexivity.
Qed.

Lemma clean_tail (t : token) (stk : list token) :
  clean (t :: stk) -> clean stk.
Proof.
  unfold clean. simpl. intros H. apply andb_prop in H. tauto.
Qed.

Lemma pop_to_lparen_none (stk out : list token) :
  lparens stk = O -> stack (pop_to_lparen stk out) = [].
Proof.
  revert out. induction stk as [|t stk IH]; intros out H; [reflexivity|].
  destruct t; simpl in *; try discriminate; auto.
Qed.

Lemma pop_to_lparen_some (stk out : list token) (d : nat) :
  lparens stk = S d -> clean stk ->
  exists rest,
    stack (pop_to_lparen stk out) = TLParen :: rest
    /\ lparens rest = d /\ clean rest.
Proof.
  revert out. induction stk as [|t stk IH]; intros out H Hc; [discriminate|].
  pose proof (clean_tail _ _ Hc) as Hc'.
  destruct t; simpl in *; auto.
  exists stk. injection H as H. auto.
Qed.

Lemma pop_ops_lparens (o : binop) (stk out : list token) :
  lparens (stack (pop_ops Math o stk out)) = lparens stk.
Proof.
  revert out. induction stk as [|t stk IH]; intros out; [reflexivity|].
  destruct t; try reflexivity.
  simpl. destruct (pops Math o value); [apply IH | reflexivity].
Qed.

Lemma pop_ops_clean (o : binop) (stk out : list token) :
  clean stk -> clean (stack (pop_ops Math o stk out)).
Proof.
  revert out. induction stk as [|t stk IH]; intros out Hc; [exact Hc|].
  destruct t; try exact Hc.
  simpl. destruct (pops Math o value); [|exact Hc].
  apply IH. exact (clean_tail _ _ Hc).
Qed.

Lemma drain_ok (stk out : list token) :
  clean stk -> is_ok (drain stk out) = Nat.eqb (lparens stk) 0.
Proof.
  revert out. induction stk as [|t stk IH]; intros out Hc; [reflexivity|].
  pose proof (clean_tail _ _ Hc) as Hc'.
  destruct t; simpl; auto.
  unfold clean in Hc. simpl in Hc. discriminate.
Qed.

(** What one iteration does to the depth, for every token the
    tokenizer can produce. *)
Lemma toRPN_step_depth (prev : option token) (t : token) (s : rpn_state) :
  is_func t = false -> clean (stack s) ->
  match t with
  | TLParen =>
      exists s', toRPN_step Math prev t s = Ok s'
                 /\ lparens (stack s') = S (lparens (stack s))
                 /\ clean (stack s')
  | TRParen =>
      match lparens (stack s) with
      | O => toRPN_step Math prev t s = Err MismatchedParentheses
      | S d => exists s', toRPN_step Math prev t s = Ok s'
                          /\ lparens (stack s') = d /\ clean (stack s')
      end
  | TComma =>
      match lparens (stack s) with
      | O => toRPN_step Math prev t s = Err MisplacedComma
      | S d => exists s', toRPN_step Math prev t s = Ok s'
                          /\ lparens (stack s') = S d /\ clean (stack s')
      end
  | _ =>
      exists s', toRPN_step Math prev t s = Ok s'
                 /\ lparens (stack s') = lparens (stack s)
                 /\ clean (stack s')
  end.
Proof.
  intros Hf Hc. destruct t; try discriminate; cbn [toRPN_step].
  - eexists; repeat split; auto.
  - destruct (String.eqb value "pi"); [eexists; repeat split; auto|].
    destruct (String.eqb value "e"); [eexists; repeat split; auto|].
    eexists; repeat split; auto; apply clean_cons; auto.
  - eexists; repeat split; auto; apply clean_cons; auto.
  - destruct (lparens (stack s)) as [|d] eqn:Hd.
    + rewrite (pop_to_lparen_none _ (output s) Hd). reflexivity.
    + destruct (pop_to_lparen_some _ (output s) d Hd Hc)
        as (rest & Hs & Hl & Hr).
      rewrite Hs.
      destruct rest as [|top rest']; [eexists; repeat split; eauto|].
      pose proof (clean_tail _ _ Hr) as Hr'.
      destruct top; simpl in Hl; eexists; repeat split; eauto.
  - destruct (lparens (stack s)) as [|d] eqn:Hd.
    + rewrite (pop_to_lparen_none _ (output s) Hd). reflexivity.
    + destruct (pop_to_lparen_some _ (output s) d Hd Hc)
        as (rest & Hs & Hl & Hr).
      rewrite Hs. eexists; repeat split; eauto.
      * rewrite Hs. simpl. congruence.
      * rewrite Hs. apply clean_cons; auto.
  - eexists; repeat split; auto.
  - destruct (isUnary value prev).
    + eexists; repeat split; auto; apply clean_cons; auto.
    + eexists; repeat split; auto.
      * cbn [stack lparens]. apply pop_ops_lparens.
      * cbn [stack]. apply clean_cons; auto. apply pop_ops_clean; auto.
Qed.

Lemma toRPN_loop_parens (tokens : list token) :
  forall (prev : option token) (s : rpn_state),
    existsb is_func tokens = false ->
    clean (stack s) ->
    is_ok (bind (toRPN_loop Math tokens prev s)
             (fun s' => drain (stack s') (output s')))
    = parens_ok (lparens (stack s)) tokens.
Proof.
  induction tokens as [|t tokens IH]; intros prev s Hf Hc.
  - simpl. apply drain_ok; auto.
  - simpl in Hf. apply orb_false_elim in Hf as [Ht Hf].
    pose proof (toRPN_step_depth prev t s Ht Hc) as Hstep.
    cbn [toRPN_loop].
    destruct t; try discriminate;
      try (destruct Hstep as (s' & -> & Hl & Hc'); cbn [bind parens_ok];
           rewrite IH by auto; rewrite Hl; reflexivity).
    + cbn [parens_ok]. destruct (lparens (stack s)) as [|d].
      * rewrite Hstep. reflexivity.
      * destruct Hstep as (s' & -> & Hl & Hc'). cbn [bind].
        rewrite IH by auto. rewrite Hl. reflexivity.
    + cbn [parens_ok]. destruct (lparens (stack s)) as [|d].
      * rewrite Hstep. reflexivity.
      * destruct Hstep as (s' & -> & Hl & Hc'). cbn [bind].
        rewrite IH by auto. rewrite Hl. reflexivity.
Qed.

End Parens.

(** [toRPN] throws nothing but its three parse errors, and 'Unknown
    token type' only on a ['func'] token in its input. *)
Lemma toRPN_errors (Math : MathLib) (tokens : list token) (e : error) :
  toRPN Math tokens = Err e ->
  e = MismatchedParentheses \/ e = MisplacedComma
  \/ (e = UnknownTokenType "func" /\ existsb is_func tokens = true).
Proof.
  unfold toRPN.
  assert (Hdrain : forall stk out, drain stk out = Err e ->
                                   e = MismatchedParentheses).
  { induction stk as [|t stk IH]; intros out H; [discriminate|].
    destruct t; simpl in H; eauto; congruence. }
  assert (Hstep : forall prev t s,
             toRPN_step Math prev t s = Err e ->
             e = MismatchedParentheses \/ e = MisplacedComma
             \/ (e = UnknownTokenType "func" /\ is_func t = true)).
  { intros prev t s H. destruct t; cbn [toRPN_step] in H.
    - discriminate.
    - destruct (String.eqb value "pi"); [discriminate|].
      destruct (String.eqb value "e"); discriminate.
    - discriminate.
    - destruct (stack (pop_to_lparen (stack s) (output s))) as [|x stk];
        [left; congruence|].
      destruct stk as [|[] stk]; discriminate.
    - destruct (stack (pop_to_lparen (stack s) (output s)));
        [right; left; congruence | discriminate].
    - discriminate.
    - destruct (isUnary value prev); discriminate.
    - right; right. split; [congruence | reflexivity]. }
  generalize (@None token) {| output := []; stack := [] |}.
  induction tokens as [|t tokens IH]; intros prev s H.
  - simpl in H. eauto.
  - cbn [toRPN_loop] in H.
    destruct (toRPN_step Math prev t s) as [s'|e'] eqn:Hs.
    + cbn [bind] in H. apply IH in H.
      destruct H as [H|[H|[H1 H2]]]; auto.
      right; right. split; [assumption|]. simpl. rewrite H2.
      apply orb_true_r.
    + cbn [bind] in H. injection H as ->. apply Hstep in Hs.
      destruct Hs as [H|[H|[H1 H2]]]; auto.
      right; right. split; [assumption|]. simpl. rewrite H2. reflexivity.
Qed.

Lemma tokenize_loop_no_func (fuel : nat) :
  forall (s : jsstring) (tokens out : list token),
    existsb is_func tokens = false ->
    tokenize_loop fuel s tokens = Ok out ->
    existsb is_func out = false.
Proof.
  induction fuel as [|fuel IH]; intros s tokens out Ht H.
  - destruct s; simpl in H; [congruence | discriminate].
  - destruct s as [|ch rest]; [simpl in H; congruence|].
    cbn [tokenize_loop] in H.
    assert (Hpush : forall t, is_func t = false ->
                              existsb is_func (tokens ++ [t]) = false).
    { intros t Hf. rewrite existsb_app, Ht. simpl. rewrite Hf. reflexivity. }
    destruct (isWhitespace ch); [eapply IH; eauto|].
    destruct (isDigit ch
              || (ch =? dot)
                 && match rest with c :: _ => isDigit c | [] => false end).
    { destruct (span (fun c => isDigit c || (c =? dot)) rest) as [run rest'].
      destruct (1 <? count_dots (ch :: run))%nat; [discriminate|].
      eapply IH; [|exact H]. apply Hpush. reflexivity. }
    destruct (isAlpha ch).
    { destruct (span (fun c => isAlpha c || isDigit c) rest) as [run rest'].
      eapply IH; [|exact H]. apply Hpush. reflexivity. }
    repeat match type of H with
           | (if ?b then _ else _) = _ =>
               destruct b;
               [eapply IH; [|exact H]; apply Hpush; reflexivity|]
           end.
    destruct (op_of_char ch);
      [eapply IH; [|exact H]; apply Hpush; reflexivity|].
    repeat match type of H with
           | (if ?b then _ else _) = _ =>
               destruct b;
               [eapply IH; [|exact H]; apply Hpush; reflexivity|]
           end.
    discriminate.
Qed.

Lemma tokenize_no_func (s : jsstring) (tokens : list token) :
  tokenize s = Ok tokens -> existsb is_func tokens = false.
Proof.
  intros H. eapply tokenize_loop_no_func; [|exact H]. reflexivity.
Qed.

(** C10. On every token sequence that [toRPN] can receive - the
    sequences without a ['func'] token, which include every output of
    the tokenizer - [toRPN] throws exactly when the parentheses are
    mismatched (a right parenthesis with no open left parenthesis, or
    a left parenthesis still open at the end) or a comma occurs
    outside every open parenthesis; what it throws is then
    'Mismatched parentheses' or 'Misplaced comma or parentheses',
    both parse errors.  ["(2+3"] is rejected with 'Mismatched
    parentheses'. *)
Theorem toRPN_fails_iff_parens_mismatch
  (Math : MathLib) (tokens : list token) :
  existsb is_func tokens = false ->
  is_ok (toRPN Math tokens) = parens_ok 0 tokens
  /\ (forall e : error,
      toRPN Math tokens = Err e ->
      (e = MismatchedParentheses \/ e = MisplacedComma)
      /\ stage_of e = Some ParseError)
  /\ bind (tokenize (js "(2+3")) (toRPN Math) = Err MismatchedParentheses
  /\ (forall (str : jsstring) (toks : list token),
      tokenize str = Ok toks ->
      existsb is_func toks = false
      /\ is_ok (toRPN Math toks) = parens_ok 0 toks
      /\ (forall e : error,
            toRPN Math toks = Err e ->
            (e = MismatchedParentheses \/ e = MisplacedComma)
            /\ stage_of e = Some ParseError)).
Proof.
  assert (Hgen : forall toks,
             existsb is_func toks = false ->
             is_ok (toRPN Math toks) = parens_ok 0 toks
             /\ (forall e : error,
                   toRPN Math toks = Err e ->
                   (e = MismatchedParentheses \/ e = MisplacedComma)
                   /\ stage_of e = Some ParseError)).
  { intros toks Hf. split.
    - unfold toRPN.
      apply (toRPN_loop_parens Math toks None {| output := []; stack := [] |});
        [assumption | reflexivity].
    - intros e H. apply toRPN_errors in H.
      destruct H as [->|[->|[_ H]]]; auto. congruence. }
  intros Hf. destruct (Hgen tokens Hf) as [H1 H2].
  split; [exact H1|]. split; [exact H2|].
  split; [vm_compute; reflexivity|].
  intros str toks Htok.
  pose proof (tokenize_no_func str toks Htok) as Hnf.
  split; [exact Hnf|]. exact (Hgen toks Hnf).
Qed.

Lemma toRPN_fails_iff_parens_mismatch_witness :
  is_ok (toRPN StubMath [TLParen; TNumber 2; TOp Add; TNumber 3]) =
  parens_ok 0 [TLParen; TNumber 2; TOp Add; TNumber 3].
Proof.
  apply (proj1 (toRPN_fails_iff_parens_mismatch StubMath
                  [TLParen; TNumber 2; TOp Add; TNumber 3] eq_refl)).
Defined.

(** ** Unresolved names (C4) *)

(** The names [evalRPN] dispatches on. *)
Definition is_function_name (name : string) : bool :=
  is_trig name || String.eqb name "ln" || String.eqb name "log"
  || String.eqb name "sqrt".

Definition is_constant_name (name : string) : bool :=
  String.eqb name "pi" || String.eqb name "e".

(** The input ["foo(3)"] passes the tokenizer and [toRPN]: the parser
    does not reject the unresolved name. *)
Lemma unresolved_name_passes_toRPN :
  tokenize (js "foo(3)") = Ok [TName "foo"; TLParen; TNumber 3; TRParen]
  /\ toRPN StubMath [TName "foo"; TLParen; TNumber 3; TRParen]
     = Ok [TNumber 3; TName "foo"]
  /\ ~ (exists e : error,
          toRPN StubMath [TName "foo"; TLParen; TNumber 3; TRParen] = Err e).
Proof.
  split; [vm_compute; reflexivity|].
  split; [vm_compute; reflexivity|].
  intros [e H]. vm_compute in H. discriminate.
Qed.

(** On a name token the parser and the evaluator do the following,
    whatever string the name is. *)
Lemma unresolved_name_steps (Math : MathLib) (deg : bool) (name : string) :
  is_constant_name name = false ->
  is_function_name name = false ->
  String.eqb name "u-" = false ->
  (forall (prev : option token) (s : rpn_state),
      toRPN_step Math prev (TName name) s =
      Ok {| output := output s; stack := TName name :: stack s |})
  /\ (forall v : float,
      toRPN Math [TName name; TLParen; TNumber v; TRParen] =
      Ok [TNumber v; TName name])
  /\ (forall st : list float,
      evalRPN_step Math deg (TName name) st = Err (UnknownFunction name))
  /\ (forall v : float,
      evalRPN Math deg [TNumber v; TName name] = Err (UnknownFunction name)).
Proof.
  intros Hc Hf Hu.
  unfold is_constant_name in Hc. apply orb_false_elim in Hc as [Hpi He].
  unfold is_function_name in Hf.
  apply orb_false_elim in Hf as [Hf Hsqrt].
  apply orb_false_elim in Hf as [Hf Hlog].
  apply orb_false_elim in Hf as [Htrig Hln].
  assert (Hstep : forall prev s,
             toRPN_step Math prev (TName name) s =
             Ok {| output := output s; stack := TName name :: stack s |}).
  { intros prev s. unfold toRPN_step. rewrite Hpi, He. reflexivity. }
  assert (Heval : forall st,
             evalRPN_step Math deg (TName name) st = Err (UnknownFunction name)).
  { intros st. unfold evalRPN_step.
    rewrite Hu, Htrig, Hln, Hlog, Hsqrt. reflexivity. }
  repeat split; auto.
  - intros v. unfold toRPN. cbn [toRPN_loop].
    rewrite Hstep. reflexivity.
  - intros v. unfold evalRPN. cbn [evalRPN_loop].
    change (evalRPN_step Math deg (TNumber v) []) with (@Ok (list float) [v]).
    cbn [bind]. rewrite Heval. reflexivity.
Qed.

(** *** Identifiers in the input string *)

Definition alnum (c : char) : bool := isAlpha c || isDigit c.

(** What follows an identifier: the end of the input, or a code unit
    that is neither a letter nor a digit. *)
Definition ends_identifier (rest : jsstring) : bool :=
  match rest with
  | [] => true
  | c :: _ => negb (alnum c)
  end.

Lemma span_exact (p : char -> bool) (run rest : jsstring) :
  forallb p run = true ->
  match rest with [] => true | c :: _ => negb (p c) end = true ->
  span p (run ++ rest) = (run, rest).
Proof.
  intros Hrun Hrest. induction run as [|c run IH].
  - destruct rest as [|c rest]; [reflexivity|].
    cbn [app span]. apply negb_true_iff in Hrest. rewrite Hrest. reflexivity.
  - simpl in Hrun. apply andb_prop in Hrun as [Hc Hrun].
    cbn [app span]. rewrite Hc, (IH Hrun). reflexivity.
Qed.

(** Wherever the tokenizer reaches an identifier, it reads the whole
    identifier, emits one name token and goes on: no identifier is
    rejected at lex time. *)
Lemma tokenize_loop_identifier (fuel : nat) (ch : char)
  (run rest : jsstring) (tokens : list token) :
  isAlpha ch = true -> forallb alnum run = true ->
  ends_identifier rest = true ->
  tokenize_loop (S fuel) ((ch :: run) ++ rest) tokens
  = tokenize_loop fuel rest (tokens ++ [TName (name_of (ch :: run))]).
Proof.
  intros Hch Hrun Hrest.
  destruct (alpha_is_nothing_else ch Hch) as (Hw & Hd & Hp).
  cbn [app tokenize_loop]. rewrite Hw, Hd, Hp, Hch. cbn [andb orb].
  rewrite (span_exact (fun c => isAlpha c || isDigit c) run rest Hrun Hrest).
  reflexivity.
Qed.

Lemma tokenize_loop_nil (fuel : nat) (tokens : list token) :
  tokenize_loop fuel [] tokens = Ok tokens.
Proof. destruct fuel; reflexivity. Qed.

Lemma tokenize_loop_call_3 (fuel : nat) (tokens : list token) :
  tokenize_loop (S (S (S fuel))) (js "(3)") tokens
  = Ok (tokens ++ [TLParen; TNumber 3; TRParen]).
Proof.
  cbn [js tokenize_loop]. vm_compute isWhitespace.
  change (tokenize_loop fuel [] (((tokens ++ [TLParen]) ++ [TNumber 3])
                                   ++ [TRParen])
          = Ok (tokens ++ [TLParen; TNumber 3; TRParen])).
  rewrite tokenize_loop_nil, <- !app_assoc. reflexivity.
Qed.

Lemma alnum_range (c : char) : alnum c = true -> 48 <= c <= 122.
Proof.
  unfold alnum. intros H. apply orb_prop in H as [H|H].
  - apply isAlpha_range in H. lia.
  - apply isDigit_range in H. lia.
Qed.

Lemma lower_alnum_range (c : char) : alnum c = true -> 48 <= lower c <= 122.
Proof.
  intros H. apply alnum_range in H.
  destruct (lower_cases c) as [[Hc ->]|[_ ->]]; lia.
Qed.

(** The tokenizer's names are never the unary-minus marker. *)
Lemma name_of_not_unary_minus (ch : char) (run : jsstring) :
  forallb alnum run = true ->
  String.eqb (name_of (ch :: run)) "u-" = false.
Proof.
  intros Hrun. cbn [name_of String.eqb].
  destruct (Ascii.eqb (ascii_of_N (Z.to_N (lower ch))) "u"); [|reflexivity].
  destruct run as [|c run]; [reflexivity|].
  simpl in Hrun. apply andb_prop in Hrun as [Hc _].
  apply lower_alnum_range in Hc.
  cbn [name_of String.eqb].
  destruct (Ascii.eqb (ascii_of_N (Z.to_N (lower c))) "-") eqn:He;
    [|reflexivity].
  exfalso. apply Ascii.eqb_eq in He.
  apply (f_equal N_of_ascii) in He.
  rewrite N_ascii_embedding in He by lia.
  simpl in He. lia.
Qed.

Lemma normalize_alnum (s : jsstring) :
  forallb alnum s = true -> normalize s = s.
Proof.
  unfold normalize. induction s as [|c s IH]; intros H; [reflexivity|].
  simpl in H. apply andb_prop in H as [Hc Hs].
  apply alnum_range in Hc. cbn [map filter].
  destruct (Z.eqb_spec c 247); [lia|].
  destruct (Z.eqb_spec c 215); [lia|].
  destruct (Z.eqb_spec c 8722); [lia|].
  rewrite isWhitespace_mid by lia. cbn [negb]. rewrite IH by assumption.
  reflexivity.
Qed.

(** *** Names through the parser and the evaluator *)

(** [pop_to_lparen] stops on a left parenthesis or on the empty
    stack, and loses nothing. *)
Lemma pop_to_lparen_keeps (x : token) (stk : list token) :
  forall out : list token,
    In x out \/ In x stk ->
    In x (output (pop_to_lparen stk out))
    \/ In x (stack (pop_to_lparen stk out)).
Proof.
  induction stk as [|top stk IH]; intros out H; [exact H|].
  assert (Hmove : In x (out ++ [top]) \/ In x stk).
  { destruct H as [H|[H|H]]; [left|left|right]; try assumption;
      apply in_or_app; [left; assumption|right; left; assumption]. }
  destruct top; cbn [pop_to_lparen]; try (apply IH; exact Hmove).
  exact H.
Qed.

Lemma pop_to_lparen_top (stk : list token) :
  forall out : list token,
    match stack (pop_to_lparen stk out) with
    | [] => True
    | top :: _ => top = TLParen
    end.
Proof.
  induction stk as [|top stk IH]; intros out; [exact I|].
  destruct top; cbn [pop_to_lparen]; try apply IH. reflexivity.
Qed.

Lemma pop_ops_keeps (Math : MathLib) (x : token) (o : binop)
  (stk : list token) :
  forall out : list token,
    In x out \/ In x stk ->
    In x (output (pop_ops Math o stk out))
    \/ In x (stack (pop_ops Math o stk out)).
Proof.
  induction stk as [|top stk IH]; intros out H; [exact H|].
  destruct top as [v|value| | | |p|o2|f]; cbn [pop_ops]; try exact H.
  destruct (pops Math o o2); [|exact H].
  apply IH. destruct H as [H|[H|H]]; [left|left|right]; try assumption;
    apply in_or_app; [left; assumption|right; left; assumption].
Qed.

(** A name waiting in the parser's state stays there, and a name
    other than [pi] and [e] enters it. *)
Lemma toRPN_step_keeps_name (Math : MathLib) (name : string)
  (prev : option token) (t : token) (s s' : rpn_state) :
  is_constant_name name = false ->
  toRPN_step Math prev t s = Ok s' ->
  (In (TName name) (output s) \/ In (TName name) (stack s))
  \/ t = TName name ->
  In (TName name) (output s') \/ In (TName name) (stack s').
Proof.
  intros Hc Hstep H.
  unfold is_constant_name in Hc. apply orb_false_elim in Hc as [Hpi He].
  assert (Hout : forall (a : list token) (y : token),
             In (TName name) a -> In (TName name) (a ++ [y])).
  { intros a y Ha. apply in_or_app. left. exact Ha. }
  destruct t as [v|value| | | |p|o|f]; cbn [toRPN_step] in Hstep.
  - injection Hstep as <-. cbn [output stack].
    destruct H as [[H|H]|H]; [left; auto|right; auto|discriminate].
  - destruct H as [H|H].
    + destruct (String.eqb value "pi");
        [|destruct (String.eqb value "e")];
        injection Hstep as <-; cbn [output stack];
        (destruct H as [H|H]; [left; auto|right; auto with datatypes]).
    + injection H as ->. rewrite Hpi, He in Hstep.
      injection Hstep as <-. right. left. reflexivity.
  - injection Hstep as <-. cbn [output stack].
    destruct H as [[H|H]|H]; [left; auto|right; right; auto|discriminate].
  - destruct H as [H|H]; [|discriminate].
    pose proof (pop_to_lparen_keeps _ (stack s) (output s) H) as Hk.
    pose proof (pop_to_lparen_top (stack s) (output s)) as Htop.
    destruct (pop_to_lparen (stack s) (output s)) as [out stk].
    cbn [output stack] in *.
    destruct stk as [|top stk]; [discriminate|]. subst top.
    assert (Hk' : In (TName name) out \/ In (TName name) stk).
    { destruct Hk as [Hk|[Hk|Hk]]; [left; auto|discriminate|right; auto]. }
    destruct stk as [|[v|value| | | |p|o|f] stk];
      injection Hstep as <-; cbn [output stack]; try exact Hk'.
    + destruct Hk' as [Hk'|[Hk'|Hk']]; [left; auto| |right; auto].
      left. apply in_or_app. right. left. exact Hk'.
    + destruct Hk' as [Hk'|[Hk'|Hk']]; [left; auto|discriminate|right; auto].
  - destruct H as [H|H]; [|discriminate].
    pose proof (pop_to_lparen_keeps _ (stack s) (output s) H) as Hk.
    destruct (pop_to_lparen (stack s) (output s)) as [out stk].
    cbn [output stack] in *.
    destruct stk as [|top stk]; [discriminate|].
    injection Hstep as <-. exact Hk.
  - injection Hstep as <-. cbn [output stack].
    destruct H as [[H|H]|H]; [left; auto|right; auto|discriminate].
  - destruct H as [H|H]; [|discriminate].
    destruct (isUnary o prev); injection Hstep as <-; cbn [output stack].
    + destruct H as [H|H]; [left; auto|right; right; auto].
    + destruct (pop_ops_keeps Math _ o (stack s) (output s) H) as [Hk|Hk];
        [left; auto|right; right; auto].
  - discriminate.
Qed.

Lemma toRPN_loop_keeps_name (Math : MathLib) (name : string)
  (tokens : list token) :
  is_constant_name name = false ->
  forall (prev : option token) (s s' : rpn_state),
    toRPN_loop Math tokens prev s = Ok s' ->
    (In (TName name) (output s) \/ In (TName name) (stack s))
    \/ In (TName name) tokens ->
    In (TName name) (output s') \/ In (TName name) (stack s').
Proof.
  intros Hc. induction tokens as [|t tokens IH]; intros prev s s' Hloop H.
  - cbn [toRPN_loop] in Hloop. injection Hloop as <-.
    destruct H as [H|[]]. exact H.
  - cbn [toRPN_loop] in Hloop.
    destruct (toRPN_step Math prev t s) as [s1|e] eqn:Hstep;
      cbn [bind] in Hloop; [|discriminate].
    apply (IH _ _ _ Hloop).
    destruct H as [H|[H|H]].
    + left. apply (toRPN_step_keeps_name Math name prev t s s1 Hc Hstep).
      left. exact H.
    + left. apply (toRPN_step_keeps_name Math name prev t s s1 Hc Hstep).
      right. exact H.
    + right. exact H.
Qed.

Lemma drain_keeps (x : token) (stk : list token) :
  forall out rpn : list token,
    drain stk out = Ok rpn -> In x out \/ In x stk -> In x rpn.
Proof.
  induction stk as [|top stk IH]; intros out rpn Hd H.
  - cbn [drain] in Hd. injection Hd as <-. destruct H as [H|[]]. exact H.
  - assert (Hmove : In x (out ++ [top]) \/ In x stk).
    { destruct H as [H|[H|H]]; [left|left|right]; try assumption;
        apply in_or_app; [left; assumption|right; left; assumption]. }
    destruct top; cbn [drain] in Hd; try discriminate;
      apply (IH _ _ Hd Hmove).
Qed.

(** Every name of the input other than [pi] and [e] is in the postfix
    form. *)
Lemma toRPN_keeps_name (Math : MathLib) (name : string)
  (tokens rpn : list token) :
  is_constant_name name = false ->
  toRPN Math tokens = Ok rpn ->
  In (TName name) tokens -> In (TName name) rpn.
Proof.
  intros Hc Hrpn Hin. unfold toRPN in Hrpn.
  destruct (toRPN_loop Math tokens None {| output := []; stack := [] |})
    as [s|e] eqn:Hloop; cbn [bind] in Hrpn; [|discriminate].
  apply (drain_keeps _ _ _ _ Hrpn).
  apply (toRPN_loop_keeps_name Math name tokens Hc _ _ _ Hloop).
  right. exact Hin.
Qed.

(** The evaluator does not get past a token it rejects. *)
Lemma evalRPN_loop_stops (Math : MathLib) (deg : bool) (t : token)
  (rpn : list token) :
  (forall st : list float, exists e, evalRPN_step Math deg t st = Err e) ->
  In t rpn ->
  forall st : list float, exists e, evalRPN_loop Math deg rpn st = Err e.
Proof.
  intros Hrej. induction rpn as [|t' rpn IH]; intros Hin st; [destruct Hin|].
  cbn [evalRPN_loop].
  destruct Hin as [->|Hin].
  - destruct (Hrej st) as [e ->]. exists e. reflexivity.
  - destruct (evalRPN_step Math deg t' st) as [st'|e]; cbn [bind].
    + apply (IH Hin).
    + exists e. reflexivity.
Qed.

(** C4 (amended). Every identifier of the input - a letter followed
    by letters and digits - is accepted by the tokenizer, which emits
    one name token for it wherever it occurs.  When the lowercased
    name is neither a supported function nor [pi]/[e], [toRPN]
    accepts it too and pushes it as a pending function; it is rejected
    when [evalRPN] reaches it, with 'Unknown function: name'.  So the
    input [name(3)] is tokenized, converted to the postfix form
    [3 name], and fails at evaluation time, for every such name (as
    ["foo(3)"] does).  More generally, on every input whose tokens
    contain the name, [toRPN] fails only for mismatched parentheses
    or a misplaced comma, its output still contains the name, and
    [evalRPN] then throws: the evaluation never returns a value. *)
Theorem unresolved_name_rejected_by_evalRPN
  (Math : MathLib) (deg : bool) (ch : char) (run : jsstring) :
  isAlpha ch = true ->
  forallb alnum run = true ->
  is_constant_name (name_of (ch :: run)) = false ->
  is_function_name (name_of (ch :: run)) = false ->
  let ident := ch :: run in
  let name := name_of ident in
  (forall (fuel : nat) (rest : jsstring) (tokens : list token),
      ends_identifier rest = true ->
      tokenize_loop (S fuel) (ident ++ rest) tokens
      = tokenize_loop fuel rest (tokens ++ [TName name]))
  /\ tokenize ident = Ok [TName name]
  /\ tokenize (ident ++ js "(3)")
     = Ok [TName name; TLParen; TNumber 3; TRParen]
  /\ (forall (prev : option token) (s : rpn_state),
      toRPN_step Math prev (TName name) s =
      Ok {| output := output s; stack := TName name :: stack s |})
  /\ (forall v : float,
      toRPN Math [TName name; TLParen; TNumber v; TRParen] =
      Ok [TNumber v; TName name])
  /\ (forall st : list float,
      evalRPN_step Math deg (TName name) st = Err (UnknownFunction name))
  /\ (forall v : float,
      evalRPN Math deg [TNumber v; TName name] = Err (UnknownFunction name))
  /\ internalEvaluateExpression Math deg ident = Err (UnknownFunction name)
  /\ internalEvaluateExpression Math deg (ident ++ js "(3)")
     = Err (UnknownFunction name)
  /\ (forall (str : jsstring) (tokens : list token),
      tokenize (normalize str) = Ok tokens ->
      In (TName name) tokens ->
      (forall e : error,
          toRPN Math tokens = Err e ->
          e = MismatchedParentheses \/ e = MisplacedComma)
      /\ (forall rpn : list token,
            toRPN Math tokens = Ok rpn ->
            In (TName name) rpn
            /\ exists e : error, evalRPN Math deg rpn = Err e)
      /\ is_ok (internalEvaluateExpression Math deg str) = false)
  /\ tokenize (js "foo(3)") = Ok [TName "foo"; TLParen; TNumber 3; TRParen]
  /\ internalEvaluateExpression Math deg (js "foo(3)")
     = Err (UnknownFunction "foo").
Proof.
  intros Hch Hrun Hc Hf ident name.
  pose proof (name_of_not_unary_minus ch run Hrun) as Hu.
  destruct (unresolved_name_steps Math deg name Hc Hf Hu)
    as (Hstep & Hrpn & Heval & Hrun3).
  assert (Hlex : forall fuel rest tokens,
             ends_identifier rest = true ->
             tokenize_loop (S fuel) (ident ++ rest) tokens
             = tokenize_loop fuel rest (tokens ++ [TName name])).
  { intros fuel rest tokens Hrest.
    apply tokenize_loop_identifier; assumption. }
  assert (Hident : forallb alnum ident = true).
  { cbn [ident forallb]. unfold alnum at 1. rewrite Hch, Hrun. reflexivity. }
  assert (Htok1 : tokenize ident = Ok [TName name]).
  { unfold tokenize. rewrite <- (app_nil_r ident) at 2.
    cbn [ident List.length]. rewrite (Hlex _ [] [] eq_refl).
    apply tokenize_loop_nil. }
  assert (Htok3 : tokenize (ident ++ js "(3)")
                  = Ok [TName name; TLParen; TNumber 3; TRParen]).
  { unfold tokenize. rewrite length_app.
    cbn [ident List.length js]. rewrite Nat.add_comm. cbn [Nat.add].
    rewrite (Hlex _ (js "(3)") [] eq_refl).
    rewrite tokenize_loop_call_3. reflexivity. }
  assert (Hnorm3 : normalize (ident ++ js "(3)") = ident ++ js "(3)").
  { rewrite normalize_app, (normalize_alnum ident Hident). reflexivity. }
  split; [exact Hlex|]. split; [exact Htok1|]. split; [exact Htok3|].
  split; [exact Hstep|]. split; [exact Hrpn|]. split; [exact Heval|].
  split; [exact Hrun3|]. split; [|split; [|split; [|split]]].
  - unfold internalEvaluateExpression.
    rewrite (normalize_alnum ident Hident), Htok1. cbn [bind].
    unfold toRPN. cbn [toRPN_loop]. rewrite Hstep. cbn [bind toRPN_loop].
    cbn [stack output drain app bind]. unfold evalRPN.
    cbn [evalRPN_loop]. rewrite Heval. reflexivity.
  - unfold internalEvaluateExpression.
    rewrite Hnorm3, Htok3. cbn [bind]. rewrite Hrpn. cbn [bind].
    apply Hrun3.
  - intros str tokens Htok Hin.
    assert (Hthrows : forall rpn : list token,
               toRPN Math tokens = Ok rpn ->
               In (TName name) rpn
               /\ exists e : error, evalRPN Math deg rpn = Err e).
    { intros rpn Hok.
      pose proof (toRPN_keeps_name Math name tokens rpn Hc Hok Hin) as Hk.
      split; [exact Hk|].
      destruct (evalRPN_loop_stops Math deg (TName name) rpn
                  (fun st => ex_intro _ _ (Heval st)) Hk []) as [e He].
      exists e. unfold evalRPN. rewrite He. reflexivity. }
    split; [|split; [exact Hthrows|]].
    + intros e He. pose proof (tokenize_no_func _ _ Htok) as Hnf.
      destruct (toRPN_errors Math tokens e He) as [H|[H|[_ H]]]; auto.
      congruence.
    + unfold internalEvaluateExpression. rewrite Htok. cbn [bind].
      destruct (toRPN Math tokens) as [rpn|e] eqn:Hok; cbn [bind];
        [|reflexivity].
      destruct (Hthrows rpn eq_refl) as [_ [e ->]]. reflexivity.
  - vm_compute; reflexivity.
  - vm_compute; reflexivity.
Qed.

Lemma unresolved_name_rejected_by_evalRPN_witness :
  tokenize (js "foo" ++ js "(3)")
  = Ok [TName "foo"; TLParen; TNumber 3; TRParen]
  /\ internalEvaluateExpression StubMath true (js "foo" ++ js "(3)")
     = Err (UnknownFunction "foo").
Proof.
  pose proof (unresolved_name_rejected_by_evalRPN StubMath true
                102 (js "oo") eq_refl eq_refl eq_refl eq_refl) as H.
  cbv zeta in H.
  split; [exact (proj1 (proj2 (proj2 H)))|].
  exact (proj1 (proj2 (proj2 (proj2 (proj2 (proj2 (proj2 (proj2
           (proj2 H))))))))).
Defined.

(** ** Precedence and associativity (C5) *)

Section Grouping.

Variable Math : MathLib.
Variable deg : bool.

(** The value of an expression tree, every operation checked for a
    finite result as the evaluator does. *)
Fixpoint value (e : expr) : result float :=
  match e with
  | Num v => Ok v
  | Bin o l r =>
      a <- value l ;;
      b <- value r ;;
      let res := fn (OPS Math o) a b in
      if negb (Number_isFinite res) then Err MathError else Ok res
  end.

(** The check on the final value. *)
Definition finite_result (r : result float) : result float :=
  v <- r ;;
  if negb (Number_isFinite v) then Err ResultNotFinite else Ok v.

(** The operator table of the source agrees with the stated
    precedences and associativities. *)
Lemma OPS_table (o : binop) :
  prec (OPS Math o) = precedence o
  /\ is_R (assoc (OPS Math o)) = right_assoc o
  /\ is_L (assoc (OPS Math o)) = negb (right_assoc o).
Proof. destruct o; repeat split. Qed.

Lemma pops_left_operand (o c : binop) :
  pops Math o c = left_operand_ok o c.
Proof. destruct o, c; reflexivity. Qed.

Lemma pops_right_operand (o c : binop) :
  pops Math c o = negb (right_operand_ok o c).
Proof. destruct o, c; reflexivity. Qed.

Lemma left_operand_down (o c c' : binop) :
  left_operand_ok o c = true -> right_operand_ok c c' = true ->
  left_operand_ok o c' = true.
Proof. destruct o, c, c'; vm_compute; intros; congruence. Qed.

Lemma right_operand_down (o c c' : binop) :
  right_operand_ok o c = true -> left_operand_ok c c' = true ->
  right_operand_ok o c' = true.
Proof. destruct o, c, c'; vm_compute; intros; congruence. Qed.

(** Operators waiting on the stack after [infix e] is read: the right
    spine of [e], innermost first. *)
Fixpoint spine (e : expr) : list token :=
  match e with
  | Num _ => []
  | Bin o _ r => spine r ++ [TOp o]
  end.

(** Tokens already in the output at that point. *)
Fixpoint emitted (e : expr) : list token :=
  match e with
  | Num v => [TNumber v]
  | Bin _ l r => postorder l ++ emitted r
  end.

Fixpoint rightmost (e : expr) : float :=
  match e with
  | Num v => v
  | Bin _ _ r => rightmost r
  end.

Lemma postorder_split (e : expr) : postorder e = emitted e ++ spine e.
Proof.
  induction e as [v|o l IHl r IHr]; [reflexivity|].
  simpl. rewrite IHr at 1. rewrite <- !app_assoc. reflexivity.
Qed.

(** The operator [o] does not pop the top of the stack. *)
Definition stops (o : binop) (stk : list token) : Prop :=
  match stk with
  | TOp o2 :: _ => pops Math o o2 = false
  | _ => True
  end.

(** [stops] for every operator on the left spine of [e]. *)
Fixpoint settles (e : expr) (stk : list token) : Prop :=
  match e with
  | Num _ => True
  | Bin o l _ => stops o stk /\ settles l stk
  end.

Lemma pop_ops_stops (o : binop) (stk out : list token) :
  stops o stk -> pop_ops Math o stk out = {| output := out; stack := stk |}.
Proof.
  destruct stk as [|[] stk]; try reflexivity.
  simpl. intros ->. reflexivity.
Qed.

(** An operator that may take [e] as its left operand pops the whole
    right spine of [e]. *)
Lemma pop_ops_spine (o : binop) (e : expr) :
  grouped e = true -> operand_ok left_operand_ok o e = true ->
  forall stk out,
    pop_ops Math o (spine e ++ stk) out = pop_ops Math o stk (out ++ spine e).
Proof.
  induction e as [v|c l IHl r IHr]; intros Hg Hl stk out.
  - simpl. rewrite app_nil_r. reflexivity.
  - simpl in Hg, Hl.
    apply andb_prop in Hg as [Hg Hgr]. apply andb_prop in Hg as [Hg Hgl].
    apply andb_prop in Hg as [Hcl Hcr].
    cbn [spine]. rewrite <- app_assoc. rewrite IHr; auto.
    + cbn [app pop_ops]. rewrite pops_left_operand, Hl.
      rewrite <- app_assoc. reflexivity.
    + destruct r as [v|c' rl rr]; [reflexivity|].
      simpl in *. eapply left_operand_down; eauto.
Qed.

(** Every operator on the left spine of a right operand of [o] stays
    above [o] on the stack. *)
Lemma settles_right_operand (o : binop) (e : expr) (stk : list token) :
  grouped e = true -> operand_ok right_operand_ok o e = true ->
  settles e (TOp o :: stk).
Proof.
  induction e as [v|c l IHl r IHr]; intros Hg Hr; [exact I|].
  simpl in Hg, Hr.
  apply andb_prop in Hg as [Hg Hgr]. apply andb_prop in Hg as [Hg Hgl].
  apply andb_prop in Hg as [Hcl Hcr].
  split.
  - simpl. rewrite pops_right_operand, Hr. reflexivity.
  - apply IHl; auto.
    destruct l as [v|c' ll lr]; [reflexivity|].
    simpl in *. eapply right_operand_down; eauto.
Qed.

(** A [-] after a number is binary. *)
Lemma isUnary_after_number (o : binop) (v : float) :
  isUnary o (Some (TNumber v)) = false.
Proof. destruct o; reflexivity. Qed.

(** Reading the text of a grouped tree: its right spine is left on
    the stack and the rest of its postfix form is in the output. *)
Lemma toRPN_loop_infix (e : expr) :
  grouped e = true ->
  forall (rest : list token) (prev : option token) (s : rpn_state),
    settles e (stack s) ->
    toRPN_loop Math (infix e ++ rest) prev s =
    toRPN_loop Math rest (Some (TNumber (rightmost e)))
      {| output := output s ++ emitted e; stack := spine e ++ stack s |}.
Proof.
  induction e as [v|o l IHl r IHr]; intros Hg rest prev s Hs.
  - reflexivity.
  - simpl in Hg.
    apply andb_prop in Hg as [Hg Hgr]. apply andb_prop in Hg as [Hg Hgl].
    apply andb_prop in Hg as [Hol Hor].
    destruct Hs as [Hstop Hs].
    cbn [infix]. rewrite <- app_assoc. rewrite IHl by assumption.
    cbn [app toRPN_loop toRPN_step stack output].
    rewrite isUnary_after_number.
    rewrite pop_ops_spine by assumption.
    rewrite pop_ops_stops by assumption.
    cbn [bind stack output].
    rewrite IHr.
    + cbn [stack output emitted spine rightmost].
      rewrite (postorder_split l). rewrite <- !app_assoc. reflexivity.
    + assumption.
    + cbn [stack]. apply settles_right_operand; assumption.
Qed.

Lemma drain_spine_app (e : expr) :
  forall stk out, drain (spine e ++ stk) out = drain stk (out ++ spine e).
Proof.
  induction e as [v|o l IHl r IHr]; intros stk out.
  - simpl. rewrite app_nil_r. reflexivity.
  - simpl. rewrite <- app_assoc. rewrite IHr.
    simpl. rewrite <- app_assoc. reflexivity.
Qed.

Lemma drain_spine (e : expr) (out : list token) :
  drain (spine e) out = Ok (out ++ spine e).
Proof.
  rewrite <- (app_nil_r (spine e)) at 1. rewrite drain_spine_app.
  reflexivity.
Qed.

(** The shunting-yard conversion of a grouped tree's text is the
    tree's postfix form. *)
Lemma toRPN_infix (e : expr) :
  grouped e = true -> toRPN Math (infix e) = Ok (postorder e).
Proof.
  intros Hg. unfold toRPN.
  rewrite <- (app_nil_r (infix e)).
  rewrite toRPN_loop_infix; auto.
  - cbn [toRPN_loop bind stack output app]. rewrite app_nil_r.
    rewrite drain_spine. rewrite postorder_split. reflexivity.
  - cbn [stack]. clear Hg. induction e; simpl; auto.
Qed.

(** Evaluating a postfix form pushes the tree's value. *)
Lemma evalRPN_loop_postorder (e : expr) :
  forall (rest : list token) (st : list float),
    evalRPN_loop Math deg (postorder e ++ rest) st =
    bind (value e) (fun v => evalRPN_loop Math deg rest (v :: st)).
Proof.
  induction e as [v|o l IHl r IHr]; intros rest st.
  - reflexivity.
  - cbn [postorder value]. rewrite <- !app_assoc. rewrite IHl.
    destruct (value l) as [a|x]; cbn [bind]; [|reflexivity].
    rewrite IHr.
    destruct (value r) as [b|x]; cbn [bind]; [|reflexivity].
    cbn [app evalRPN_loop evalRPN_step].
    destruct (negb (Number_isFinite (fn (OPS Math o) a b))); reflexivity.
Qed.

Lemma evalRPN_postorder (e : expr) :
  evalRPN Math deg (postorder e) = finite_result (value e).
Proof.
  unfold evalRPN, finite_result.
  rewrite <- (app_nil_r (postorder e)), evalRPN_loop_postorder.
  destruct (value e); reflexivity.
Qed.

(** Every operator-separated sequence of literals has a grouped
    reading. *)
Lemma extend_grouped (e : expr) (o : binop) (v : float) :
  grouped e = true ->
  grouped (extend e o v) = true
  /\ infix (extend e o v) = infix e ++ [TOp o; TNumber v]
  /\ (forall c, operand_ok right_operand_ok c e = true ->
                right_operand_ok c o = true ->
                operand_ok right_operand_ok c (extend e o v) = true).
Proof.
  induction e as [w|c l IHl r IHr]; intros Hg.
  - repeat split. intros c _ H. exact H.
  - simpl in Hg.
    apply andb_prop in Hg as [Hg Hgr]. apply andb_prop in Hg as [Hg Hgl].
    apply andb_prop in Hg as [Hol Hor].
    destruct (IHr Hgr) as (IH1 & IH2 & IH3).
    cbn [extend]. destruct (right_operand_ok c o) eqn:Hco.
    + repeat split.
      * simpl. rewrite Hol, Hgl, IH1, (IH3 c Hor Hco). reflexivity.
      * simpl. rewrite IH2. rewrite <- app_assoc. reflexivity.
      * intros c' H _. exact H.
    + repeat split.
      * simpl. rewrite Hol, Hor, Hgl, Hgr.
        replace (left_operand_ok o c) with true; [reflexivity|].
        clear -Hco. destruct o, c; vm_compute in *; congruence.
      * intros c' _ H. exact H.
Qed.

Lemma read_grouped (rest : list (binop * float)) :
  forall e : expr,
    grouped e = true ->
    grouped (read e rest) = true
    /\ infix (read e rest) = infix e ++ flat rest.
Proof.
  induction rest as [|[o v] rest IH]; intros e Hg.
  - simpl. rewrite app_nil_r. auto.
  - destruct (extend_grouped e o v Hg) as (H1 & H2 & _).
    destruct (IH _ H1) as (H3 & H4).
    simpl. split; [assumption|].
    rewrite H4, H2, <- app_assoc. reflexivity.
Qed.

End Grouping.

(** *** Standard evaluation *)

Lemma value_standard (Math : MathLib) (e : expr) :
  value Math e
  = if operations_finite Math e then Ok (standard_value Math e)
    else Err MathError.
Proof.
  induction e as [v|o l IHl r IHr]; [reflexivity|].
  cbn [value operations_finite]. rewrite IHl.
  destruct (operations_finite Math l); cbn [bind andb]; [|reflexivity].
  rewrite IHr.
  destruct (operations_finite Math r); cbn [bind andb]; [|reflexivity].
  replace (fn (OPS Math o) (standard_value Math l) (standard_value Math r))
    with (standard_value Math (Bin o l r)) by (destruct o; reflexivity).
  unfold Number_isFinite.
  destruct (is_finite (standard_value Math (Bin o l r))); reflexivity.
Qed.

Lemma finite_result_standard (Math : MathLib) (e : expr) :
  finite_result (value Math e) = standard_result Math e.
Proof.
  unfold finite_result, standard_result. rewrite value_standard.
  destruct (operations_finite Math e); cbn [bind]; [|reflexivity].
  unfold Number_isFinite.
  destruct (is_finite (standard_value Math e)); reflexivity.
Qed.

(** *** Literals in the input string *)

Lemma digits_text_digits (u : Decimal.uint) :
  forallb isDigit (digits_text u) = true.
Proof. induction u; cbn [digits_text forallb]; auto. Qed.

Lemma digits_text_length (u : Decimal.uint) :
  List.length (digits_text u) = Decimal.nb_digits u.
Proof. induction u; cbn [digits_text List.length Decimal.nb_digits]; auto. Qed.

Lemma of_uint_acc_value (u : Decimal.uint) :
  forall p : positive,
    Zpos (Pos.of_uint_acc u p)
    = Zpos p * 10 ^ Z.of_nat (Decimal.nb_digits u) + Z.of_uint u.
Proof.
  unfold Z.of_uint.
  induction u as [|u IH|u IH|u IH|u IH|u IH|u IH|u IH|u IH|u IH|u IH];
    intros p;
    cbn [Pos.of_uint_acc Decimal.nb_digits Pos.of_uint Z.of_N];
    [change (10 ^ Z.of_nat 0) with 1; lia | ..];
    rewrite Nat2Z.inj_succ, Z.pow_succ_r by lia;
    rewrite IH; try rewrite (IH 1%positive); try rewrite (IH 2%positive);
    try rewrite (IH 3%positive); try rewrite (IH 4%positive);
    try rewrite (IH 5%positive); try rewrite (IH 6%positive);
    try rewrite (IH 7%positive); try rewrite (IH 8%positive);
    try rewrite (IH 9%positive);
    rewrite ?Pos2Z.inj_add, ?Pos2Z.inj_mul; ring.
Qed.

(** The code's digit accumulation computes the numeral's value. *)
Lemma digits_value_text (u : Decimal.uint) :
  forall acc : Z,
    digits_value acc (digits_text u)
    = acc * 10 ^ Z.of_nat (Decimal.nb_digits u) + Z.of_uint u.
Proof.
  induction u as [|u IH|u IH|u IH|u IH|u IH|u IH|u IH|u IH|u IH|u IH];
    intros acc;
    cbn [digits_text digits_value Decimal.nb_digits];
    [change (10 ^ Z.of_nat 0) with 1; change (Z.of_uint Decimal.Nil) with 0;
     lia | ..];
    match goal with
    | |- context [isDigit ?c] => change (isDigit c) with true
    end; cbv iota;
    rewrite IH, Nat2Z.inj_succ, Z.pow_succ_r by lia;
    unfold Z.of_uint; cbn [Pos.of_uint Z.of_N];
    rewrite ?of_uint_acc_value; unfold Z.of_uint; ring.
Qed.

Lemma digits_value_app (a b : jsstring) :
  forall acc : Z,
    digits_value acc (a ++ b) = digits_value (digits_value acc a) b.
Proof.
  induction a as [|c a IH]; intros acc; [reflexivity|].
  cbn [app digits_value]. destruct (isDigit c); apply IH.
Qed.

Lemma digit_not_dot (c : char) : isDigit c = true -> (c =? dot) = false.
Proof.
  intros H. apply isDigit_range in H. apply Z.eqb_neq. unfold dot. lia.
Qed.

Lemma frac_digits_after_dot (s : jsstring) :
  forallb isDigit s = true ->
  frac_digits true s = Z.of_nat (List.length s).
Proof.
  induction s as [|c s IH]; intros H; [reflexivity|].
  simpl in H. apply andb_prop in H as [Hc Hs].
  cbn [frac_digits List.length]. rewrite (digit_not_dot c Hc), Hc.
  cbn [andb]. rewrite (IH Hs). lia.
Qed.

Lemma frac_digits_before_dot (a b : jsstring) :
  forallb isDigit a = true ->
  frac_digits false (a ++ b) = frac_digits false b.
Proof.
  induction a as [|c a IH]; intros H; [reflexivity|].
  simpl in H. apply andb_prop in H as [Hc Ha].
  cbn [app frac_digits]. rewrite (digit_not_dot c Hc). cbn [andb].
  apply (IH Ha).
Qed.

(** On a literal the code reads off the numerator and the scale. *)
Lemma parseFloat_literal (l : literal) :
  parseFloat (literal_text l) = decimal_to_float (numerator l) (scale l).
Proof.
  unfold parseFloat, literal_text, numerator, scale.
  destruct l as [w [f|]]; cbn [whole fraction].
  - f_equal.
    + rewrite digits_value_app. cbn [digits_value].
      change (isDigit 46) with false. cbv iota.
      rewrite !digits_value_text. ring.
    + rewrite frac_digits_before_dot by apply digits_text_digits.
      cbn [frac_digits]. change (46 =? dot) with true. cbv iota.
      rewrite frac_digits_after_dot by apply digits_text_digits.
      rewrite digits_text_length. reflexivity.
  - rewrite app_nil_r. f_equal.
    + rewrite digits_value_text. change (10 ^ 0) with 1.
      change (10 ^ Z.of_nat (Decimal.nb_digits w)) with
        (10 ^ Z.of_nat (Decimal.nb_digits w)). ring.
    + rewrite <- (app_nil_r (digits_text w)).
      rewrite frac_digits_before_dot by apply digits_text_digits.
      reflexivity.
Qed.

(** The integers [a], [a + 1], ..., [a + n - 1]. *)
Fixpoint count_from (n : nat) (a : Z) : list Z :=
  match n with
  | O => []
  | S n' => a :: count_from n' (a + 1)
  end.

Lemma count_from_spec (n : nat) :
  forall a z : Z, a <= z < a + Z.of_nat n -> In z (count_from n a).
Proof.
  induction n as [|n IH]; intros a z Hz; [lia|].
  cbn [count_from]. destruct (Z.eq_dec a z) as [->|Hne]; [left; reflexivity|].
  right. apply IH. lia.
Qed.

(** The code's conversion against the division of doubles, on every
    numerator below 10000 and every scale up to 4. *)
Lemma decimal_to_float_table :
  forallb (fun k =>
    forallb (fun D =>
      PrimFloat.Leibniz.eqb (decimal_to_float D k)
        (float_of_Z D / float_of_Z (10 ^ k))%float)
      (count_from (Z.to_nat 10000) 0))
    (count_from 5 0) = true.
Proof. vm_compute. reflexivity. Qed.

Lemma numerator_nonneg (l : literal) : 0 <= numerator l.
Proof.
  unfold numerator, scale, Z.of_uint.
  destruct l as [w [f|]]; cbn [whole fraction].
  - pose proof (N2Z.is_nonneg (Pos.of_uint w)).
    pose proof (N2Z.is_nonneg (Pos.of_uint f)).
    assert (0 <= 10 ^ Z.of_nat (Decimal.nb_digits f)) by (apply Z.pow_nonneg; lia).
    nia.
  - pose proof (N2Z.is_nonneg (Pos.of_uint w)). lia.
Qed.

Lemma scale_nonneg (l : literal) : 0 <= scale l.
Proof. unfold scale. destruct (fraction l); lia. Qed.

Lemma parseFloat_short (l : literal) :
  short l = true -> parseFloat (literal_text l) = literal_value l.
Proof.
  unfold short. intros H. apply andb_prop in H as [HD Hk].
  apply Z.ltb_lt in HD. apply Z.leb_le in Hk.
  rewrite parseFloat_literal. unfold literal_value.
  pose proof (numerator_nonneg l) as HD0. pose proof (scale_nonneg l) as Hk0.
  pose proof decimal_to_float_table as T. rewrite forallb_forall in T.
  assert (Hin : In (scale l) (count_from 5 0))
    by (apply count_from_spec; lia).
  specialize (T _ Hin). rewrite forallb_forall in T.
  assert (Hin' : In (numerator l) (count_from (Z.to_nat 10000) 0))
    by (apply count_from_spec; lia).
  apply FloatAxioms.Leibniz.eqb_spec, (T _ Hin').
Qed.

(** What follows a literal: the end of the input, or a code unit that
    is neither a digit nor a point. *)
Definition ends_number (rest : jsstring) : bool :=
  match rest with
  | [] => true
  | c :: _ => negb (isDigit c || (c =? dot))
  end.

Lemma literal_text_chars (l : literal) :
  forallb (fun c => isDigit c || (c =? dot)) (literal_text l) = true.
Proof.
  assert (H : forall u, forallb (fun c => isDigit c || (c =? dot))
                          (digits_text u) = true).
  { intros u. pose proof (digits_text_digits u) as Hu.
    induction (digits_text u) as [|c r IH]; [reflexivity|].
    simpl in Hu. apply andb_prop in Hu as [Hc Hr].
    cbn [forallb]. rewrite Hc, (IH Hr). reflexivity. }
  unfold literal_text. rewrite forallb_app, H.
  destruct (fraction l) as [f|]; [|reflexivity].
  cbn [forallb]. rewrite H. reflexivity.
Qed.

Lemma count_dots_digits (s : jsstring) :
  forallb isDigit s = true -> count_dots s = 0%nat.
Proof.
  unfold count_dots. induction s as [|c s IH]; intros H; [reflexivity|].
  simpl in H. apply andb_prop in H as [Hc Hs].
  cbn [filter]. rewrite (digit_not_dot c Hc). apply (IH Hs).
Qed.

Lemma count_dots_app (a b : jsstring) :
  count_dots (a ++ b) = (count_dots a + count_dots b)%nat.
Proof. unfold count_dots. rewrite filter_app, length_app. reflexivity. Qed.

Lemma literal_text_dots (l : literal) :
  (1 <? count_dots (literal_text l))%nat = false.
Proof.
  apply Nat.ltb_ge. unfold literal_text. rewrite count_dots_app.
  rewrite (count_dots_digits _ (digits_text_digits (whole l))).
  destruct (fraction l) as [f|]; [|cbn; lia].
  change (count_dots (46 :: digits_text f))
    with (S (count_dots (digits_text f))).
  rewrite (count_dots_digits _ (digits_text_digits f)). lia.
Qed.

(** A literal starts as the tokenizer's number branch requires. *)
Lemma literal_text_head (l : literal) :
  well_written l = true ->
  exists (c : char) (run : jsstring),
    literal_text l = c :: run
    /\ isWhitespace c = false
    /\ (isDigit c
        || ((c =? dot)
            && match run with d :: _ => isDigit d | [] => false end)) = true.
Proof.
  unfold well_written, literal_text.
  destruct l as [w f]; cbn [whole fraction].
  destruct w; cbn [digits_text app];
    try (intros _; eexists; eexists; split; [reflexivity|];
         split; vm_compute; reflexivity).
  destruct f as [f|]; [|discriminate].
  destruct f; try discriminate; cbn [digits_text];
    intros _; eexists; eexists; (split; [reflexivity|]);
    split; vm_compute; reflexivity.
Qed.

(** Wherever the tokenizer reaches a literal, it reads all of it and
    emits one number token, whose value is [parseFloat] of the
    literal. *)
Lemma tokenize_loop_literal (fuel : nat) (l : literal)
  (rest : jsstring) (tokens : list token) :
  well_written l = true -> ends_number rest = true ->
  tokenize_loop (S fuel) (literal_text l ++ rest) tokens
  = tokenize_loop fuel rest
      (tokens ++ [TNumber (parseFloat (literal_text l))]).
Proof.
  intros Hl Hrest.
  pose proof (literal_text_chars l) as Hchars.
  pose proof (literal_text_dots l) as Hdots.
  destruct (literal_text_head l Hl) as (c & run & Htext & Hw & Hnum).
  rewrite Htext in *. simpl in Hchars.
  apply andb_prop in Hchars as [_ Hrun].
  cbn [app tokenize_loop]. rewrite Hw.
  replace (match run ++ rest with d :: _ => isDigit d | [] => false end)
    with (match run with d :: _ => isDigit d | [] => false end
          || (match run with [] => true | _ => false end
              && match rest with d :: _ => isDigit d | [] => false end)).
  2:{ destruct run as [|d run]; [|cbn [app]; apply orb_false_r].
      reflexivity. }
  assert (Hnum' :
    (isDigit c
     || ((c =? dot)
         && (match run with d :: _ => isDigit d | [] => false end
             || (match run with [] => true | _ => false end
                 && match rest with d :: _ => isDigit d | [] => false end))))
    = true).
  { destruct (isDigit c); [reflexivity|]. cbn [orb] in *.
    apply andb_prop in Hnum as [-> ->]. reflexivity. }
  rewrite Hnum'.
  rewrite (span_exact (fun c => isDigit c || (c =? dot)) run rest Hrun Hrest).
  rewrite Hdots. reflexivity.
Qed.

Lemma tokenize_loop_op (fuel : nat) (o : binop) (rest : jsstring)
  (tokens : list token) :
  tokenize_loop (S fuel) (op_char o :: rest) tokens
  = tokenize_loop fuel rest (tokens ++ [TOp o]).
Proof. destruct o; reflexivity. Qed.

(** The literals of a written expression as they reach the parser. *)
Definition numbers (leaf : literal -> float) (rest : list (binop * literal))
  : list (binop * float) :=
  map (fun p => (fst p, leaf (snd p))) rest.

Definition operands_text (rest : list (binop * literal)) : jsstring :=
  flat_map (fun p => op_char (fst p) :: literal_text (snd p)) rest.

Lemma operands_text_ends_number (rest : list (binop * literal)) :
  ends_number (operands_text rest) = true.
Proof. destruct rest as [|[[] l] rest]; reflexivity. Qed.

Lemma literal_text_length (l : literal) :
  well_written l = true -> (1 <= List.length (literal_text l))%nat.
Proof.
  intros Hl. destruct (literal_text_head l Hl) as (c & run & -> & _).
  cbn [List.length]. lia.
Qed.

Lemma tokenize_loop_operands (rest : list (binop * literal)) :
  forallb (fun p => well_written (snd p)) rest = true ->
  forall (fuel : nat) (tokens : list token),
    (List.length (operands_text rest) <= fuel)%nat ->
    tokenize_loop fuel (operands_text rest) tokens
    = Ok (tokens ++ flat (numbers (fun l => parseFloat (literal_text l)) rest)).
Proof.
  induction rest as [|[o l] rest IH]; intros Hall fuel tokens Hfuel.
  - cbn. rewrite app_nil_r. apply tokenize_loop_nil.
  - simpl in Hall. apply andb_prop in Hall as [Hl Hall].
    pose proof (literal_text_length l Hl) as Hlen.
    change (operands_text ((o, l) :: rest))
      with (op_char o :: (literal_text l ++ operands_text rest)) in *.
    cbn [List.length] in Hfuel. rewrite length_app in Hfuel.
    destruct fuel as [|[|fuel]]; [lia|lia|].
    rewrite tokenize_loop_op.
    rewrite tokenize_loop_literal
      by (try assumption; apply operands_text_ends_number).
    rewrite (IH Hall) by lia.
    rewrite <- !app_assoc. reflexivity.
Qed.

Lemma tokenize_written (first : literal) (rest : list (binop * literal)) :
  well_written first = true ->
  forallb (fun p => well_written (snd p)) rest = true ->
  tokenize (written first rest)
  = Ok (TNumber (parseFloat (literal_text first))
          :: flat (numbers (fun l => parseFloat (literal_text l)) rest)).
Proof.
  intros Hfirst Hall. unfold tokenize, written.
  fold (operands_text rest). rewrite length_app.
  pose proof (literal_text_length first Hfirst) as Hlen.
  destruct (List.length (literal_text first)) as [|n]; [lia|].
  cbn [Nat.add].
  rewrite tokenize_loop_literal
    by (try assumption; apply operands_text_ends_number).
  rewrite (tokenize_loop_operands rest Hall) by lia.
  reflexivity.
Qed.

Lemma normalize_printable (s : jsstring) :
  forallb (fun c => (33 <=? c) && (c <=? 126)) s = true -> normalize s = s.
Proof.
  unfold normalize. induction s as [|c s IH]; intros H; [reflexivity|].
  simpl in H. apply andb_prop in H as [Hc Hs].
  apply andb_prop in Hc as [H1 H2]. apply Z.leb_le in H1, H2.
  cbn [map filter].
  destruct (Z.eqb_spec c 247); [lia|].
  destruct (Z.eqb_spec c 215); [lia|].
  destruct (Z.eqb_spec c 8722); [lia|].
  rewrite isWhitespace_mid by lia. cbn [negb]. rewrite IH by assumption.
  reflexivity.
Qed.

Lemma literal_text_printable (l : literal) :
  forallb (fun c => (33 <=? c) && (c <=? 126)) (literal_text l) = true.
Proof.
  pose proof (literal_text_chars l) as H.
  induction (literal_text l) as [|c r IH]; [reflexivity|].
  simpl in H. apply andb_prop in H as [Hc Hr].
  cbn [forallb]. rewrite (IH Hr), andb_true_r.
  apply orb_prop in Hc as [Hc|Hc].
  - apply isDigit_range in Hc. apply andb_true_intro.
    split; apply Z.leb_le; lia.
  - apply Z.eqb_eq in Hc. subst c. reflexivity.
Qed.

Lemma normalize_written (first : literal) (rest : list (binop * literal)) :
  normalize (written first rest) = written first rest.
Proof.
  apply normalize_printable. unfold written.
  rewrite forallb_app, literal_text_printable. cbn [andb].
  induction rest as [|[o l] rest IH]; [reflexivity|].
  cbn [flat_map fst snd]. cbn [app forallb].
  rewrite forallb_app, literal_text_printable, IH.
  destruct o; reflexivity.
Qed.

(** The whole pipeline on a written expression, for any reading of
    the literals that agrees with [parseFloat]. *)
Lemma pipeline_on_written (Math : MathLib) (deg : bool)
  (first : literal) (rest : list (binop * literal)) :
  well_written first = true ->
  forallb (fun p => well_written (snd p)) rest = true ->
  let leaf := fun l => parseFloat (literal_text l) in
  let e := read (Num (leaf first)) (numbers leaf rest) in
  grouped e = true
  /\ tokenize (written first rest) = Ok (infix e)
  /\ bind (tokenize (written first rest)) (toRPN Math) = Ok (postorder e)
  /\ internalEvaluateExpression Math deg (written first rest)
     = standard_result Math e
  /\ (forall str : jsstring,
      normalize str = written first rest ->
      internalEvaluateExpression Math deg str = standard_result Math e).
Proof.
  intros Hfirst Hall leaf e.
  destruct (read_grouped (numbers leaf rest) (Num (leaf first)) eq_refl)
    as [Hg Hi].
  fold e in Hg, Hi. cbn [infix app] in Hi.
  assert (Htok : tokenize (written first rest) = Ok (infix e)).
  { rewrite Hi. apply tokenize_written; assumption. }
  assert (Hrun : forall str : jsstring,
             normalize str = written first rest ->
             internalEvaluateExpression Math deg str = standard_result Math e).
  { intros str Hn. unfold internalEvaluateExpression.
    rewrite Hn, Htok. cbn [bind].
    rewrite (toRPN_infix Math e Hg). cbn [bind].
    rewrite evalRPN_postorder. apply finite_result_standard. }
  split; [exact Hg|]. split; [exact Htok|]. split; [|split].
  - rewrite Htok. cbn [bind]. apply toRPN_infix, Hg.
  - apply Hrun, normalize_written.
  - exact Hrun.
Qed.

Lemma numbers_short (rest : list (binop * literal)) :
  forallb short (map snd rest) = true ->
  numbers (fun l => parseFloat (literal_text l)) rest
  = numbers literal_value rest.
Proof.
  induction rest as [|[o l] rest IH]; intros H; [reflexivity|].
  simpl in H. apply andb_prop in H as [Hl Hrest].
  cbn [numbers map fst snd]. rewrite (parseFloat_short l Hl).
  f_equal. apply (IH Hrest).
Qed.

(** C5. For every arithmetic expression written as numeric literals
    separated by the binary operators [+ - * / ^], the pipeline
    [tokenize], [toRPN], [evalRPN] returns the standard value of the
    expression: the literals are read as decimal numbers, the text is
    grouped by the precedences 2, 2, 3, 3, 4 of [+ - * /  ^] with [^]
    right-associative and the others left-associative (the tree
    [read ...], which is grouped and whose text is the input), and
    the tree is evaluated with the five arithmetic operations on
    doubles, failing when an operation or the result is not finite.
    Any grouped tree with the same text has the same value, and
    white space and the signs U+00F7, U+00D7, U+2212 for [/ * -]
    change nothing.  In particular ["2+3*4"] gives [14], ["10-2-3"]
    gives [5], ["7/2"] gives [3.5], ["1.5*2"] gives [3], and
    ["2^3^2"] is evaluated as [2^(3^2)], which is [512] once the
    host's [Math.pow] returns [9] for [(3, 2)] and [512] for
    [(2, 9)]. *)
Theorem pipeline_respects_precedence (Math : MathLib) (deg : bool) :
  (forall (first : literal) (rest : list (binop * literal)),
      well_written first = true ->
      forallb (fun p => well_written (snd p)) rest = true ->
      forallb short (first :: map snd rest) = true ->
      let e := read (Num (literal_value first)) (numbers literal_value rest) in
      grouped e = true
      /\ tokenize (written first rest) = Ok (infix e)
      /\ bind (tokenize (written first rest)) (toRPN Math)
         = Ok (postorder e)
      /\ internalEvaluateExpression Math deg (written first rest)
         = standard_result Math e
      /\ (forall str : jsstring,
            normalize str = written first rest ->
            internalEvaluateExpression Math deg str
            = standard_result Math e))
  /\ (forall (first : literal) (rest : list (binop * literal)),
      well_written first = true ->
      forallb (fun p => well_written (snd p)) rest = true ->
      let leaf := fun l => decimal_to_float (numerator l) (scale l) in
      let e := read (Num (leaf first)) (numbers leaf rest) in
      grouped e = true
      /\ tokenize (written first rest) = Ok (infix e)
      /\ bind (tokenize (written first rest)) (toRPN Math)
         = Ok (postorder e)
      /\ internalEvaluateExpression Math deg (written first rest)
         = standard_result Math e
      /\ (forall str : jsstring,
            normalize str = written first rest ->
            internalEvaluateExpression Math deg str
            = standard_result Math e))
  /\ (forall l : literal,
      parseFloat (literal_text l) = decimal_to_float (numerator l) (scale l)
      /\ (short l = true -> parseFloat (literal_text l) = literal_value l))
  /\ (forall e e' : expr,
      grouped e = true -> grouped e' = true -> infix e = infix e' ->
      standard_result Math e = standard_result Math e')
  /\ (forall (first : float) (rest : list (binop * float)),
      let tokens := TNumber first :: flat rest in
      let e := read (Num first) rest in
      grouped e = true
      /\ infix e = tokens
      /\ toRPN Math tokens = Ok (postorder e)
      /\ bind (toRPN Math tokens) (evalRPN Math deg)
         = finite_result (value Math e)
      /\ bind (toRPN Math tokens) (evalRPN Math deg)
         = standard_result Math e
      /\ (forall e' : expr,
            grouped e' = true -> infix e' = tokens ->
            finite_result (value Math e')
            = bind (toRPN Math tokens) (evalRPN Math deg)))
  /\ (forall o : binop,
      prec (OPS Math o) = precedence o
      /\ is_R (assoc (OPS Math o)) = right_assoc o
      /\ is_L (assoc (OPS Math o)) = negb (right_assoc o)
      /\ (forall a b : float, fn (OPS Math o) a b = arith Math o a b))
  /\ internalEvaluateExpression Math deg (js "2+3*4") = Ok 14%float
  /\ internalEvaluateExpression Math deg (js "10-2-3") = Ok 5%float
  /\ internalEvaluateExpression Math deg (js "7/2") = Ok 3.5%float
  /\ internalEvaluateExpression Math deg (js "1.5*2") = Ok 3%float
  /\ internalEvaluateExpression Math deg (js "1/0") = Err MathError
  /\ bind (tokenize (js "2^3^2")) (toRPN Math)
     = Ok (postorder (Bin Pow (Num 2) (Bin Pow (Num 3) (Num 2))))
  /\ (Math_pow Math 3 2 = 9%float ->
      Math_pow Math 2 9 = 512%float ->
      internalEvaluateExpression Math deg (js "2^3^2") = Ok 512%float).
Proof.
  assert (Hsame : forall e e' : expr,
             grouped e = true -> grouped e' = true -> infix e = infix e' ->
             standard_result Math e = standard_result Math e').
  { intros e e' Hg Hg' Hi.
    pose proof (toRPN_infix Math e Hg) as H.
    rewrite Hi, (toRPN_infix Math e' Hg') in H.
    injection H as H.
    rewrite <- !finite_result_standard, <- !(evalRPN_postorder Math deg).
    rewrite H. reflexivity. }
  split; [|split; [|split; [|split; [|split; [|split;
    [|split; [|split; [|split; [|split; [|split; [|split]]]]]]]]]]].
  - intros first rest Hfirst Hall Hshort e.
    simpl in Hshort. apply andb_prop in Hshort as [Hs Hshort].
    pose proof (pipeline_on_written Math deg first rest Hfirst Hall) as H.
    cbv beta zeta in H.
    rewrite (parseFloat_short first Hs), (numbers_short rest Hshort) in H.
    exact H.
  - intros first rest Hfirst Hall leaf e.
    pose proof (pipeline_on_written Math deg first rest Hfirst Hall) as H.
    cbv beta zeta in H.
    replace (numbers (fun l => parseFloat (literal_text l)) rest)
      with (numbers leaf rest) in H.
    2:{ unfold numbers. apply map_ext. intros [o l]. cbn [fst snd].
        unfold leaf. rewrite parseFloat_literal. reflexivity. }
    rewrite parseFloat_literal in H. exact H.
  - intros l. split; [apply parseFloat_literal|apply parseFloat_short].
  - exact Hsame.
  - intros first rest tokens e.
    destruct (read_grouped rest (Num first) eq_refl) as [Hg Hi].
    change (infix (Num first) ++ flat rest) with tokens in Hi.
    fold e in Hg, Hi.
    assert (Hpipe : forall e', grouped e' = true -> infix e' = tokens ->
              bind (toRPN Math tokens) (evalRPN Math deg)
              = finite_result (value Math e')).
    { intros e' Hg' Hi'. rewrite <- Hi', toRPN_infix by assumption.
      cbn [bind]. apply evalRPN_postorder. }
    repeat split; auto.
    + rewrite <- Hi. apply toRPN_infix; assumption.
    + rewrite <- finite_result_standard. auto.
    + intros e' Hg' Hi'. symmetry. auto.
  - intros o. destruct o; repeat split.
  - vm_compute; reflexivity.
  - vm_compute; reflexivity.
  - vm_compute; reflexivity.
  - vm_compute; reflexivity.
  - vm_compute; reflexivity.
  - vm_compute; reflexivity.
  - intros H32 H29. unfold internalEvaluateExpression.
    change (tokenize (normalize (js "2^3^2")))
      with (@Ok (list token)
              (infix (Bin Pow (Num 2) (Bin Pow (Num 3) (Num 2))))).
    cbn [bind]. rewrite toRPN_infix by reflexivity.
    cbn [bind]. rewrite evalRPN_postorder.
    cbn [value bind OPS fn]. rewrite H32.
    change (negb (Number_isFinite 9)) with false. cbn [bind].
    rewrite H29. reflexivity.
Qed.

Lemma pipeline_respects_precedence_witness :
  internalEvaluateExpression StubMath true (js "2^3^2") = Ok 512%float
  /\ internalEvaluateExpression StubMath true (js "1.5+6/0.25*2")
     = Ok 49.5%float
  /\ internalEvaluateExpression StubMath true (js " 1.5 + 6/0.25 * 2")
     = Ok 49.5%float.
Proof.
  pose proof (pipeline_respects_precedence StubMath true) as H.
  pose proof
    (proj1 H
       {| whole := Decimal.D1 Decimal.Nil;
          fraction := Some (Decimal.D5 Decimal.Nil) |}
       [(Add, {| whole := Decimal.D6 Decimal.Nil; fraction := None |});
        (Div, {| whole := Decimal.D0 Decimal.Nil;
                 fraction := Some (Decimal.D2 (Decimal.D5 Decimal.Nil)) |});
        (Mul, {| whole := Decimal.D2 Decimal.Nil; fraction := None |})]
       eq_refl eq_refl eq_refl) as H1.
  cbv zeta in H1.
  split; [|split].
  - apply (proj2 (proj2 (proj2 (proj2 (proj2 (proj2 (proj2 (proj2
             (proj2 (proj2 (proj2 (proj2 H)))))))))))).
    + vm_compute; reflexivity.
    + vm_compute; reflexivity.
  - exact (proj1 (proj2 (proj2 (proj2 H1)))).
  - exact (proj2 (proj2 (proj2 (proj2 H1)))
             (js " 1.5 + 6/0.25 * 2") eq_refl).
Defined.

(** ** Termination of the model's bounded loops *)

Lemma span_rest_length (p : char -> bool) (s : jsstring) :
  (List.length (snd (span p s)) <= List.length s)%nat.
Proof.
  induction s as [|c s IH]; simpl; [lia|].
  destruct (p c); simpl; [|lia].
  destruct (span p s) as [run rest]. simpl in *. lia.
Qed.

Lemma tokenize_loop_fuel (fuel : nat) :
  forall (s : jsstring) (tokens : list token),
    (List.length s <= fuel)%nat ->
    tokenize_loop fuel s tokens <> Err OutOfFuel.
Proof.
  induction fuel as [|fuel IH]; intros s tokens Hlen.
  - destruct s; [discriminate | simpl in Hlen; lia].
  - destruct s as [|ch rest]; [discriminate|].
    simpl in Hlen. cbn [tokenize_loop].
    assert (Hrest : (List.length rest <= fuel)%nat) by lia.
    assert (Hspan : forall p, (List.length (snd (span p rest)) <= fuel)%nat).
    { intros p. pose proof (span_rest_length p rest). lia. }
    destruct (isWhitespace ch); [apply IH; assumption|].
    destruct (isDigit ch
              || (ch =? dot)
                 && match rest with c :: _ => isDigit c | [] => false end).
    { specialize (Hspan (fun c => isDigit c || (c =? dot))).
      destruct (span (fun c => isDigit c || (c =? dot)) rest) as [run rest'].
      destruct (1 <? count_dots (ch :: run))%nat; [discriminate|].
      apply IH; assumption. }
    destruct (isAlpha ch).
    { specialize (Hspan (fun c => isAlpha c || isDigit c)).
      destruct (span (fun c => isAlpha c || isDigit c) rest) as [run rest'].
      apply IH; assumption. }
    repeat match goal with
           | |- (if ?b then _ else _) <> _ =>
               destruct b; [apply IH; assumption|]
           end.
    destruct (op_of_char ch); [apply IH; assumption|].
    repeat match goal with
           | |- (if ?b then _ else _) <> _ =>
               destruct b; [apply IH; assumption|]
           end.
    discriminate.
Qed.

(** The tokenizer's loop always ends within its bound: every
    iteration consumes at least one code unit. *)
Lemma tokenize_terminates (s : jsstring) : tokenize s <> Err OutOfFuel.
Proof.
  apply tokenize_loop_fuel. lia.
Qed.

(** ** Factorial (C7) *)

(** The product [2 * 3 * ... * k] in floating point, multiplied in
    increasing order; [1] for [k < 2]. *)
Definition product_to (k : Z) : float :=
  fold_left (fun r i => (r * float_of_Z (Z.of_nat i))%float)
    (seq 2 (Z.to_nat k - 1)) 1%float.

Definition result_float_eqb (x y : result float) : bool :=
  match x, y with
  | Ok a, Ok b => PrimFloat.Leibniz.eqb a b
  | _, _ => false
  end.

Lemma result_float_eqb_eq (x y : result float) :
  result_float_eqb x y = true -> x = y /\ is_ok x = true.
Proof.
  destruct x as [a|], y as [b|]; simpl; try discriminate.
  intros H. apply FloatAxioms.Leibniz.eqb_spec in H. subst. auto.
Qed.

(** The integers from 0 to 170. *)
Definition small_ints : list Z := map Z.of_nat (seq 0 171).

Lemma small_ints_spec (k : Z) : In k small_ints <-> (0 <= k <= 170)%Z.
Proof.
  unfold small_ints. rewrite in_map_iff. split.
  - intros (n & <- & Hn). apply in_seq in Hn. lia.
  - intros Hk. exists (Z.to_nat k). split; [lia|]. apply in_seq. lia.
Qed.

(** On each integer from 0 to 170 the loop ends and returns the
    product. *)
Lemma factorial_table :
  forallb (fun k => result_float_eqb (factorial (float_of_Z k))
                      (Ok (product_to k))) small_ints = true.
Proof. vm_compute. reflexivity. Qed.

Lemma factorial_small_int (k : Z) :
  (0 <= k <= 170)%Z -> factorial (float_of_Z k) = Ok (product_to k).
Proof.
  intros Hk. apply small_ints_spec in Hk.
  pose proof factorial_table as H. rewrite forallb_forall in H.
  apply (result_float_eqb_eq _ _ (H k Hk)).
Qed.

(** The conditions under which [factorial] does not throw. *)
Definition factorial_guards (n : float) : bool :=
  negb (negb (Number_isFinite n) || (n <? 0)%float)
  && (Math_floor n =? n)%float
  && negb (170 <? n)%float.

Lemma factorial_unfold (n : float) :
  factorial n =
  if factorial_guards n then
    match factorial_loop factorial_fuel 2 n 1 with
    | Some r => Ok r
    | None => Err OutOfFuel
    end
  else if negb (Number_isFinite n) || (n <? 0)%float then Err InvalidFactorial
  else if negb (Math_floor n =? n)%float then Err FactorialRequiresInteger
  else Err ResultTooLarge.
Proof.
  unfold factorial, factorial_guards.
  destruct (negb (Number_isFinite n) || (n <? 0)%float); [reflexivity|].
  destruct (Math_floor n =? n)%float; [|reflexivity].
  destruct (170 <? n)%float; reflexivity.
Qed.

(** *** The floats that pass the guards are the integers 0..170 *)

Lemma Prim2SF_not_finite (a : float) :
  match Prim2SF a with
  | S754_nan | S754_infinity _ => is_finite a = false
  | _ => True
  end.
Proof.
  unfold Prim2SF, is_finite.
  destruct (is_nan a); [reflexivity|].
  destruct (is_zero a); [exact I|].
  destruct (is_infinity a); [reflexivity|].
  destruct (Z.frexp a) as [r ex].
  destruct (shr_fexp FloatOps.prec emax (Uint63.to_Z (normfr_mantissa r))
              (Z.sub ex FloatOps.prec) loc_Exact) as [shr e'].
  destruct (shr_m shr); exact I.
Qed.

Lemma digits2_pos_bound (m : positive) :
  (Zpos m < 2 ^ Zpos (digits2_pos m))%Z.
Proof.
  induction m as [m IH|m IH|]; cbn [digits2_pos].
  - rewrite Pos2Z.inj_succ, Z.pow_succ_r by lia. lia.
  - rewrite Pos2Z.inj_succ, Z.pow_succ_r by lia. lia.
  - reflexivity.
Qed.

(** The mantissa of a valid binary64 number is below [2^53]. *)
Lemma valid_mantissa_bound (s : bool) (m : positive) (e : Z) :
  valid_binary (S754_finite s m e) = true -> (Zpos m < 2 ^ 53)%Z.
Proof.
  unfold SpecFloat.valid_binary, bounded, canonical_mantissa, fexp.
  intros H. apply andb_prop in H as [H _]. apply Z.eqb_eq in H.
  change (SpecFloat.emin FloatOps.prec emax) with (-1074)%Z in H.
  change FloatOps.prec with 53%Z in H.
  pose proof (digits2_pos_bound m) as Hm.
  assert (Hd : (Zpos (digits2_pos m) <= 53)%Z) by lia.
  eapply Z.lt_le_trans; [exact Hm|].
  apply Z.pow_le_mono_r; lia.
Qed.

(** Each integer [q] from 0 to 170 is a float whose mantissa is a
    multiple of [2^-e]. *)
Definition integral_repr (q : Z) : bool :=
  match Prim2SF (float_of_Z q) with
  | S754_zero _ => true
  | S754_finite false mq eq =>
      (eq <? 0)%Z
      && (Z.shiftl (Z.shiftr (Zpos mq) (- eq)) (- eq) =? Zpos mq)%Z
  | _ => false
  end.

Lemma integral_repr_table : forallb integral_repr small_ints = true.
Proof. vm_compute. reflexivity. Qed.

(** A valid float [q * 2^-e * 2^e] with [q] from 1 to 170 is the
    float of the integer [q]. *)
Definition exponents : list Z := [-52; -51; -50; -49; -48; -47; -46; -45]%Z.

Definition integer_float (eq : Z * Z) : bool :=
  let (e, q) := eq in
  let x := S754_finite false (Z.to_pos (q * 2 ^ (- e))) e in
  implb (SpecFloat.valid_binary FloatOps.prec emax x)
        (PrimFloat.Leibniz.eqb (SF2Prim x) (float_of_Z q)).

Lemma integer_float_table :
  forallb integer_float (list_prod exponents small_ints) = true.
Proof. vm_compute. reflexivity. Qed.

Lemma factorial_domain (a : float) :
  factorial_guards a = true ->
  exists k : Z,
    (0 <= k <= 170)%Z /\ (a = float_of_Z k \/ (k = 0%Z /\ a = neg_zero)).
Proof.
  unfold factorial_guards. intros H.
  apply andb_prop in H as [H Hmax]. apply andb_prop in H as [H Hfloor].
  apply negb_true_iff in H. apply orb_false_elim in H as [Hfin Hneg].
  apply negb_false_iff in Hfin. apply negb_true_iff in Hmax.
  unfold Number_isFinite in Hfin.
  rewrite ltb_spec in Hneg, Hmax.
  pose proof (Prim2SF_valid a) as Hvalid.
  pose proof (SF2Prim_Prim2SF a) as Hback.
  pose proof (Prim2SF_not_finite a) as Hnf.
  unfold Math_floor in Hfloor.
  destruct (Prim2SF a) as [s|s| |s m e] eqn:Hsf.
  - exists 0%Z. split; [lia|]. rewrite <- Hback.
    destruct s; [right; split; reflexivity | left; reflexivity].
  - congruence.
  - congruence.
  - (* sign *)
    destruct s; [vm_compute in Hneg; discriminate|].
    (* at most 170 *)
    assert (He : (e <= -45)%Z /\ (e = -45 -> Zpos m <= 170 * 2 ^ 45)%Z).
    { change (Prim2SF 170) with
        (S754_finite false 5981343255101440%positive (-45)%Z) in Hmax.
      unfold SFltb, SFcompare in Hmax.
      destruct (Z.compare_spec (-45) e) as [Heq|Hlt|Hgt].
      - split; [lia|]. intros _.
        destruct (Pos.compare_cont Eq 5981343255101440 m) eqn:Hc;
          try discriminate.
        + apply Pos.compare_eq in Hc. subst m. reflexivity.
        + apply Pos.compare_gt_iff in Hc.
          change (170 * 2 ^ 45)%Z with (Zpos 5981343255101440).
          apply Z.lt_le_incl. exact Hc.
      - discriminate.
      - lia. }
    destruct He as [He He45].
    pose proof (valid_mantissa_bound _ _ _ Hvalid) as Hm.
    destruct (0 <=? e)%Z eqn:He0; [apply Z.leb_le in He0; lia|].
    set (q := Z.shiftr (Zpos m) (- e)) in *.
    assert (Hq : q = (Zpos m / 2 ^ (- e))%Z)
      by (unfold q; apply Z.shiftr_div_pow2; lia).
    assert (Hpow : (0 < 2 ^ (- e))%Z) by (apply Z.pow_pos_nonneg; lia).
    assert (Hq170 : (0 <= q <= 170)%Z).
    { rewrite Hq. split; [apply Z.div_pos; lia|].
      destruct (Z.eq_dec e (-45)) as [->|Hne].
      - specialize (He45 eq_refl).
        change (- -45)%Z with 45%Z.
        apply Z.div_le_upper_bound; lia.
      - assert (H46 : (2 ^ 46 <= 2 ^ (- e))%Z)
          by (apply Z.pow_le_mono_r; lia).
        apply Z.div_le_upper_bound; [lia|].
        change (2 ^ 53)%Z with (128 * 2 ^ 46)%Z in Hm. nia. }
    destruct (Z.shiftl q (- e) =? Zpos m)%Z eqn:Hint.
    + (* an integer *)
      apply Z.eqb_eq in Hint. rewrite Z.shiftl_mul_pow2 in Hint by lia.
      assert (He52 : (-52 <= e)%Z).
      { destruct (Z_lt_le_dec e (-52)) as [Hlt|]; [|assumption].
        assert (H53 : (2 ^ 53 <= 2 ^ (- e))%Z)
          by (apply Z.pow_le_mono_r; lia).
        assert (q = 0 \/ 1 <= q)%Z as [Hz|Hp] by lia; [subst q; lia|nia]. }
      assert (Hq1 : (1 <= q)%Z) by nia.
      exists q. split; [lia|]. left.
      assert (Hin : In (e, q) (list_prod exponents small_ints)).
      { apply in_prod; [|apply small_ints_spec; lia].
        unfold exponents. simpl.
        assert (e = -52 \/ e = -51 \/ e = -50 \/ e = -49 \/ e = -48
                \/ e = -47 \/ e = -46 \/ e = -45)%Z by lia.
        intuition auto. }
      pose proof integer_float_table as Htab.
      rewrite forallb_forall in Htab. specialize (Htab _ Hin).
      unfold integer_float in Htab. rewrite Hint in Htab.
      change (Z.to_pos (Zpos m)) with m in Htab.
      rewrite Hvalid in Htab.
      apply FloatAxioms.Leibniz.eqb_spec in Htab.
      rewrite <- Hback. exact Htab.
    + (* not an integer: the floor differs from [a] *)
      exfalso. rewrite eqb_spec, Hsf in Hfloor.
      assert (Hin : In q small_ints) by (apply small_ints_spec; lia).
      pose proof integral_repr_table as Htab.
      rewrite forallb_forall in Htab. specialize (Htab _ Hin).
      unfold integral_repr in Htab.
      destruct (Prim2SF (float_of_Z q)) as [s'|s'| |s' mq eq];
        try discriminate.
      destruct s'; [discriminate|].
      apply andb_prop in Htab as [_ Htab].
      unfold SFeqb, SFcompare in Hfloor.
      destruct (Z.compare_spec eq e) as [Heq|Hlt|Hgt]; try discriminate.
      destruct (Pos.compare_cont Eq mq m) eqn:Hc; try discriminate.
      apply Pos.compare_eq in Hc. subst mq eq.
      fold q in Htab. rewrite Hint in Htab. discriminate.
Qed.

Lemma factorial_guards_table :
  forallb (fun k => factorial_guards (float_of_Z k)) small_ints = true.
Proof. vm_compute. reflexivity. Qed.

(** The loop of [factorial] always ends within the model's bound. *)
Lemma factorial_terminates (n : float) : factorial n <> Err OutOfFuel.
Proof.
  destruct (factorial_guards n) eqn:Hg.
  - destruct (factorial_domain n Hg) as (k & Hk & [->|[-> ->]]).
    + rewrite (factorial_small_int k Hk). discriminate.
    + vm_compute. discriminate.
  - rewrite factorial_unfold, Hg.
    destruct (negb (Number_isFinite n) || (n <? 0)%float); [discriminate|].
    destruct (negb (Math_floor n =? n)%float); discriminate.
Qed.

(** C7. Evaluating the postfix operator [!] pops one value [a] (and
    throws when there is none).  It throws an evaluation error unless
    [a] is finite, not negative, equal to its floor and not above 170,
    which holds exactly when [a] is one of the integers 0..170 (or the
    negative zero).  In that case it pushes the product
    [2 * 3 * ... * a] computed by successive multiplications, which is
    [1] for [a = 0] and [a = 1]. *)
Theorem factorial_step (Math : MathLib) (deg : bool) :
  (forall a : float,
      factorial_guards a = true <->
      exists k : Z,
        (0 <= k <= 170)%Z /\ (a = float_of_Z k \/ (k = 0%Z /\ a = neg_zero)))
  /\ (forall (a : float) (st : list float),
      factorial_guards a = true ->
      exists k : Z,
        (0 <= k <= 170)%Z /\ (a =? float_of_Z k)%float = true
        /\ evalRPN_step Math deg (TPostfix Bang) (a :: st)
           = Ok (product_to k :: st))
  /\ (forall (a : float) (st : list float),
      factorial_guards a = false ->
      exists e : error,
        evalRPN_step Math deg (TPostfix Bang) (a :: st) = Err e
        /\ (e = InvalidFactorial \/ e = FactorialRequiresInteger
            \/ e = ResultTooLarge)
        /\ stage_of e = Some EvalError)
  /\ evalRPN_step Math deg (TPostfix Bang) [] = Err InvalidPostfixOperation
  /\ factorial 0 = Ok 1%float
  /\ factorial 1 = Ok 1%float.
Proof.
  split; [|split; [|split; [|split; [|split]]]].
  - intros a. split; [apply factorial_domain|].
    intros (k & Hk & [->|[_ ->]]); [|reflexivity].
    pose proof factorial_guards_table as H. rewrite forallb_forall in H.
    apply H, small_ints_spec, Hk.
  - intros a st Hg.
    destruct (factorial_domain a Hg) as (k & Hk & Ha).
    exists k. split; [assumption|].
    destruct Ha as [->|[-> ->]].
    + split.
      * assert (Heq : forallb (fun k => (float_of_Z k =? float_of_Z k)%float)
                        small_ints = true) by (vm_compute; reflexivity).
        rewrite forallb_forall in Heq. apply Heq, small_ints_spec, Hk.
      * cbn [evalRPN_step]. rewrite (factorial_small_int k Hk). reflexivity.
    + split; reflexivity.
  - intros a st Hg. cbn [evalRPN_step]. rewrite factorial_unfold, Hg.
    destruct (negb (Number_isFinite a) || (a <? 0)%float);
      [eexists; repeat split; eauto|].
    destruct (negb (Math_floor a =? a)%float);
      eexists; repeat split; eauto.
  - reflexivity.
  - vm_compute; reflexivity.
  - vm_compute; reflexivity.
Qed.

Lemma factorial_step_witness :
  exists k : Z,
    (0 <= k <= 170)%Z /\ (5 =? float_of_Z k)%float = true
    /\ evalRPN_step StubMath true (TPostfix Bang) [5%float]
       = Ok [product_to k].
Proof.
  apply (proj1 (proj2 (factorial_step StubMath true)) 5%float []).
  vm_compute; reflexivity.
Defined.

(** ** Non-finite intermediate values (C2) *)

(** C2. Only the binary-operator step checks its result: it throws
    'Math error' when the result is not finite.  The steps for [ln],
    [log], [sqrt], unary minus and [%] push whatever they compute.
    So [sqrt] of [-1] pushes NaN without an error, a following [%]
    consumes it and pushes NaN again, and the evaluation of
    ["sqrt(-1)%"] fails only at the end, with 'Result not finite'.
    When the host's [Math.log] maps [0] to minus infinity, as the
    language requires, ["1/ln(0)"] returns the number [-0]: the
    infinite intermediate value is consumed by the division. *)
Theorem non_finite_intermediate_is_pushed (Math : MathLib) (deg : bool) :
  (forall (o : binop) (a b : float) (st : list float),
      Number_isFinite (fn (OPS Math o) a b) = false ->
      evalRPN_step Math deg (TOp o) (b :: a :: st) = Err MathError)
  /\ (forall (a : float) (st : list float),
      evalRPN_step Math deg (TName "ln") (a :: st)
      = Ok (Math_log Math a :: st)
      /\ evalRPN_step Math deg (TName "sqrt") (a :: st)
         = Ok (Math_sqrt a :: st)
      /\ evalRPN_step Math deg (TFunc "u-") (a :: st) = Ok ((- a)%float :: st)
      /\ evalRPN_step Math deg (TPostfix Percent) (a :: st)
         = Ok ((a / 100)%float :: st))
  /\ Number_isFinite (Math_sqrt (-1)) = false
  /\ bind (tokenize (js "sqrt(-1)%")) (toRPN Math)
     = Ok [TNumber 1; TFunc "u-"; TName "sqrt"; TPostfix Percent]
  /\ evalRPN_loop Math deg [TNumber 1; TFunc "u-"; TName "sqrt"] []
     = Ok [Math_sqrt (-1)]
  /\ evalRPN_loop Math deg
       [TNumber 1; TFunc "u-"; TName "sqrt"; TPostfix Percent] []
     = Ok [(Math_sqrt (-1) / 100)%float]
  /\ internalEvaluateExpression Math deg (js "sqrt(-1)%") = Err ResultNotFinite
  /\ (Math_log Math 0 = neg_infinity ->
      internalEvaluateExpression Math deg (js "1/ln(0)") = Ok neg_zero).
Proof.
  split; [|split; [|split; [|split; [|split; [|split; [|split]]]]]].
  - intros o a b st H. cbn [evalRPN_step]. rewrite H. reflexivity.
  - intros a st. repeat split; reflexivity.
  - vm_compute; reflexivity.
  - vm_compute; reflexivity.
  - vm_compute; reflexivity.
  - vm_compute; reflexivity.
  - vm_compute; reflexivity.
  - intros Hlog. unfold internalEvaluateExpression.
    change (tokenize (normalize (js "1/ln(0)")))
      with (@Ok (list token)
              [TNumber 1; TOp Div; TName "ln"; TLParen; TNumber 0; TRParen]).
    cbn [bind].
    change (toRPN Math
              [TNumber 1; TOp Div; TName "ln"; TLParen; TNumber 0; TRParen])
      with (@Ok (list token) [TNumber 1; TNumber 0; TName "ln"; TOp Div]).
    cbn [bind]. unfold evalRPN. cbn [evalRPN_loop].
    change (evalRPN_step Math deg (TNumber 1) []) with (@Ok (list float) [1%float]).
    cbn [bind].
    change (evalRPN_step Math deg (TNumber 0) [1%float])
      with (@Ok (list float) [0%float; 1%float]).
    cbn [bind].
    change (evalRPN_step Math deg (TName "ln") [0%float; 1%float])
      with (@Ok (list float) [Math_log Math 0; 1%float]).
    cbn [bind]. rewrite Hlog. reflexivity.
Qed.

Lemma non_finite_intermediate_is_pushed_witness :
  internalEvaluateExpression StubMath true (js "1/ln(0)") = Ok neg_zero.
Proof.
  apply (proj2 (proj2 (proj2 (proj2 (proj2 (proj2 (proj2
           (non_finite_intermediate_is_pushed StubMath true)))))))).
  reflexivity.
Defined.

(** * Further properties of the engine *)

(** ** What the tokenizer produces *)

(** X1. The tokenizer never produces a ['func'] token, so on tokenizer
    output the parser fails exactly on mismatched parentheses or a
    misplaced comma, whatever the input string. *)
Theorem tokenize_then_toRPN_fails_iff_parens
  (Math : MathLib) (s : jsstring) (tokens : list token) :
  tokenize s = Ok tokens ->
  existsb is_func tokens = false
  /\ is_ok (toRPN Math tokens) = parens_ok 0 tokens.
Proof.
  intros H.
  pose proof (tokenize_no_func s tokens H) as Hf.
  split; [assumption|].
  unfold toRPN.
  apply (toRPN_loop_parens Math tokens None {| output := []; stack := [] |});
    [assumption | reflexivity].
Qed.

Lemma tokenize_then_toRPN_fails_iff_parens_witness :
  existsb is_func [TNumber 1; TRParen] = false
  /\ is_ok (toRPN StubMath [TNumber 1; TRParen])
     = parens_ok 0 [TNumber 1; TRParen].
Proof.
  apply (tokenize_then_toRPN_fails_iff_parens StubMath (js "1)")).
  vm_compute; reflexivity.
Defined.

(** ** Shape of the postfix form *)

(** Tokens that may appear in a postfix form: no parenthesis, no
    comma, no unresolved constant name. *)
Definition rpn_token (t : token) : bool :=
  match t with
  | TLParen | TRParen | TComma => false
  | TName name => negb (String.eqb name "pi" || String.eqb name "e")
  | _ => true
  end.

(** Entries of the operator stack. *)
Definition stack_entry (t : token) : bool :=
  match t with
  | TName name => negb (String.eqb name "pi" || String.eqb name "e")
  | TFunc _ | TOp _ | TLParen => true
  | _ => false
  end.

(** The numeric operand a token stands for, if any. *)
Definition operand (t : token) : list float :=
  match t with
  | TNumber v => [v]
  | TName name =>
      if String.eqb name "pi" then [Math_PI]
      else if String.eqb name "e" then [Math_E]
      else []
  | _ => []
  end.

Definition operands (tokens : list token) : list float :=
  flat_map operand tokens.

Lemma operands_app (a b : list token) :
  operands (a ++ b) = operands a ++ operands b.
Proof. apply flat_map_app. Qed.

Lemma stack_entry_operand (t : token) :
  stack_entry t = true -> operand t = [].
Proof.
  destruct t as [v|name| | | |p|o|f]; try discriminate; try reflexivity.
  simpl. destruct (String.eqb name "pi"); [discriminate|].
  destruct (String.eqb name "e"); [discriminate | reflexivity].
Qed.

(** The state invariant of [toRPN]. *)
Record shaped (s : rpn_state) : Prop := {
  shaped_output : forallb rpn_token (output s) = true;
  shaped_stack : forallb stack_entry (stack s) = true
}.

Lemma forallb_snoc {A : Type} (p : A -> bool) (l : list A) (a : A) :
  forallb p l = true -> p a = true -> forallb p (l ++ [a]) = true.
Proof.
  intros Hl Ha. rewrite forallb_app, Hl. simpl. rewrite Ha. reflexivity.
Qed.

Lemma pop_to_lparen_shaped (stk out : list token) :
  forallb stack_entry stk = true -> forallb rpn_token out = true ->
  shaped (pop_to_lparen stk out)
  /\ operands (output (pop_to_lparen stk out)) = operands out.
Proof.
  revert out. induction stk as [|t stk IH]; intros out Hs Ho.
  - split; [split|]; auto.
  - simpl in Hs. apply andb_prop in Hs as [Ht Hs].
    assert (Hstep : rpn_token t = true ->
                    shaped (pop_to_lparen stk (out ++ [t]))
                    /\ operands (output (pop_to_lparen stk (out ++ [t])))
                       = operands out).
    { intros Hr.
      destruct (IH (out ++ [t]) Hs (forallb_snoc _ _ _ Ho Hr)) as [H1 H2].
      split; [assumption|].
      rewrite H2, operands_app. simpl.
      rewrite (stack_entry_operand t Ht), !app_nil_r. reflexivity. }
    destruct t as [v|name| | | |p|o|f]; try discriminate.
    + apply Hstep. exact Ht.
    + split; [split|]; auto.
    + apply Hstep. reflexivity.
    + apply Hstep. reflexivity.
Qed.

Lemma pop_ops_shaped (Math : MathLib) (o : binop) (stk out : list token) :
  forallb stack_entry stk = true -> forallb rpn_token out = true ->
  shaped (pop_ops Math o stk out)
  /\ operands (output (pop_ops Math o stk out)) = operands out.
Proof.
  revert out. induction stk as [|t stk IH]; intros out Hs Ho.
  - split; [split|]; auto.
  - pose proof Hs as Hs0.
    simpl in Hs. apply andb_prop in Hs as [Ht Hs].
    destruct t as [v|name| | | |p|o2|f]; try (split; [split|]; auto; fail).
    simpl. destruct (pops Math o o2).
    + destruct (IH (out ++ [TOp o2]) Hs
                  (forallb_snoc rpn_token out (TOp o2) Ho eq_refl))
        as [H1 H2].
      split; [assumption|].
      rewrite H2, operands_app. simpl. rewrite app_nil_r. reflexivity.
    + split; [split|]; auto.
Qed.

Lemma drain_shaped (stk out rpn : list token) :
  forallb stack_entry stk = true -> forallb rpn_token out = true ->
  drain stk out = Ok rpn ->
  forallb rpn_token rpn = true /\ operands rpn = operands out.
Proof.
  revert out. induction stk as [|t stk IH]; intros out Hs Ho H.
  - simpl in H. injection H as <-. auto.
  - simpl in Hs. apply andb_prop in Hs as [Ht Hs].
    assert (Hstep : rpn_token t = true ->
                    drain stk (out ++ [t]) = Ok rpn ->
                    forallb rpn_token rpn = true
                    /\ operands rpn = operands out).
    { intros Hr Hd.
      destruct (IH (out ++ [t]) Hs (forallb_snoc _ _ _ Ho Hr) Hd) as [H1 H2].
      split; [assumption|].
      rewrite H2, operands_app. simpl.
      rewrite (stack_entry_operand t Ht), !app_nil_r. reflexivity. }
    destruct t; try discriminate; simpl in H; apply Hstep; auto.
Qed.

Lemma toRPN_step_shaped (Math : MathLib) (prev : option token) (t : token)
  (s s' : rpn_state) :
  shaped s -> toRPN_step Math prev t s = Ok s' ->
  shaped s' /\ operands (output s') = operands (output s) ++ operand t.
Proof.
  intros [Ho Hs] H.
  destruct t as [v|name| | | |p|o|f]; cbn [toRPN_step] in H.
  - injection H as <-. split; [split|]; cbn [output stack]; auto.
    + apply forallb_snoc; auto.
    + apply operands_app.
  - simpl. destruct (String.eqb name "pi") eqn:Hpi.
    { injection H as <-. split; [split|]; cbn [output stack]; auto.
      - apply forallb_snoc; auto.
      - apply operands_app. }
    destruct (String.eqb name "e") eqn:He.
    { injection H as <-. split; [split|]; cbn [output stack]; auto.
      - apply forallb_snoc; auto.
      - apply operands_app. }
    injection H as <-. split; [split|]; cbn [output stack]; auto.
    + simpl. rewrite Hpi, He, Hs. reflexivity.
    + rewrite app_nil_r. reflexivity.
  - injection H as <-. split; [split|]; cbn [output stack]; auto.
    + rewrite app_nil_r. reflexivity.
  - destruct (pop_to_lparen_shaped _ _ Hs Ho) as [[Ho' Hs'] Hop].
    destruct (stack (pop_to_lparen (stack s) (output s))) as [|x stk];
      [discriminate|].
    simpl in Hs'. apply andb_prop in Hs' as [_ Hs'].
    cbn [operand].
    destruct stk as [|top stk'];
      [injection H as <-; split; [split|]; auto;
       cbn [output]; rewrite app_nil_r; exact Hop|].
    simpl in Hs'. apply andb_prop in Hs' as [Htop Hs''].
    assert (Hpop : forall top',
               rpn_token top' = true -> operand top' = [] ->
               shaped {| output := output (pop_to_lparen (stack s) (output s))
                                   ++ [top'];
                         stack := stk' |}
               /\ operands (output (pop_to_lparen (stack s) (output s))
                            ++ [top'])
                  = operands (output s) ++ []).
    { intros top' Hr Hnil. split; [split|]; cbn [output stack]; auto.
      - apply forallb_snoc; auto.
      - rewrite operands_app, Hop. simpl. rewrite Hnil. reflexivity. }
    assert (Hkeep : shaped {| output := output (pop_to_lparen (stack s)
                                                  (output s));
                              stack := top :: stk' |}
                    /\ operands (output (pop_to_lparen (stack s) (output s)))
                       = operands (output s) ++ []).
    { split; [split|]; cbn [output stack]; auto.
      - simpl. rewrite Htop, Hs''. reflexivity.
      - rewrite app_nil_r. exact Hop. }
    destruct top as [v'|name'| | | |p'|o'|f']; try discriminate;
      injection H as <-.
    + apply Hpop; [exact Htop | apply stack_entry_operand; exact Htop].
    + exact Hkeep.
    + exact Hkeep.
    + apply Hpop; reflexivity.
  - destruct (pop_to_lparen_shaped _ _ Hs Ho) as [[Ho' Hs'] Hop].
    destruct (stack (pop_to_lparen (stack s) (output s))) as [|x stk] eqn:Hst;
      [discriminate|].
    injection H as <-. split; [split|]; auto.
    + rewrite Hst. exact Hs'.
    + simpl. rewrite app_nil_r. exact Hop.
  - injection H as <-. split; [split|]; cbn [output stack]; auto.
    + apply forallb_snoc; auto.
    + apply operands_app.
  - destruct (isUnary o prev).
    + injection H as <-. split; [split|]; cbn [output stack]; auto.
      simpl. rewrite app_nil_r. reflexivity.
    + destruct (pop_ops_shaped Math o _ _ Hs Ho) as [[Ho' Hs'] Hop].
      injection H as <-. split; [split|]; cbn [output stack]; auto.
      simpl. rewrite app_nil_r. exact Hop.
  - discriminate.
Qed.

Lemma toRPN_loop_shaped (Math : MathLib) (tokens : list token) :
  forall (prev : option token) (s s' : rpn_state),
    shaped s -> toRPN_loop Math tokens prev s = Ok s' ->
    shaped s' /\ operands (output s') = operands (output s) ++ operands tokens.
Proof.
  induction tokens as [|t tokens IH]; intros prev s s' Hs H.
  - simpl in H. injection H as <-. rewrite app_nil_r. auto.
  - cbn [toRPN_loop] in H. apply bind_ok in H as (s1 & H1 & H2).
    destruct (toRPN_step_shaped Math prev t s s1 Hs H1) as [Hs1 Hop1].
    destruct (IH _ _ _ Hs1 H2) as [Hs' Hop'].
    split; [assumption|].
    rewrite Hop', Hop1, <- app_assoc. reflexivity.
Qed.

Lemma toRPN_shaped (Math : MathLib) (tokens rpn : list token) :
  toRPN Math tokens = Ok rpn ->
  forallb rpn_token rpn = true /\ operands rpn = operands tokens.
Proof.
  unfold toRPN. intros H. apply bind_ok in H as (s & H1 & H2).
  destruct (toRPN_loop_shaped Math tokens None _ s
              (Build_shaped {| output := []; stack := [] |} eq_refl eq_refl) H1)
    as [[Ho Hs] Hop].
  destruct (drain_shaped _ _ _ Hs Ho H2) as [H3 H4].
  split; [assumption|]. rewrite H4, Hop. reflexivity.
Qed.

(** X2. The postfix form has no parentheses and no commas, and holds the
    numeric operands of the input (literals, and [pi] and [e]
    replaced by their values) in their original order. *)
Theorem toRPN_output_shape (Math : MathLib) (tokens rpn : list token) :
  toRPN Math tokens = Ok rpn ->
  forallb rpn_token rpn = true /\ operands rpn = operands tokens.
Proof. apply toRPN_shaped. Qed.

Lemma toRPN_output_shape_witness :
  forallb rpn_token [TNumber 2; TNumber Math_PI; TOp Mul] = true
  /\ operands [TNumber 2; TNumber Math_PI; TOp Mul]
     = operands [TNumber 2; TOp Mul; TName "pi"].
Proof.
  apply (toRPN_output_shape StubMath [TNumber 2; TOp Mul; TName "pi"]).
  vm_compute; reflexivity.
Defined.

(** ** What the engine returns and throws *)

(** The errors a run of the engine can end with.  The others guard
    branches that no input reaches: 'Unknown token type' (the
    tokenizer makes no such token), 'Unknown trig' ([trigOp] is
    called on the six trig names only), 'Unhandled RPN token' (no
    parenthesis or comma survives [toRPN]). *)
Definition reachable (e : error) : bool :=
  match e with
  | UnknownTokenType _ | UnknownTrig | UnhandledRPNToken | OutOfFuel => false
  | _ => true
  end.

Lemma trigOp_reachable (Math : MathLib) (deg : bool) (name : string)
  (a : float) (e : error) :
  is_trig name = true -> trigOp Math deg name a = Err e -> reachable e = true.
Proof.
  unfold is_trig, trigOp. cbn [existsb]. intros Ht H.
  destruct (negb (Number_isFinite a)); [injection H as <-; reflexivity|].
  destruct (String.eqb name "sin"); [discriminate|].
  destruct (String.eqb name "cos"); [discriminate|].
  destruct (String.eqb name "tan"); [discriminate|].
  destruct (String.eqb name "csc"); [discriminate|].
  destruct (String.eqb name "sec"); [discriminate|].
  destruct (String.eqb name "cot"); discriminate.
Qed.

Lemma factorial_reachable (a : float) (e : error) :
  factorial a = Err e -> reachable e = true.
Proof.
  intros H. pose proof (factorial_terminates a) as Hfuel.
  rewrite factorial_unfold in H, Hfuel.
  destruct (factorial_guards a).
  - destruct (factorial_loop factorial_fuel 2 a 1); [discriminate|].
    congruence.
  - destruct (negb (Number_isFinite a) || (a <? 0)%float);
      [injection H as <-; reflexivity|].
    destruct (negb (Math_floor a =? a)%float); injection H as <-; reflexivity.
Qed.

Lemma evalRPN_step_reachable (Math : MathLib) (deg : bool) (t : token)
  (st : list float) (e : error) :
  rpn_token t = true ->
  evalRPN_step Math deg t st = Err e -> reachable e = true.
Proof.
  intros Ht H.
  destruct t as [v|name| | | |p|o|name]; try discriminate;
    cbn [evalRPN_step] in H.
  - destruct (String.eqb name "u-");
      [destruct st; [injection H as <-; reflexivity | discriminate]|].
    destruct (is_trig name) eqn:Htrig.
    { destruct st as [|a st]; [injection H as <-; reflexivity|].
      destruct (trigOp Math deg name a) eqn:Hop; [discriminate|].
      injection H as <-. eapply trigOp_reachable; eauto. }
    destruct (String.eqb name "ln");
      [destruct st; [injection H as <-; reflexivity | discriminate]|].
    destruct (String.eqb name "log").
    { destruct st; [injection H as <-; reflexivity|].
      destruct (Math_log10 Math); discriminate. }
    destruct (String.eqb name "sqrt");
      [destruct st; [injection H as <-; reflexivity | discriminate]|].
    injection H as <-; reflexivity.
  - destruct st as [|a st]; [injection H as <-; reflexivity|].
    destruct p; [|discriminate].
    destruct (factorial a) eqn:Hf; [discriminate|].
    injection H as <-. eapply factorial_reachable; eauto.
  - destruct st as [|b [|a st]]; try (injection H as <-; reflexivity).
    destruct (negb (Number_isFinite (fn (OPS Math o) a b)));
      [injection H as <-; reflexivity | discriminate].
  - destruct (String.eqb name "u-");
      [destruct st; [injection H as <-; reflexivity | discriminate]|].
    destruct (is_trig name) eqn:Htrig.
    { destruct st as [|a st]; [injection H as <-; reflexivity|].
      destruct (trigOp Math deg name a) eqn:Hop; [discriminate|].
      injection H as <-. eapply trigOp_reachable; eauto. }
    destruct (String.eqb name "ln");
      [destruct st; [injection H as <-; reflexivity | discriminate]|].
    destruct (String.eqb name "log").
    { destruct st; [injection H as <-; reflexivity|].
      destruct (Math_log10 Math); discriminate. }
    destruct (String.eqb name "sqrt");
      [destruct st; [injection H as <-; reflexivity | discriminate]|].
    injection H as <-; reflexivity.
Qed.

Lemma evalRPN_loop_reachable (Math : MathLib) (deg : bool)
  (rpn : list token) :
  forall (st : list float) (e : error),
    forallb rpn_token rpn = true ->
    evalRPN_loop Math deg rpn st = Err e -> reachable e = true.
Proof.
  induction rpn as [|t rpn IH]; intros st e Hr H; [discriminate|].
  simpl in Hr. apply andb_prop in Hr as [Ht Hr].
  cbn [evalRPN_loop] in H.
  destruct (evalRPN_step Math deg t st) as [st'|e'] eqn:Hs; cbn [bind] in H.
  - eauto.
  - injection H as <-. eapply evalRPN_step_reachable; eauto.
Qed.

(** X3. Whatever the input string, a run of the engine either returns a
    finite number or throws one of the reachable errors: it never
    returns NaN or an infinity, never runs into one of the three
    guard branches, and its loops always end. *)
Theorem internalEvaluateExpression_outcome
  (Math : MathLib) (deg : bool) (str : jsstring) :
  match internalEvaluateExpression Math deg str with
  | Ok v => Number_isFinite v = true
  | Err e => reachable e = true
  end.
Proof.
  unfold internalEvaluateExpression.
  pose proof (tokenize_terminates (normalize str)) as Hfuel.
  destruct (tokenize (normalize str)) as [tokens|e] eqn:Htok; cbn [bind].
  - pose proof (tokenize_no_func _ _ Htok) as Hfunc.
    destruct (toRPN Math tokens) as [rpn|e] eqn:Hrpn; cbn [bind].
    + destruct (toRPN_shaped Math tokens rpn Hrpn) as [Hshape _].
      unfold evalRPN.
      destruct (evalRPN_loop Math deg rpn []) as [st|e] eqn:Hev; cbn [bind].
      * destruct st as [|v [|w st]]; try reflexivity.
        destruct (Number_isFinite v) eqn:Hfin; [exact Hfin | reflexivity].
      * eapply evalRPN_loop_reachable; eauto.
    + apply toRPN_errors in Hrpn.
      destruct Hrpn as [->|[->|[_ H]]]; try reflexivity. congruence.
  - assert (Hloop : forall fuel s toks,
               tokenize_loop fuel s toks = Err e ->
               e <> OutOfFuel -> reachable e = true).
    { clear. induction fuel as [|fuel IH]; intros s toks H Hne.
      - destruct s; simpl in H; [discriminate | congruence].
      - destruct s as [|ch rest]; [discriminate|].
        cbn [tokenize_loop] in H.
        destruct (isWhitespace ch); [eauto|].
        destruct (isDigit ch
                  || (ch =? dot)
                     && match rest with c :: _ => isDigit c | [] => false end).
        { destruct (span (fun c => isDigit c || (c =? dot)) rest)
            as [run rest'].
          destruct (1 <? count_dots (ch :: run))%nat;
            [injection H as <-; reflexivity | eauto]. }
        destruct (isAlpha ch).
        { destruct (span (fun c => isAlpha c || isDigit c) rest)
            as [run rest']. eauto. }
        repeat match type of H with
               | (if ?b then _ else _) = _ => destruct b; [eauto|]
               end.
        destruct (op_of_char ch); [eauto|].
        repeat match type of H with
               | (if ?b then _ else _) = _ => destruct b; [eauto|]
               end.
        injection H as <-; reflexivity. }
    eapply Hloop; [exact Htok|]. congruence.
Qed.

(** ** The evaluator only touches the top of its stack *)

Lemma evalRPN_step_frame (Math : MathLib) (deg : bool) (t : token)
  (st st' below : list float) :
  evalRPN_step Math deg t st = Ok st' ->
  evalRPN_step Math deg t (st ++ below) = Ok (st' ++ below).
Proof.
  intros H.
  destruct t as [v|name| | | |p|o|name]; cbn [evalRPN_step] in *;
    try discriminate.
  - injection H as <-. reflexivity.
  - destruct (String.eqb name "u-");
      [destruct st; [discriminate | injection H as <-; reflexivity]|].
    destruct (is_trig name).
    { destruct st as [|a st]; [discriminate|]. cbn [app].
      destruct (trigOp Math deg name a); [|discriminate].
      injection H as <-. reflexivity. }
    destruct (String.eqb name "ln");
      [destruct st; [discriminate | injection H as <-; reflexivity]|].
    destruct (String.eqb name "log").
    { destruct st; [discriminate|]. cbn [app].
      destruct (Math_log10 Math); injection H as <-; reflexivity. }
    destruct (String.eqb name "sqrt");
      [destruct st; [discriminate | injection H as <-; reflexivity]|].
    discriminate.
  - destruct st as [|a st]; [discriminate|]. cbn [app].
    destruct p; [|injection H as <-; reflexivity].
    destruct (factorial a); [|discriminate].
    injection H as <-. reflexivity.
  - destruct st as [|b [|a st]]; try discriminate. cbn [app].
    destruct (negb (Number_isFinite (fn (OPS Math o) a b)));
      [discriminate|].
    injection H as <-. reflexivity.
  - destruct (String.eqb name "u-");
      [destruct st; [discriminate | injection H as <-; reflexivity]|].
    destruct (is_trig name).
    { destruct st as [|a st]; [discriminate|]. cbn [app].
      destruct (trigOp Math deg name a); [|discriminate].
      injection H as <-. reflexivity. }
    destruct (String.eqb name "ln");
      [destruct st; [discriminate | injection H as <-; reflexivity]|].
    destruct (String.eqb name "log").
    { destruct st; [discriminate|]. cbn [app].
      destruct (Math_log10 Math); injection H as <-; reflexivity. }
    destruct (String.eqb name "sqrt");
      [destruct st; [discriminate | injection H as <-; reflexivity]|].
    discriminate.
Qed.

(** X4. A postfix sequence that evaluates on a stack evaluates the same
    way with further values below: they are neither read nor
    changed. *)
Theorem evalRPN_loop_frame (Math : MathLib) (deg : bool) (rpn : list token) :
  forall st st' below : list float,
    evalRPN_loop Math deg rpn st = Ok st' ->
    evalRPN_loop Math deg rpn (st ++ below) = Ok (st' ++ below).
Proof.
  induction rpn as [|t rpn IH]; intros st st' below H.
  - simpl in *. congruence.
  - cbn [evalRPN_loop] in *. apply bind_ok in H as (st1 & H1 & H2).
    rewrite (evalRPN_step_frame _ _ _ _ _ below H1). cbn [bind]. auto.
Qed.

Lemma evalRPN_loop_frame_witness :
  evalRPN_loop StubMath true [TNumber 2; TOp Add] ([3%float] ++ [7%float])
  = Ok ([5%float] ++ [7%float]).
Proof.
  apply (evalRPN_loop_frame StubMath true [TNumber 2; TOp Add]
           [3%float] [5%float] [7%float]).
  vm_compute; reflexivity.
Defined.

(** ** A leading minus negates the whole operator chain *)

(** X5. For every operator-separated sequence of literals read as the
    grouped tree [e], the text [- e] is converted to the postfix form
    of [e] followed by the unary-minus marker: the negation applies
    to the value of the whole of [e], not to its first literal. *)
Theorem leading_minus_negates_everything
  (Math : MathLib) (deg : bool) (e : expr) :
  grouped e = true ->
  toRPN Math (TOp Sub :: infix e) = Ok (postorder e ++ [TFunc "u-"])
  /\ bind (toRPN Math (TOp Sub :: infix e)) (evalRPN Math deg)
     = finite_result (bind (value Math e) (fun v => Ok (- v)%float)).
Proof.
  intros Hg.
  assert (Hrpn : toRPN Math (TOp Sub :: infix e)
                 = Ok (postorder e ++ [TFunc "u-"])).
  { unfold toRPN. cbn [toRPN_loop toRPN_step isUnary binop_eqb andb bind
                        output stack].
    rewrite <- (app_nil_r (infix e)).
    rewrite toRPN_loop_infix; auto.
    - cbn [toRPN_loop bind stack output app].
      rewrite drain_spine_app. cbn [drain].
      rewrite postorder_split, <- app_assoc. reflexivity.
    - cbn [stack]. clear Hg. induction e; simpl; auto. }
  split; [assumption|].
  rewrite Hrpn. cbn [bind]. unfold evalRPN, finite_result.
  rewrite evalRPN_loop_postorder.
  destruct (value Math e) as [v|x]; reflexivity.
Qed.

Lemma leading_minus_negates_everything_witness :
  toRPN StubMath (TOp Sub :: infix (Bin Add (Num 5) (Num 3)))
  = Ok (postorder (Bin Add (Num 5) (Num 3)) ++ [TFunc "u-"]).
Proof.
  apply (proj1 (leading_minus_negates_everything StubMath true
                  (Bin Add (Num 5) (Num 3)) eq_refl)).
Defined.

(** ** Results of the factorial *)

Lemma product_table :
  forallb (fun k => Number_isFinite (product_to k)
                    && (1 <=? product_to k)%float) small_ints = true.
Proof. vm_compute. reflexivity. Qed.

(** X6. Whenever [factorial] returns, its result is finite and at least
    1: the bound 170 keeps the product below the largest float. *)
Theorem factorial_result_finite (a r : float) :
  factorial a = Ok r ->
  Number_isFinite r = true /\ (1 <=? r)%float = true.
Proof.
  intros H.
  destruct (factorial_guards a) eqn:Hg.
  - destruct (factorial_domain a Hg) as (k & Hk & [->|[-> ->]]).
    + rewrite (factorial_small_int k Hk) in H. injection H as <-.
      pose proof product_table as Ht. rewrite forallb_forall in Ht.
      specialize (Ht k (proj2 (small_ints_spec k) Hk)).
      apply andb_prop in Ht. exact Ht.
    + vm_compute in H. injection H as <-. split; reflexivity.
  - rewrite factorial_unfold, Hg in H.
    destruct (negb (Number_isFinite a) || (a <? 0)%float); [discriminate|].
    destruct (negb (Math_floor a =? a)%float); discriminate.
Qed.

Lemma factorial_result_finite_witness :
  Number_isFinite 120 = true /\ (1 <=? 120)%float = true.
Proof.
  apply (factorial_result_finite 5 120). vm_compute; reflexivity.
Defined.

(** ** White space and Unicode operators *)

Lemma normalize_whitespace (ws : jsstring) :
  forallb isWhitespace ws = true -> normalize ws = [].
Proof.
  unfold normalize. induction ws as [|c ws IH]; intros H; [reflexivity|].
  simpl in H. apply andb_prop in H as [Hc Hws].
  cbn [map filter].
  assert (Hsame : (if c =? 247 then 47 else if c =? 215 then 42
                   else if c =? 8722 then 45 else c) = c).
  { destruct (Z.eqb_spec c 247) as [->|_]; [discriminate|].
    destruct (Z.eqb_spec c 215) as [->|_]; [discriminate|].
    destruct (Z.eqb_spec c 8722) as [->|_]; [discriminate|].
    reflexivity. }
  rewrite Hsame, Hc. cbn [negb]. auto.
Qed.

(** X7. White space is ignored wherever it occurs in the input, also
    between the digits of a number: the engine evaluates the string
    with the white space removed. *)
Theorem whitespace_is_ignored
  (Math : MathLib) (deg : bool) (before ws after : jsstring) :
  forallb isWhitespace ws = true ->
  internalEvaluateExpression Math deg (before ++ ws ++ after)
  = internalEvaluateExpression Math deg (before ++ after).
Proof.
  intros H. unfold internalEvaluateExpression.
  rewrite !normalize_app, (normalize_whitespace ws H). reflexivity.
Qed.

Lemma whitespace_is_ignored_witness :
  internalEvaluateExpression StubMath true (js "1" ++ js " " ++ js "2+3")
  = internalEvaluateExpression StubMath true (js "1" ++ js "2+3").
Proof.
  apply (whitespace_is_ignored StubMath true (js "1") (js " ") (js "2+3")).
  reflexivity.
Defined.

Lemma filter_map_commute {A : Type} (p : A -> bool) (f : A -> A)
  (l : list A) :
  (forall a, p (f a) = p a) -> filter p (map f l) = map f (filter p l).
Proof.
  intros H. induction l as [|a l IH]; [reflexivity|].
  cbn [map filter]. rewrite H. destruct (p a); cbn [map]; congruence.
Qed.

(** The em dash U+2014 as the ASCII minus. *)
Definition dash_to_minus (c : char) : char := if c =? 8212 then 45 else c.

Lemma span_map (p : char -> bool) (f : char -> char) (s : jsstring) :
  (forall c, p (f c) = p c) -> (forall c, p c = true -> f c = c) ->
  span p (map f s) = (fst (span p s), map f (snd (span p s))).
Proof.
  intros Hp Hid. induction s as [|c s IH]; [reflexivity|].
  cbn [map span]. rewrite Hp.
  destruct (p c) eqn:Hc; [|reflexivity].
  rewrite IH, (Hid c Hc). destruct (span p s). reflexivity.
Qed.

Lemma dash_to_minus_cases (c : char) :
  (c = 8212 /\ dash_to_minus c = 45) \/ (c <> 8212 /\ dash_to_minus c = c).
Proof.
  unfold dash_to_minus. destruct (Z.eqb_spec c 8212); auto.
Qed.

Lemma tokenize_loop_dash (fuel : nat) :
  forall (s : jsstring) (tokens : list token),
    tokenize_loop fuel (map dash_to_minus s) tokens
    = tokenize_loop fuel s tokens.
Proof.
  induction fuel as [|fuel IH]; intros s tokens.
  - destruct s; reflexivity.
  - destruct s as [|ch rest]; [reflexivity|].
    assert (Hnum : forall c, isDigit (dash_to_minus c) || (dash_to_minus c =? dot)
                             = isDigit c || (c =? dot)).
    { intros c. destruct (dash_to_minus_cases c) as [[-> ->]|[_ ->]];
        reflexivity. }
    assert (Hnum_id : forall c, isDigit c || (c =? dot) = true ->
                                dash_to_minus c = c).
    { intros c. destruct (dash_to_minus_cases c) as [[-> ->]|[_ ->]];
        [discriminate | reflexivity]. }
    assert (Hname : forall c, isAlpha (dash_to_minus c) || isDigit (dash_to_minus c)
                              = isAlpha c || isDigit c).
    { intros c. destruct (dash_to_minus_cases c) as [[-> ->]|[_ ->]];
        reflexivity. }
    assert (Hname_id : forall c, isAlpha c || isDigit c = true ->
                                 dash_to_minus c = c).
    { intros c. destruct (dash_to_minus_cases c) as [[-> ->]|[_ ->]];
        [discriminate | reflexivity]. }
    assert (Hnext : match map dash_to_minus rest with
                    | c :: _ => isDigit c
                    | [] => false
                    end
                    = match rest with c :: _ => isDigit c | [] => false end).
    { destruct rest as [|c r]; [reflexivity|]. cbn [map].
      destruct (dash_to_minus_cases c) as [[-> ->]|[_ ->]]; reflexivity. }
    cbn [map].
    destruct (dash_to_minus_cases ch) as [[-> ->]|[Hne ->]].
    + (* the dash itself: both are read as the operator [-] *)
      cbn [tokenize_loop]. cbn. apply IH.
    + cbn [tokenize_loop].
      rewrite Hnext.
      rewrite (span_map _ dash_to_minus rest Hnum Hnum_id).
      rewrite (span_map _ dash_to_minus rest Hname Hname_id).
      destruct (span (fun c => isDigit c || (c =? dot)) rest) as [run1 rest1].
      destruct (span (fun c => isAlpha c || isDigit c) rest) as [run2 rest2].
      cbn [fst snd].
      destruct (op_of_char ch); rewrite !IH; reflexivity.
Qed.

(** X8. The Unicode operator signs are read as their ASCII counterparts:
    replacing the em dash by [-] in the input does not change the
    result (the division, multiplication and minus signs are replaced
    by the engine itself before tokenizing). *)
Theorem em_dash_is_minus (Math : MathLib) (deg : bool) (str : jsstring) :
  internalEvaluateExpression Math deg (map dash_to_minus str)
  = internalEvaluateExpression Math deg str.
Proof.
  unfold internalEvaluateExpression.
  assert (Hnorm : normalize (map dash_to_minus str)
                  = map dash_to_minus (normalize str)).
  { unfold normalize. rewrite <- filter_map_commute.
    - f_equal. rewrite !map_map. apply map_ext. intros c.
      destruct (dash_to_minus_cases c) as [[-> ->]|[Hne ->]]; [reflexivity|].
      destruct (Z.eqb_spec c 247); [reflexivity|].
      destruct (Z.eqb_spec c 215); [reflexivity|].
      destruct (Z.eqb_spec c 8722); [reflexivity|].
      unfold dash_to_minus. destruct (Z.eqb_spec c 8212); congruence.
    - intros c.
      destruct (dash_to_minus_cases c) as [[-> ->]|[Hne ->]]; reflexivity. }
  rewrite Hnorm. unfold tokenize. rewrite length_map, tokenize_loop_dash.
  reflexivity.
Qed.

(** * The page around the engine *)

(** ** Escaping *)

Definition escape_char (c : char) : jsstring :=
  if c =? 38 then js "&amp;"
  else if c =? 60 then js "&lt;"
  else if c =? 62 then js "&gt;"
  else [c].

Lemma replace_all_app (c : char) (by_ a b : jsstring) :
  replace_all c by_ (a ++ b) = replace_all c by_ a ++ replace_all c by_ b.
Proof. apply flat_map_app. Qed.

(** The three replacements in sequence escape each character once:
    the entities produced by an earlier replacement are not touched
    by a later one. *)
Lemma escapeHtml_pointwise (str : jsstring) :
  escapeHtml str = flat_map escape_char str.
Proof.
  unfold escapeHtml. induction str as [|c str IH]; [reflexivity|].
  change (c :: str) with ([c] ++ str).
  rewrite !replace_all_app, IH. cbn [flat_map app]. f_equal.
  unfold escape_char, replace_all. cbn [flat_map app].
  destruct (Z.eqb_spec c 38) as [->|H38]; [reflexivity|].
  cbn [flat_map app].
  destruct (Z.eqb_spec c 60) as [->|H60]; [reflexivity|].
  cbn [flat_map app].
  destruct (Z.eqb_spec c 62) as [->|H62]; reflexivity.
Qed.

(** Reading an escaped text back. *)
Fixpoint unescape (fuel : nat) (s : jsstring) : jsstring :=
  match fuel with
  | O => []
  | S fuel' =>
      match s with
      | [] => []
      | 38 :: 97 :: 109 :: 112 :: 59 :: r => 38 :: unescape fuel' r
      | 38 :: 108 :: 116 :: 59 :: r => 60 :: unescape fuel' r
      | 38 :: 103 :: 116 :: 59 :: r => 62 :: unescape fuel' r
      | c :: r => c :: unescape fuel' r
      end
  end.

Lemma unescape_escape (str : jsstring) :
  forall fuel, (List.length str < fuel)%nat ->
               unescape fuel (flat_map escape_char str) = str.
Proof.
  induction str as [|c str IH]; intros fuel Hf.
  - destruct fuel; [simpl in Hf; lia | reflexivity].
  - destruct fuel as [|fuel]; [simpl in Hf; lia|].
    simpl in Hf. assert (Hf' : (List.length str < fuel)%nat) by lia.
    cbn [flat_map]. unfold escape_char at 1.
    destruct (Z.eqb_spec c 38) as [->|H38];
      [cbn [js app unescape]; simpl; rewrite IH by assumption; reflexivity|].
    destruct (Z.eqb_spec c 60) as [->|H60];
      [cbn [js app unescape]; simpl; rewrite IH by assumption; reflexivity|].
    destruct (Z.eqb_spec c 62) as [->|H62];
      [cbn [js app unescape]; simpl; rewrite IH by assumption; reflexivity|].
    cbn [app unescape].
    rewrite IH by assumption.
    destruct c as [|p|p]; try reflexivity.
    (* a positive code unit other than 38: no entity starts here *)
    destruct (Pos.eq_dec p 38) as [->|Hp]; [congruence|].
    repeat (destruct p as [p|p|]; try reflexivity; try congruence).
Qed.

(** X9. The escaped text contains neither [<] nor [>], and no text is
    lost: two different strings are never escaped to the same text. *)
Theorem escapeHtml_safe_and_injective :
  (forall str : jsstring,
      ~ In 60 (escapeHtml str) /\ ~ In 62 (escapeHtml str))
  /\ (forall a b : jsstring, escapeHtml a = escapeHtml b -> a = b).
Proof.
  split.
  - intros str. rewrite escapeHtml_pointwise.
    induction str as [|c str [IH1 IH2]]; [split; intros []|].
    cbn [flat_map]. split; intros H; apply in_app_or in H as [H|H]; auto;
      unfold escape_char in H;
      destruct (Z.eqb_spec c 38);
      [vm_compute in H; intuition congruence| |
       vm_compute in H; intuition congruence|];
      (destruct (Z.eqb_spec c 60);
       [vm_compute in H; intuition congruence|]);
      (destruct (Z.eqb_spec c 62);
       [vm_compute in H; intuition congruence|]);
      simpl in H; intuition congruence.
  - intros a b H. rewrite !escapeHtml_pointwise in H.
    assert (Ha : unescape (S (List.length a + List.length b))
                   (flat_map escape_char a) = a)
      by (apply unescape_escape; lia).
    assert (Hb : unescape (S (List.length a + List.length b))
                   (flat_map escape_char b) = b)
      by (apply unescape_escape; lia).
    congruence.
Qed.

(** ** Focus navigation *)

(** X10. From a focused button of the grid, an arrow key always focuses a
    button of the grid, at most one row (four buttons) away; with no
    button focused, the first button is focused when there is one. *)
Theorem focusDir_stays_in_grid (length idx : Z) (key : string) :
  0 <= idx < length ->
  exists t : Z,
    focusDir length idx key = Some t
    /\ 0 <= t < length
    /\ idx - 4 <= t <= idx + 4
    /\ (String.eqb key "ArrowLeft" = false ->
        String.eqb key "ArrowRight" = false ->
        String.eqb key "ArrowUp" = false ->
        String.eqb key "ArrowDown" = false -> t = idx).
Proof.
  intros Hidx. unfold focusDir.
  destruct (Z.eqb_spec idx (-1)) as [->|_]; [lia|].
  set (t := if String.eqb key "ArrowDown" then _ else _).
  assert (Ht : 0 <= t < length /\ idx - 4 <= t <= idx + 4
               /\ (String.eqb key "ArrowLeft" = false ->
                   String.eqb key "ArrowRight" = false ->
                   String.eqb key "ArrowUp" = false ->
                   String.eqb key "ArrowDown" = false -> t = idx)).
  { subst t.
    destruct (String.eqb key "ArrowDown"), (String.eqb key "ArrowUp"),
      (String.eqb key "ArrowRight"), (String.eqb key "ArrowLeft");
      repeat split; intros; try congruence; lia. }
  exists t. split; [|exact Ht].
  destruct Ht as [[H0 H1] _].
  apply Z.leb_le in H0. apply Z.ltb_lt in H1. rewrite H0, H1. reflexivity.
Qed.

Lemma focusDir_stays_in_grid_witness :
  exists t : Z,
    focusDir 20 2 "ArrowUp" = Some t /\ 0 <= t < 20 /\ 2 - 4 <= t <= 2 + 4
    /\ (String.eqb "ArrowUp" "ArrowLeft" = false ->
        String.eqb "ArrowUp" "ArrowRight" = false ->
        String.eqb "ArrowUp" "ArrowUp" = false ->
        String.eqb "ArrowUp" "ArrowDown" = false -> t = 2).
Proof.
  apply (focusDir_stays_in_grid 20 2 "ArrowUp"). lia.
Defined.

(** ** Input handling *)

Module UIFacts.
Import UI.

Section Handlers.

Variable Math : MathLib.
Variable format : float -> jsstring.

(** X11. After an error every input but 'clear' is ignored, and 'clear'
    always gives the empty, unlocked state showing [0]. *)
Theorem locked_until_cleared (now : Z) (i : input) (s : state) :
  (locked s = true -> action_is i "clear" = false ->
   handleInput Math format now i s = s)
  /\ (action_is i "clear" = true ->
      let s' := handleInput Math format now i s in
      expr s' = [] /\ locked s' = false
      /\ displayText s' = js "0" /\ exprText s' = []
      /\ history s' = history s).
Proof.
  unfold handleInput. split.
  - intros Hl Hc. rewrite Hl, Hc. reflexivity.
  - intros Hc. rewrite Hc. rewrite andb_false_r. cbn. auto.
Qed.

(** What the page shows: the expression line is the current
    expression, and the display is 'Error' while input is locked and
    the expression ([0] when it is empty) otherwise. *)
Definition shown (s : state) : Prop :=
  exprText s = expr s
  /\ displayText s
     = if locked s then js "Error"
       else match expr s with [] => js "0" | _ => expr s end.

Lemma render_shown (s : state) : locked s = false -> shown (render s).
Proof.
  intros H. unfold shown, render. cbn. rewrite H. auto.
Qed.

Lemma handleInput_shown (now : Z) (i : input) (s : state) :
  shown s -> shown (handleInput Math format now i s).
Proof.
  intros Hs. unfold handleInput.
  destruct (locked s) eqn:Hl.
  - cbn [andb]. destruct (action_is i "clear"); cbn [negb].
    + apply render_shown. reflexivity.
    + exact Hs.
  - cbn [andb].
    destruct (action_is i "clear"); [apply render_shown; reflexivity|].
    destruct (action_is i "back"); [apply render_shown; exact Hl|].
    destruct (action_is i "equals").
    { destruct (expr s) as [|c e] eqn:He; [exact Hs|].
      destruct (internalEvaluateExpression Math (useDegrees s) (c :: e)).
      - apply render_shown. reflexivity.
      - destruct Hs as [H1 H2]. split; cbn; [congruence | reflexivity]. }
    destruct (fnName i) as [[|c f]|].
    + destruct (val i); [|exact Hs].
      destruct (includes (js "+-*/^") (slice_last (expr s))
                && includes (js "+-*/^") j);
        apply render_shown; exact Hl.
    + apply render_shown; exact Hl.
    + destruct (val i); [|exact Hs].
      destruct (includes (js "+-*/^") (slice_last (expr s))
                && includes (js "+-*/^") j);
        apply render_shown; exact Hl.
Qed.

(** X12. Through any sequence of inputs from the initial state, the page
    shows the current expression, or 'Error' while locked, and the
    history never grows beyond the larger of its stored length and
    200 entries. *)
Theorem handleInputs_invariant (events : list (Z * input)) (h : list entry) :
  let s := handleInputs Math format events (initial h) in
  shown s
  /\ (List.length (history s) <= Nat.max (List.length h) 200)%nat.
Proof.
  cbv zeta.
  assert (Hgen : forall s0,
             shown s0 ->
             (List.length (history s0) <= Nat.max (List.length h) 200)%nat ->
             shown (handleInputs Math format events s0)
             /\ (List.length (history (handleInputs Math format events s0))
                 <= Nat.max (List.length h) 200)%nat).
  { induction events as [|[now i] events IH]; intros s0 Hs Hh; [auto|].
    cbn [handleInputs]. apply IH; [apply handleInput_shown; exact Hs|].
    unfold handleInput.
    destruct (locked s0 && negb (action_is i "clear")); [exact Hh|].
    destruct (action_is i "clear"); [exact Hh|].
    destruct (action_is i "back"); [exact Hh|].
    destruct (action_is i "equals").
    { destruct (expr s0); [exact Hh|].
      destruct (internalEvaluateExpression Math (useDegrees s0) (c :: j));
        [|exact Hh].
      cbn [render history]. rewrite length_firstn. lia. }
    destruct (fnName i) as [[|c f]|]; try exact Hh;
      (destruct (val i); [|exact Hh]);
      destruct (includes (js "+-*/^") (slice_last (expr s0))
                && includes (js "+-*/^") j); exact Hh. }
  apply Hgen.
  - apply render_shown. reflexivity.
  - cbn. lia.
Qed.

(** X13. An operator typed after an operator replaces it - the minus
    sign included, so a binary operator followed by a unary minus
    cannot be entered this way. *)
Theorem operator_replaces_operator
  (now : Z) (s : state) (before : jsstring) (c1 c2 : char) :
  locked s = false ->
  expr s = before ++ [c1] ->
  In c1 (js "+-*/^") -> In c2 (js "+-*/^") ->
  expr (handleInput Math format now
          {| action := None; val := Some [c2]; fnName := None |} s)
  = before ++ [c2].
Proof.
  intros Hl He H1 H2. unfold handleInput, action_is.
  cbn [action fnName val]. rewrite Hl. cbn [andb].
  assert (Hlast : slice_last (expr s) = [c1]).
  { rewrite He. clear. induction before as [|b before IH]; [reflexivity|].
    cbn [app slice_last]. rewrite IH.
    destruct (before ++ [c1]) eqn:Hx; [|reflexivity].
    destruct before; discriminate. }
  rewrite Hlast.
  assert (Hinc : forall c, In c (js "+-*/^") ->
                           includes (js "+-*/^") [c] = true).
  { intros c Hc. simpl in Hc.
    destruct Hc as [<-|[<-|[<-|[<-|[<-|[]]]]]]; reflexivity. }
  rewrite (Hinc c1 H1), (Hinc c2 H2). cbn [andb render with_expr expr].
  rewrite He, removelast_last. reflexivity.
Qed.

End Handlers.

Lemma locked_until_cleared_witness :
  handleInput StubMath (fun _ => js "0") 0
    {| action := None; val := Some (js "1"); fnName := None |}
    {| expr := js "1/0"; locked := true; useDegrees := true; history := [];
       displayText := js "Error"; exprText := js "1/0" |}
  = {| expr := js "1/0"; locked := true; useDegrees := true; history := [];
       displayText := js "Error"; exprText := js "1/0" |}.
Proof.
  apply (proj1 (locked_until_cleared StubMath (fun _ => js "0") 0
                  {| action := None; val := Some (js "1"); fnName := None |}
                  {| expr := js "1/0"; locked := true; useDegrees := true;
                     history := []; displayText := js "Error";
                     exprText := js "1/0" |}));
    reflexivity.
Defined.

Lemma operator_replaces_operator_witness :
  expr (handleInput StubMath (fun _ => js "0") 0
          {| action := None; val := Some (js "-"); fnName := None |}
          (with_expr (initial []) (js "3*")))
  = js "3" ++ js "-".
Proof.
  apply (operator_replaces_operator StubMath (fun _ => js "0") 0
           (with_expr (initial []) (js "3*")) (js "3") 42 45);
    [reflexivity | reflexivity | simpl; auto | simpl; auto].
Defined.

Lemma handleInputs_invariant_witness :
  shown (handleInputs StubMath (fun _ => js "5")
           [(0, {| action := None; val := Some (js "2"); fnName := None |})]
           (initial [])).
Proof.
  apply (proj1 (handleInputs_invariant StubMath (fun _ => js "5")
                  [(0, {| action := None; val := Some (js "2");
                          fnName := None |})] [])).
Defined.

End UIFacts.

(** * Parentheses, calls and postfix operators *)

Section Terms.

Variable Math : MathLib.
Variable deg : bool.

(** Operators waiting on the stack after [text t] is read. *)
Fixpoint term_spine (t : term) : list token :=
  match t with
  | Op o _ r => term_spine r ++ [TOp o]
  | _ => []
  end.

(** Tokens in the output at that point. *)
Fixpoint term_emitted (t : term) : list token :=
  match t with
  | Op _ l r => postfix_form l ++ term_emitted r
  | _ => postfix_form t
  end.

Fixpoint last_token (t : term) : token :=
  match t with
  | Lit v => TNumber v
  | Pi => TName "pi"
  | Euler => TName "e"
  | Op _ _ r => last_token r
  | Paren _ | Call _ _ => TRParen
  | Post _ p => TPostfix p
  end.

Fixpoint term_settles (t : term) (stk : list token) : Prop :=
  match t with
  | Op o l _ => stops Math o stk /\ term_settles l stk
  | _ => True
  end.

(** No function marker on top of the stack. *)
Definition calm (stk : list token) : Prop :=
  match stk with
  | TName _ :: _ | TFunc _ :: _ => False
  | _ => True
  end.

Lemma postfix_form_split (t : term) :
  postfix_form t = term_emitted t ++ term_spine t.
Proof.
  induction t as [v| | |o l IHl r IHr|t IH|f t IH|t IH p];
    cbn [postfix_form term_emitted term_spine];
    rewrite ?app_nil_r; try reflexivity.
  rewrite IHr at 1. rewrite <- !app_assoc. reflexivity.
Qed.

Lemma isUnary_after_term (o : binop) (t : term) :
  isUnary o (Some (last_token t)) = false.
Proof.
  induction t; cbn [last_token]; try assumption; destruct o; reflexivity.
Qed.

Lemma pop_ops_term_spine (o : binop) (t : term) :
  well_formed t = true -> term_operand_ok left_operand_ok o t = true ->
  forall stk out,
    pop_ops Math o (term_spine t ++ stk) out
    = pop_ops Math o stk (out ++ term_spine t).
Proof.
  induction t as [v| | |c l IHl r IHr|t IH|f t IH|t IH p];
    intros Hw Hl stk out; cbn [term_spine app];
    rewrite ?app_nil_r; try reflexivity.
  cbn [well_formed term_operand_ok] in Hw, Hl.
  apply andb_prop in Hw as [Hw Hwr]. apply andb_prop in Hw as [Hw Hwl].
  apply andb_prop in Hw as [Hcl Hcr].
  rewrite <- app_assoc. rewrite IHr; auto.
  - cbn [app pop_ops]. rewrite pops_left_operand, Hl.
    rewrite <- app_assoc. reflexivity.
  - destruct r; try reflexivity.
    cbn [term_operand_ok] in *. eapply left_operand_down; eauto.
Qed.

Lemma term_settles_right_operand (o : binop) (t : term) (stk : list token) :
  well_formed t = true -> term_operand_ok right_operand_ok o t = true ->
  term_settles t (TOp o :: stk).
Proof.
  induction t as [v| | |c l IHl r IHr|t IH|f t IH|t IH p];
    intros Hw Hr; try exact I.
  cbn [well_formed term_operand_ok] in Hw, Hr.
  apply andb_prop in Hw as [Hw Hwr]. apply andb_prop in Hw as [Hw Hwl].
  apply andb_prop in Hw as [Hcl Hcr].
  split.
  - simpl. rewrite pops_right_operand, Hr. reflexivity.
  - apply IHl; auto.
    destruct l; try reflexivity.
    cbn [term_operand_ok] in *. eapply right_operand_down; eauto.
Qed.

Lemma pop_to_lparen_term_spine (t : term) :
  forall stk out,
    pop_to_lparen (term_spine t ++ stk) out
    = pop_to_lparen stk (out ++ term_spine t).
Proof.
  induction t as [v| | |c l IHl r IHr|t IH|f t IH|t IH p];
    intros stk out; cbn [term_spine app]; rewrite ?app_nil_r;
    try reflexivity.
  rewrite <- app_assoc. rewrite IHr. cbn [app pop_to_lparen].
  rewrite <- app_assoc. reflexivity.
Qed.

Lemma term_spine_ops (t : term) (stk out : list token) :
  pop_to_lparen (term_spine t ++ TLParen :: stk) out
  = {| output := out ++ term_spine t; stack := TLParen :: stk |}.
Proof.
  rewrite pop_to_lparen_term_spine. reflexivity.
Qed.

Lemma term_settles_lparen (t : term) (stk : list token) :
  term_settles t (TLParen :: stk).
Proof. induction t; simpl; auto. Qed.

Lemma term_settles_nil (t : term) : term_settles t [].
Proof. induction t; simpl; auto. Qed.

Lemma atom_spine (t : term) :
  is_operation t = false ->
  term_spine t = [] /\ term_emitted t = postfix_form t.
Proof. destruct t; try discriminate; auto. Qed.

(** Reading the text of a well-formed term from a state whose stack
    top is neither a function marker nor an operator that the term's
    leftmost operators would pop. *)
Lemma toRPN_loop_text (t : term) :
  well_formed t = true ->
  forall (rest : list token) (prev : option token) (s : rpn_state),
    term_settles t (stack s) -> calm (stack s) ->
    toRPN_loop Math (text t ++ rest) prev s =
    toRPN_loop Math rest (Some (last_token t))
      {| output := output s ++ term_emitted t;
         stack := term_spine t ++ stack s |}.
Proof.
  induction t as [v| | |o l IHl r IHr|t IH|f t IH|t IH p];
    intros Hw rest prev s Hs Hc.
  - reflexivity.
  - reflexivity.
  - reflexivity.
  - cbn [well_formed] in Hw.
    apply andb_prop in Hw as [Hw Hwr]. apply andb_prop in Hw as [Hw Hwl].
    apply andb_prop in Hw as [Hol Hor].
    destruct Hs as [Hstop Hs].
    cbn [text]. rewrite <- app_assoc. rewrite IHl by assumption.
    cbn [app toRPN_loop toRPN_step stack output].
    rewrite isUnary_after_term.
    rewrite pop_ops_term_spine by assumption.
    rewrite pop_ops_stops by assumption.
    cbn [bind stack output].
    rewrite IHr.
    + cbn [stack output term_emitted term_spine last_token].
      rewrite (postfix_form_split l). rewrite <- !app_assoc. reflexivity.
    + assumption.
    + cbn [stack]. apply term_settles_right_operand; assumption.
    + exact I.
  - cbn [well_formed] in Hw. cbn [text app toRPN_loop toRPN_step bind].
    rewrite <- app_assoc.
    rewrite IH; [|assumption|apply term_settles_lparen|exact I].
    cbn [app toRPN_loop toRPN_step stack output].
    rewrite term_spine_ops. cbn [stack output].
    rewrite <- app_assoc, <- postfix_form_split.
    cbn [term_emitted term_spine postfix_form last_token app].
    destruct (stack s) as [|top stk]; [reflexivity|].
    destruct top; try reflexivity; destruct Hc.
  - cbn [well_formed] in Hw. apply andb_prop in Hw as [Hf Hw].
    apply negb_true_iff in Hf. apply orb_false_elim in Hf as [Hpi He].
    cbn [text app toRPN_loop toRPN_step bind]. rewrite Hpi, He.
    cbn [bind toRPN_loop toRPN_step stack output].
    rewrite <- app_assoc.
    rewrite IH; [|assumption|apply term_settles_lparen|exact I].
    cbn [app toRPN_loop toRPN_step stack output].
    rewrite term_spine_ops. cbn [stack output bind].
    rewrite <- !app_assoc, (app_assoc (term_emitted t)),
      <- postfix_form_split.
    reflexivity.
  - cbn [well_formed] in Hw. apply andb_prop in Hw as [Ha Hw].
    apply negb_true_iff in Ha. destruct (atom_spine t Ha) as [Hsp Hem].
    cbn [text]. rewrite <- app_assoc.
    rewrite IH; [|assumption| |assumption].
    + cbn [app toRPN_loop toRPN_step bind stack output].
      rewrite Hsp, Hem. cbn [term_emitted term_spine postfix_form last_token].
      rewrite <- app_assoc. reflexivity.
    + destruct t; try discriminate; exact I.
Qed.

Lemma drain_term_spine (t : term) (out : list token) :
  drain (term_spine t) out = Ok (out ++ term_spine t).
Proof.
  assert (H : forall stk out', drain (term_spine t ++ stk) out'
                               = drain stk (out' ++ term_spine t)).
  { induction t as [v| | |c l IHl r IHr|t IH|f t IH|t IH p];
      intros stk out'; cbn [term_spine app]; rewrite ?app_nil_r;
      try reflexivity.
    rewrite <- app_assoc. rewrite IHr. cbn [app drain].
    rewrite <- app_assoc. reflexivity. }
  rewrite <- (app_nil_r (term_spine t)) at 1. rewrite H. reflexivity.
Qed.

Lemma evalRPN_step_function (name : string) (a : float) (st : list float) :
  evalRPN_step Math deg (TName name) (a :: st)
  = bind (apply_function Math deg name a) (fun r => Ok (r :: st)).
Proof.
  unfold evalRPN_step, apply_function.
  destruct (String.eqb name "u-"); [reflexivity|].
  destruct (is_trig name); [reflexivity|].
  destruct (String.eqb name "ln"); [reflexivity|].
  destruct (String.eqb name "log");
    [destruct (Math_log10 Math); reflexivity|].
  destruct (String.eqb name "sqrt"); reflexivity.
Qed.

Lemma evalRPN_loop_postfix_form (t : term) :
  forall (rest : list token) (st : list float),
    evalRPN_loop Math deg (postfix_form t ++ rest) st =
    bind (term_value Math deg t)
         (fun v => evalRPN_loop Math deg rest (v :: st)).
Proof.
  induction t as [v| | |o l IHl r IHr|t IH|f t IH|t IH p]; intros rest st.
  - reflexivity.
  - reflexivity.
  - reflexivity.
  - cbn [postfix_form term_value]. rewrite <- !app_assoc. rewrite IHl.
    destruct (term_value Math deg l) as [a|x]; cbn [bind]; [|reflexivity].
    rewrite IHr.
    destruct (term_value Math deg r) as [b|x]; cbn [bind]; [|reflexivity].
    cbn [app evalRPN_loop evalRPN_step].
    destruct (negb (Number_isFinite (fn (OPS Math o) a b))); reflexivity.
  - apply IH.
  - cbn [postfix_form term_value]. rewrite <- app_assoc. rewrite IH.
    destruct (term_value Math deg t) as [a|x]; cbn [bind]; [|reflexivity].
    cbn [app evalRPN_loop]. rewrite evalRPN_step_function.
    destruct (apply_function Math deg f a); reflexivity.
  - cbn [postfix_form term_value]. rewrite <- app_assoc. rewrite IH.
    destruct p;
      (destruct (term_value Math deg t) as [a|x]; cbn [bind];
       [|reflexivity]);
      cbn [app evalRPN_loop evalRPN_step]; [|reflexivity].
    destruct (factorial a); reflexivity.
Qed.

(** X14. For every well-formed expression with parentheses, calls,
    constants and postfix operators, the parser produces the postfix
    form of the expression and the pipeline returns its value: a
    parenthesised part and the argument of a call are evaluated as a
    unit, the function is applied to the value of its argument, and
    a postfix operator applies to the operand it follows. *)
Theorem pipeline_respects_structure (t : term) :
  well_formed t = true ->
  toRPN Math (text t) = Ok (postfix_form t)
  /\ bind (toRPN Math (text t)) (evalRPN Math deg)
     = finite_result (term_value Math deg t).
Proof.
  intros Hw.
  assert (Hrpn : toRPN Math (text t) = Ok (postfix_form t)).
  { unfold toRPN. rewrite <- (app_nil_r (text t)).
    rewrite toRPN_loop_text; auto.
    - cbn [toRPN_loop bind stack output app]. rewrite app_nil_r.
      rewrite drain_term_spine, postfix_form_split. reflexivity.
    - apply term_settles_nil.
    - exact I. }
  split; [assumption|].
  rewrite Hrpn. cbn [bind]. unfold evalRPN, finite_result.
  rewrite <- (app_nil_r (postfix_form t)), evalRPN_loop_postfix_form.
  destruct (term_value Math deg t); reflexivity.
Qed.

End Terms.

Lemma pipeline_respects_structure_witness :
  toRPN StubMath
    (text (Op Mul (Lit 2) (Call "sqrt" (Op Add (Paren (Lit 7)) (Post (Lit 3) Bang)))))
  = Ok (postfix_form
          (Op Mul (Lit 2)
             (Call "sqrt" (Op Add (Paren (Lit 7)) (Post (Lit 3) Bang))))).
Proof.
  apply (proj1 (pipeline_respects_structure StubMath true
                  (Op Mul (Lit 2)
                     (Call "sqrt"
                        (Op Add (Paren (Lit 7)) (Post (Lit 3) Bang))))
                  eq_refl)).
Defined.

(** * Counting operands and operators *)

Definition is_number (t : token) : bool :=
  match t with TNumber _ => true | _ => false end.

Definition is_binary (t : token) : bool :=
  match t with TOp _ => true | _ => false end.

Lemma evalRPN_step_height (Math : MathLib) (deg : bool) (t : token)
  (st st' : list float) :
  evalRPN_step Math deg t st = Ok st' ->
  (List.length st' + (if is_binary t then 1 else 0)
   = List.length st + (if is_number t then 1 else 0))%nat.
Proof.
  intros H.
  destruct t as [v|name| | | |p|o|name]; cbn [evalRPN_step] in H;
    cbn [is_binary is_number]; try discriminate.
  - injection H as <-. simpl. lia.
  - destruct (String.eqb name "u-");
      [destruct st; [discriminate | injection H as <-; simpl; lia]|].
    destruct (is_trig name).
    { destruct st as [|a st]; [discriminate|].
      destruct (trigOp Math deg name a); [|discriminate].
      injection H as <-. simpl. lia. }
    destruct (String.eqb name "ln");
      [destruct st; [discriminate | injection H as <-; simpl; lia]|].
    destruct (String.eqb name "log").
    { destruct st; [discriminate|].
      destruct (Math_log10 Math); injection H as <-; simpl; lia. }
    destruct (String.eqb name "sqrt");
      [destruct st; [discriminate | injection H as <-; simpl; lia]|].
    discriminate.
  - destruct st as [|a st]; [discriminate|].
    destruct p; [|injection H as <-; simpl; lia].
    destruct (factorial a); [|discriminate].
    injection H as <-. simpl. lia.
  - destruct st as [|b [|a st]]; try discriminate.
    destruct (negb (Number_isFinite (fn (OPS Math o) a b)));
      [discriminate|].
    injection H as <-. simpl. lia.
  - destruct (String.eqb name "u-");
      [destruct st; [discriminate | injection H as <-; simpl; lia]|].
    destruct (is_trig name).
    { destruct st as [|a st]; [discriminate|].
      destruct (trigOp Math deg name a); [|discriminate].
      injection H as <-. simpl. lia. }
    destruct (String.eqb name "ln");
      [destruct st; [discriminate | injection H as <-; simpl; lia]|].
    destruct (String.eqb name "log").
    { destruct st; [discriminate|].
      destruct (Math_log10 Math); injection H as <-; simpl; lia. }
    destruct (String.eqb name "sqrt");
      [destruct st; [discriminate | injection H as <-; simpl; lia]|].
    discriminate.
Qed.

Lemma evalRPN_loop_height (Math : MathLib) (deg : bool) (rpn : list token) :
  forall st st' : list float,
    evalRPN_loop Math deg rpn st = Ok st' ->
    (List.length st' + List.length (filter is_binary rpn)
     = List.length st + List.length (filter is_number rpn))%nat.
Proof.
  induction rpn as [|t rpn IH]; intros st st' H.
  - simpl in H. injection H as <-. simpl. lia.
  - cbn [evalRPN_loop] in H. apply bind_ok in H as (st1 & H1 & H2).
    apply evalRPN_step_height in H1. apply IH in H2.
    cbn [filter]. destruct (is_binary t), (is_number t); simpl in *; lia.
Qed.

(** X16. A postfix sequence that evaluates to a value holds exactly one
    more number than binary operators; every other sequence is
    rejected. *)
Theorem evalRPN_needs_one_more_number
  (Math : MathLib) (deg : bool) (rpn : list token) (v : float) :
  evalRPN Math deg rpn = Ok v ->
  List.length (filter is_number rpn)
  = S (List.length (filter is_binary rpn)).
Proof.
  unfold evalRPN. intros H. apply bind_ok in H as (st & H1 & H2).
  apply evalRPN_loop_height in H1.
  destruct st as [|x [|y st]]; try discriminate. simpl in H1. lia.
Qed.

Lemma evalRPN_needs_one_more_number_witness :
  List.length (filter is_number [TNumber 2; TNumber 3; TOp Add])
  = S (List.length (filter is_binary [TNumber 2; TNumber 3; TOp Add])).
Proof.
  apply (evalRPN_needs_one_more_number StubMath true
           [TNumber 2; TNumber 3; TOp Add] 5).
  vm_compute; reflexivity.
Defined.

(** * Names are case-insensitive *)

Lemma span_map_same (p : char -> bool) (f : char -> char) (s : jsstring) :
  (forall c, p (f c) = p c) ->
  span p (map f s) = (map f (fst (span p s)), map f (snd (span p s))).
Proof.
  intros Hp. induction s as [|c s IH]; [reflexivity|].
  cbn [map span]. rewrite Hp.
  destruct (p c); [|reflexivity].
  rewrite IH. destruct (span p s). reflexivity.
Qed.

Lemma span_run (p : char -> bool) (s : jsstring) :
  forallb p (fst (span p s)) = true.
Proof.
  induction s as [|c s IH]; [reflexivity|].
  cbn [span]. destruct (p c) eqn:Hc; [|reflexivity].
  destruct (span p s). cbn [fst forallb] in *. rewrite Hc, IH. reflexivity.
Qed.

Lemma lower_idempotent (c : char) : lower (lower c) = lower c.
Proof.
  destruct (lower_cases c) as [[Hc ->]|[Hc ->]].
  - destruct (lower_cases (c + 32)) as [[Hc' _]|[_ ->]]; [lia | reflexivity].
  - destruct (lower_cases c) as [[Hc' _]|[_ ->]]; [lia | reflexivity].
Qed.

Lemma name_of_lower (s : jsstring) : name_of (map lower s) = name_of s.
Proof.
  induction s as [|c s IH]; [reflexivity|].
  cbn [map name_of]. rewrite lower_idempotent, IH. reflexivity.
Qed.

Lemma lower_other (c : char) : isAlpha c = false -> lower c = c.
Proof.
  unfold isAlpha. intros H.
  destruct (lower_cases c) as [[Hc _]|[_ ->]]; [|reflexivity].
  apply orb_false_elim in H as [_ H].
  destruct (Z.leb_spec 65 c), (Z.leb_spec c 90); cbn [andb] in H;
    try discriminate; lia.
Qed.

Lemma isAlpha_lower (c : char) : isAlpha (lower c) = isAlpha c.
Proof.
  destruct (lower_cases c) as [[Hc ->]|[_ ->]]; [|reflexivity].
  unfold isAlpha.
  destruct (Z.leb_spec 97 (c + 32)), (Z.leb_spec (c + 32) 122),
    (Z.leb_spec 65 c), (Z.leb_spec c 90); cbn [andb orb];
    try reflexivity; lia.
Qed.

Lemma map_lower_non_alpha (s : jsstring) :
  forallb (fun c => negb (isAlpha c)) s = true -> map lower s = s.
Proof.
  induction s as [|c s IH]; intros H; [reflexivity|].
  simpl in H. apply andb_prop in H as [Hc Hs].
  apply negb_true_iff in Hc.
  cbn [map]. rewrite (lower_other c Hc), IH by assumption. reflexivity.
Qed.

Lemma tokenize_loop_lower (fuel : nat) :
  forall (s : jsstring) (tokens : list token),
    tokenize_loop fuel (map lower s) tokens = tokenize_loop fuel s tokens.
Proof.
  induction fuel as [|fuel IH]; intros s tokens.
  - destruct s; reflexivity.
  - destruct s as [|ch rest]; [reflexivity|].
    cbn [map].
    destruct (isAlpha ch) eqn:Halpha.
    + (* a name: the run is lowercased either way *)
      assert (Hl : isAlpha (lower ch) = true)
        by (rewrite isAlpha_lower; exact Halpha).
      pose proof alpha_is_nothing_else as Hnot.
      destruct (Hnot _ Hl) as (Hw1 & Hd1 & Hp1).
      destruct (Hnot _ Halpha) as (Hw2 & Hd2 & Hp2).
      cbn [tokenize_loop].
      rewrite Hw1, Hw2, Hd1, Hd2, Hp1, Hp2, Hl, Halpha. cbn [andb orb].
      rewrite (span_map_same (fun c => isAlpha c || isDigit c) lower rest).
      * destruct (span (fun c => isAlpha c || isDigit c) rest)
          as [run rest'].
        cbn [fst snd]. rewrite IH.
        change (lower ch :: map lower run) with (map lower (ch :: run)).
        rewrite name_of_lower. reflexivity.
      * intros c. rewrite isAlpha_lower.
        destruct (isAlpha c) eqn:Hc; [reflexivity|].
        rewrite (lower_other c Hc). reflexivity.
    + rewrite (lower_other ch Halpha).
      cbn [tokenize_loop]. rewrite Halpha.
      assert (Hnext : match map lower rest with
                      | c :: _ => isDigit c
                      | [] => false
                      end
                      = match rest with c :: _ => isDigit c | [] => false end).
      { destruct rest as [|c r]; [reflexivity|]. cbn [map].
        destruct (isAlpha c) eqn:Hc; [|rewrite (lower_other c Hc); reflexivity].
        destruct (lower_cases c) as [[Hr ->]|[_ ->]]; [|reflexivity].
        unfold isDigit.
        destruct (Z.leb_spec 48 (c + 32)), (Z.leb_spec (c + 32) 57),
          (Z.leb_spec 48 c), (Z.leb_spec c 57); cbn [andb];
          try reflexivity; lia. }
      rewrite Hnext.
      assert (Hnum : forall c, isDigit (lower c) || (lower c =? dot)
                               = isDigit c || (c =? dot)).
      { intros c. destruct (lower_cases c) as [[Hr ->]|[_ ->]]; [|reflexivity].
        unfold isDigit, dot.
        destruct (Z.leb_spec 48 (c + 32)), (Z.leb_spec (c + 32) 57),
          (Z.leb_spec 48 c), (Z.leb_spec c 57), (Z.eqb_spec (c + 32) 46),
          (Z.eqb_spec c 46); cbn [andb orb]; try reflexivity; lia. }
      rewrite (span_map_same _ lower rest Hnum).
      pose proof (span_run (fun c => isDigit c || (c =? dot)) rest) as Hrun.
      destruct (span (fun c => isDigit c || (c =? dot)) rest) as [run rest'].
      cbn [fst snd] in *.
      assert (Hsame : map lower run = run).
      { apply map_lower_non_alpha.
        rewrite forallb_forall in *. intros c Hc. specialize (Hrun c Hc).
        apply negb_true_iff.
        destruct (isAlpha c) eqn:Ha; [|reflexivity].
        destruct (alpha_is_nothing_else c Ha) as (_ & Hd & Hp).
        rewrite Hd, Hp in Hrun. discriminate. }
      rewrite Hsame.
      destruct (op_of_char ch); rewrite !IH; reflexivity.
Qed.

(** X17. Letter case does not matter: an input and its lowercase form
    give the same result (["SIN(PI)"] is ["sin(pi)"]). *)
Theorem names_are_case_insensitive
  (Math : MathLib) (deg : bool) (str : jsstring) :
  internalEvaluateExpression Math deg (map lower str)
  = internalEvaluateExpression Math deg str.
Proof.
  unfold internalEvaluateExpression.
  assert (Hnorm : normalize (map lower str) = map lower (normalize str)).
  { unfold normalize. rewrite <- filter_map_commute.
    - f_equal. rewrite !map_map. apply map_ext. intros c.
      destruct (lower_cases c) as [[Hc Hl]|[Hc Hl]].
      + rewrite Hl.
        destruct (Z.eqb_spec (c + 32) 247); [lia|].
        destruct (Z.eqb_spec (c + 32) 215); [lia|].
        destruct (Z.eqb_spec (c + 32) 8722); [lia|].
        destruct (Z.eqb_spec c 247); [lia|].
        destruct (Z.eqb_spec c 215); [lia|].
        destruct (Z.eqb_spec c 8722); [lia|].
        symmetry. exact Hl.
      + rewrite Hl.
        destruct (Z.eqb_spec c 247) as [->|]; [reflexivity|].
        destruct (Z.eqb_spec c 215) as [->|]; [reflexivity|].
        destruct (Z.eqb_spec c 8722) as [->|]; [reflexivity|].
        symmetry. exact Hl.
    - intros c. destruct (lower_cases c) as [[Hc ->]|[_ ->]]; [|reflexivity].
      rewrite !isWhitespace_mid by lia. reflexivity. }
  rewrite Hnorm. unfold tokenize. rewrite length_map, tokenize_loop_lower.
  reflexivity.
Qed.

(** * History items and the lock *)

(** X18. Clicking a history item puts its result in the expression
    and on the display but does not unlock the calculator: after an
    error, the result is shown and every input other than 'clear' is
    still ignored. *)
Theorem historyClick_keeps_lock
  (Math : MathLib) (format : float -> jsstring) (now : Z)
  (h : UI.entry) (i : UI.input) (s : UI.state) :
  UI.locked s = true ->
  UI.action_is i "clear" = false ->
  let s' := UI.historyClick h s in
  UI.expr s' = UI.entry_result h
  /\ UI.exprText s' = UI.entry_result h
  /\ UI.locked s' = true
  /\ UI.handleInput Math format now i s' = s'.
Proof.
  intros Hl Hc s'. subst s'.
  unfold UI.historyClick, UI.handleInput.
  cbn [UI.render UI.with_expr UI.expr UI.exprText UI.locked].
  rewrite Hl, Hc. repeat split.
Qed.

Lemma historyClick_keeps_lock_witness :
  UI.handleInput StubMath (fun _ => js "0") 0
    {| UI.action := None; UI.val := Some (js "1"); UI.fnName := None |}
    (UI.historyClick
       {| UI.entry_expr := js "2+3"; UI.entry_result := js "5";
          UI.entry_ts := 0 |}
       {| UI.expr := js "1/0"; UI.locked := true; UI.useDegrees := true;
          UI.history := []; UI.displayText := js "Error";
          UI.exprText := js "1/0" |})
  = UI.historyClick
      {| UI.entry_expr := js "2+3"; UI.entry_result := js "5";
         UI.entry_ts := 0 |}
      {| UI.expr := js "1/0"; UI.locked := true; UI.useDegrees := true;
         UI.history := []; UI.displayText := js "Error";
         UI.exprText := js "1/0" |}.
Proof.
  apply (historyClick_keeps_lock StubMath (fun _ => js "0") 0
           {| UI.entry_expr := js "2+3"; UI.entry_result := js "5";
              UI.entry_ts := 0 |}
           {| UI.action := None; UI.val := Some (js "1"); UI.fnName := None |}
           {| UI.expr := js "1/0"; UI.locked := true; UI.useDegrees := true;
              UI.history := []; UI.displayText := js "Error";
              UI.exprText := js "1/0" |});
    reflexivity.
Defined.
